(** * The two-tier cache of [src/app/services/cache.service.ts]

    A shallow embedding of [CacheService]: the in-memory [Map] (an
    insertion-ordered association list), the IndexedDB object store (a finite
    map keyed by the record's [key]), the hit and miss counters and the
    published statistics snapshot with the [updateStats] calls that are
    still waiting for their [getAll] request.  Every public method is a
    function from the service state to an outcome and a new state;
    [Date.now()] and the success or failure of each IndexedDB request are
    inputs of the call. *)

From Stdlib Require Import ZArith Lia List Sorted Permutation Ascii String.
From Stdlib Require SpecFloat.
From stdpp Require Import gmap strings list fin_maps.

#[local] Open Scope Z_scope.

(** ** Stable sorting, as [Array.prototype.sort] *)

Section StableSort.
Context {A : Type} (le : A -> A -> bool).

(** [x] goes in front of the first element it does not have to follow, so
    elements that compare equal keep their relative order. *)
Fixpoint insert_sorted (x : A) (l : list A) : list A :=
  match l with
  | [] => [x]
  | y :: r => if le x y then x :: y :: r else y :: insert_sorted x r
  end.

Fixpoint stable_sort (l : list A) : list A :=
  match l with
  | [] => []
  | x :: r => insert_sorted x (stable_sort r)
  end.
End StableSort.

(** The comparator [(a, b) => f(a) - f(b)] and the order it sorts into. *)
Definition le_by {A : Type} (f : A -> Z) (a b : A) : bool := f a <=? f b.

Definition ascending {A : Type} (f : A -> Z) : A -> A -> Prop :=
  fun a b => f a <= f b.

Module CacheService.

(** ** Data model *)

Section Payload.
(** [T] is the type of the non-null payloads; a value of TypeScript type
    [T | null] is an [option T], with [None] for [null]. *)
Context {T : Type}.

Record Metadata := {
  size : Z;
  type : string;
  version : string
}.

Record CacheEntry := {
  key : string;
  data : option T;
  timestamp : Z;
  expiration : Z;
  accessCount : Z;
  lastAccessed : Z;
  metadata : Metadata
}.

Record CacheStats := {
  totalEntries : Z;
  totalSize : Z;
  hitRate : SpecFloat.spec_float;
  memoryUsage : Z;
  oldestEntry : Z;
  newestEntry : Z
}.

(** [memoryCache] is a JavaScript [Map]: iteration follows insertion order,
    [set] on a present key keeps its position, [delete] removes it. *)
Definition MemoryMap := list (string * CacheEntry).

Fixpoint map_get (k : string) (m : MemoryMap) : option CacheEntry :=
  match m with
  | [] => None
  | (k', e) :: r => if String.eqb k' k then Some e else map_get k r
  end.

Fixpoint map_set (k : string) (e : CacheEntry) (m : MemoryMap) : MemoryMap :=
  match m with
  | [] => [(k, e)]
  | (k', e') :: r =>
      if String.eqb k' k then (k, e) :: r else (k', e') :: map_set k e r
  end.

Fixpoint map_delete (k : string) (m : MemoryMap) : MemoryMap :=
  match m with
  | [] => []
  | (k', e) :: r =>
      if String.eqb k' k then map_delete k r else (k', e) :: map_delete k r
  end.

Definition map_values (m : MemoryMap) : list CacheEntry := List.map snd m.

(** [keys.forEach(key => map.delete(key))] *)
Definition delete_keys (ks : list string) (m : MemoryMap) : MemoryMap :=
  fold_left (fun m k => map_delete k m) ks m.

(** The object store [analysis-cache], with key path [key]. *)
#[local] Abbreviation ObjectStore := (gmap string CacheEntry).

(** [objectStore.getAll()]: every record, in ascending key order. *)
Definition getAll (store : ObjectStore) : list CacheEntry :=
  stable_sort (fun a b => String.leb (key a) (key b))
              (List.map snd (map_to_list store)).

(** What an [updateStats] call holds while it waits for its [getAll]
    request: the local [memoryEntries], read from the [Map] before the
    [await], and the [dbEntries] the request will answer with.  The
    fields read from these entries afterwards ([key], [timestamp],
    [metadata.size]) are never assigned after an entry is created. *)
Record StatsCapture := {
  memoryEntries : list CacheEntry;
  dbEntries : list CacheEntry
}.

(** [statsSubject] is the current value of the [BehaviorSubject];
    [pendingStats] are the [updateStats] calls that were started, which
    nobody awaits, and have not resumed yet, oldest first. *)
Record State := {
  db : option ObjectStore;
  memoryCache : MemoryMap;
  hitCount : Z;
  missCount : Z;
  statsSubject : CacheStats;
  pendingStats : list StatsCapture
}.

Definition with_db (d : option ObjectStore) (s : State) : State :=
  {| db := d; memoryCache := memoryCache s; hitCount := hitCount s;
     missCount := missCount s; statsSubject := statsSubject s;
     pendingStats := pendingStats s |}.

Definition with_memoryCache (m : MemoryMap) (s : State) : State :=
  {| db := db s; memoryCache := m; hitCount := hitCount s;
     missCount := missCount s; statsSubject := statsSubject s;
     pendingStats := pendingStats s |}.

Definition with_hitCount (h : Z) (s : State) : State :=
  {| db := db s; memoryCache := memoryCache s; hitCount := h;
     missCount := missCount s; statsSubject := statsSubject s;
     pendingStats := pendingStats s |}.

Definition with_missCount (c : Z) (s : State) : State :=
  {| db := db s; memoryCache := memoryCache s; hitCount := hitCount s;
     missCount := c; statsSubject := statsSubject s;
     pendingStats := pendingStats s |}.

Definition with_stats (st : CacheStats) (s : State) : State :=
  {| db := db s; memoryCache := memoryCache s; hitCount := hitCount s;
     missCount := missCount s; statsSubject := st;
     pendingStats := pendingStats s |}.

Definition with_pendingStats (p : list StatsCapture) (s : State) : State :=
  {| db := db s; memoryCache := memoryCache s; hitCount := hitCount s;
     missCount := missCount s; statsSubject := statsSubject s;
     pendingStats := p |}.

Definition MAX_MEMORY_CACHE_SIZE : Z := 50.
Definition DEFAULT_TTL : Z := 1000 * 60 * 60 * 24.

(** The state the field initialisers build, before IndexedDB has opened. *)
Definition initial : State :=
  {| db := None; memoryCache := []; hitCount := 0; missCount := 0;
     statsSubject := {| totalEntries := 0; totalSize := 0;
                        hitRate := SpecFloat.S754_zero false;
                        memoryUsage := 0; oldestEntry := 0;
                        newestEntry := 0 |};
     pendingStats := [] |}.

(** ** Promises

    A call either resolves with a value or rejects; the state it leaves
    behind is returned in both cases. *)
Inductive Outcome (A : Type) : Type :=
| Resolved (a : A)
| Rejected.
Arguments Resolved {A} a.
Arguments Rejected {A}.

Definition Async (A : Type) : Type := State -> Outcome A * State.

Definition resolve {A} (a : A) : Async A := fun s => (Resolved a, s).

(** [await m] followed by [k]: a rejection of [m] is not caught. *)
Definition await {A B} (m : Async A) (k : A -> Async B) : Async B :=
  fun s =>
    match m s with
    | (Resolved a, s') => k a s'
    | (Rejected, s') => (Rejected, s')
    end.

(** Which IndexedDB requests of the current call fire [onerror]. *)
Record Faults := {
  putFails : bool;
  getFails : bool;
  deleteFails : bool;
  clearFails : bool;
  cursorFails : bool;
  getAllFails : bool
}.

Definition no_faults : Faults :=
  {| putFails := false; getFails := false; deleteFails := false;
     clearFails := false; cursorFails := false; getAllFails := false |}.

(** ** The durable tier *)

Definition setInIndexedDB (f : Faults) (entry : CacheEntry) : Async unit :=
  fun s =>
    match db s with
    | None => (Resolved tt, s)
    | Some store =>
        if putFails f then (Rejected, s)
        else (Resolved tt, with_db (Some (<[key entry := entry]> store)) s)
    end.

Definition getFromIndexedDB (f : Faults) (k : string)
  : Async (option CacheEntry) :=
  fun s =>
    match db s with
    | None => (Resolved None, s)
    | Some store =>
        if getFails f then (Rejected, s) else (Resolved (store !! k), s)
    end.

Definition deleteFromIndexedDB (f : Faults) (k : string) : Async unit :=
  fun s =>
    match db s with
    | None => (Resolved tt, s)
    | Some store =>
        if deleteFails f then (Rejected, s)
        else (Resolved tt, with_db (Some (base.delete k store)) s)
    end.

Definition clearIndexedDB (f : Faults) : Async unit :=
  fun s =>
    match db s with
    | None => (Resolved tt, s)
    | Some store =>
        if clearFails f then (Rejected, s)
        else (Resolved tt, with_db (Some ∅) s)
    end.

(** The cursor over the [expiration] index with range
    [IDBKeyRange.upperBound(now)] visits the records with
    [expiration <= now]; each is deleted. *)
Definition cleanupIndexedDB (f : Faults) (now : Z) : Async unit :=
  fun s =>
    match db s with
    | None => (Resolved tt, s)
    | Some store =>
        if cursorFails f then (Rejected, s)
        else (Resolved tt,
              with_db (Some (base.filter
                               (fun p => ¬ (expiration (snd p) <= now))
                               store)) s)
    end.

(** ** The memory tier *)

Definition calculateMemoryUsage (m : MemoryMap) : Z :=
  fold_left (fun total entry => total + size (metadata entry))
            (map_values m) 0.

Definition maxSize : Z := MAX_MEMORY_CACHE_SIZE * 1024 * 1024.

(** The [while] loop of [enforceMemoryLimit]: [entries] is the sorted
    snapshot, [m] the live map whose usage is recomputed every turn. *)
Fixpoint evict (entries : list (string * CacheEntry)) (m : MemoryMap)
  : MemoryMap :=
  match entries with
  | [] => m
  | (k, _) :: rest =>
      if calculateMemoryUsage m >? maxSize
      then evict rest (map_delete k m)
      else m
  end.

Definition by_lastAccessed (a b : string * CacheEntry) : bool :=
  lastAccessed (snd a) <=? lastAccessed (snd b).

Definition enforceMemoryLimit (s : State) : State :=
  let currentSize := calculateMemoryUsage (memoryCache s) in
  if currentSize >? maxSize then
    let entries := stable_sort by_lastAccessed (memoryCache s) in
    with_memoryCache (evict entries (memoryCache s)) s
  else s.

(** ** Statistics *)

Definition min_of (l : list Z) : Z :=
  match l with [] => 0 | x :: r => fold_left Z.min r x end.

Definition max_of (l : list Z) : Z :=
  match l with [] => 0 | x :: r => fold_left Z.max r x end.

(** JavaScript numbers are IEEE 754 doubles.  The integers of the model
    stand for doubles that hold them exactly; [hitRate] is the one
    published number that is not an integer, and is computed as the
    code computes it, each operation rounding to the nearest double. *)
Definition js_number (z : Z) : SpecFloat.spec_float :=
  SpecFloat.binary_normalize 53 1024 z 0 false.

Definition js_div : SpecFloat.spec_float -> SpecFloat.spec_float
                    -> SpecFloat.spec_float := SpecFloat.SFdiv 53 1024.

Definition js_mul : SpecFloat.spec_float -> SpecFloat.spec_float
                    -> SpecFloat.spec_float := SpecFloat.SFmul 53 1024.

(** [totalRequests > 0 ? (this.hitCount / totalRequests) * 100 : 0] *)
Definition percentage (hits total : Z) : SpecFloat.spec_float :=
  if total >? 0
  then js_mul (js_div (js_number hits) (js_number total)) (js_number 100)
  else SpecFloat.S754_zero false.

(** The part of [updateStats] that runs before its [await]:
    [memoryEntries] is read from the [Map], and the [getAll] request is
    placed.  The request reads the store as the earlier writes left it,
    the writes of later calls being queued behind it; a failing request
    is caught and leaves [dbEntries] empty. *)
Definition capture (f : Faults) (s : State) : StatsCapture :=
  {| memoryEntries := map_values (memoryCache s);
     dbEntries :=
       match db s with
       | None => []
       | Some store => if getAllFails f then [] else getAll store
       end |}.

(** The part of [updateStats] that runs after the [await]: [hitCount],
    [missCount] and [calculateMemoryUsage()] are read from the service as
    it is when the call resumes, the entries are those captured. *)
Definition publish (c : StatsCapture) (s : State) : CacheStats :=
  let allEntries :=
    memoryEntries c ++
    List.filter
      (fun d => negb (existsb (fun mem => String.eqb (key mem) (key d))
                              (memoryEntries c)))
      (dbEntries c) in
  let totalRequests := hitCount s + missCount s in
  {| totalEntries := Z.of_nat (length allEntries);
     totalSize :=
       fold_left (fun total entry => total + size (metadata entry))
                 allEntries 0;
     hitRate := percentage (hitCount s) totalRequests;
     memoryUsage := calculateMemoryUsage (memoryCache s);
     oldestEntry := min_of (List.map timestamp allEntries);
     newestEntry := max_of (List.map timestamp allEntries) |}.

(** [set], [delete], [clear], [cleanup] and [loadMemoryCache] call
    [updateStats] last and do not await it.  With [db] null the body has
    no [await] and the snapshot is published before the call returns;
    with the store open the call is suspended on its [getAll] request
    and publishes when it resumes. *)
Definition updateStats (f : Faults) (s : State) : State :=
  match db s with
  | None => with_stats (publish (capture f s) s) s
  | Some _ => with_pendingStats (pendingStats s ++ [capture f s]) s
  end.

(** The event loop delivers the answer of the oldest outstanding
    [getAll]: that [updateStats] call resumes and publishes.  This
    happens after the call that started it has returned: between two
    later calls, or while a later call is suspended on a request of its
    own, at the latest on the next write to the store, which is queued
    behind the [getAll].  A suspended call has run up to its [await];
    the counters are then those it started with ([get] from the store
    and [clear] change them after their [await]) or, for the other
    calls, those it ends with.  [s] is the service as it is at the
    resumption. *)
Definition resume (s : State) : State :=
  match pendingStats s with
  | [] => s
  | c :: rest => with_pendingStats rest (with_stats (publish c s) s)
  end.

(** Every outstanding [updateStats] call resumes, nothing else
    happening meanwhile. *)
Definition settle (s : State) : State :=
  fold_left (fun s _ => resume s) (pendingStats s) s.

(** ** Public operations *)

(** [jsonByteLength v] stands for
    [new TextEncoder().encode(JSON.stringify(v)).length]; the JSON text of
    [null] is the four letters null. *)
Variable jsonByteLength : T -> Z.

Definition calculateSize (d : option T) : Z :=
  match d with
  | None => 4
  | Some v => jsonByteLength v
  end.

Definition set (f : Faults) (now : Z) (k : string) (d : option T)
    (ttl : Z) (ty : string) : Async unit :=
  fun s =>
    let entry :=
      {| key := k; data := d; timestamp := now; expiration := now + ttl;
         accessCount := 0; lastAccessed := now;
         metadata := {| size := calculateSize d; type := ty;
                        version := "1.0" |} |} in
    let s1 :=
      if size (metadata entry) <? 1024 * 1024
      then enforceMemoryLimit
             (with_memoryCache (map_set k entry (memoryCache s)) s)
      else s in
    await (setInIndexedDB f entry)
          (fun _ s2 => (Resolved tt, updateStats f s2)) s1.

(** [entry && entry.expiration > now] *)
Definition unexpired (now : Z) (o : option CacheEntry)
  : option CacheEntry :=
  match o with
  | Some entry => if expiration entry >? now then Some entry else None
  | None => None
  end.

(** [entry.accessCount++; entry.lastAccessed = now] *)
Definition touch (now : Z) (entry : CacheEntry) : CacheEntry :=
  {| key := key entry; data := data entry; timestamp := timestamp entry;
     expiration := expiration entry;
     accessCount := accessCount entry + 1; lastAccessed := now;
     metadata := metadata entry |}.

Definition get (f : Faults) (now : Z) (k : string) : Async (option T) :=
  fun s =>
    match unexpired now (map_get k (memoryCache s)) with
    | Some entry =>
        (* the entry object inside the Map is updated in place *)
        (Resolved (data entry),
         with_hitCount (hitCount s + 1)
           (with_memoryCache
              (map_set k (touch now entry) (memoryCache s)) s))
    | None =>
        await (getFromIndexedDB f k)
          (fun dbEntry s1 =>
             match unexpired now dbEntry with
             | Some entry0 =>
                 let entry := touch now entry0 in
                 let s2 :=
                   if (accessCount entry >? 2)
                      && (size (metadata entry) <? 1024 * 1024)
                   then enforceMemoryLimit
                          (with_memoryCache
                             (map_set k entry (memoryCache s1)) s1)
                   else s1 in
                 await (setInIndexedDB f entry)
                   (fun _ s3 =>
                      (Resolved (data entry),
                       with_hitCount (hitCount s3 + 1) s3)) s2
             | None =>
                 (Resolved None, with_missCount (missCount s1 + 1) s1)
             end) s
    end.

(** [data !== null] *)
Definition has (f : Faults) (now : Z) (k : string) : Async bool :=
  await (get f now k)
        (fun d => resolve (match d with Some _ => true | None => false end)).

Definition delete (f : Faults) (k : string) : Async unit :=
  fun s =>
    await (deleteFromIndexedDB f k)
          (fun _ s2 => (Resolved tt, updateStats f s2))
          (with_memoryCache (map_delete k (memoryCache s)) s).

Definition clear (f : Faults) : Async unit :=
  fun s =>
    await (clearIndexedDB f)
          (fun _ s2 =>
             (Resolved tt,
              updateStats f (with_missCount 0 (with_hitCount 0 s2))))
          (with_memoryCache [] s).

(** [now] is read by [cleanup], [nowDb] by [cleanupIndexedDB]. *)
Definition cleanup (f : Faults) (now nowDb : Z) : Async unit :=
  fun s =>
    let keysToDelete :=
      List.map fst
        (List.filter (fun p => expiration (snd p) <=? now)
                     (memoryCache s)) in
    await (cleanupIndexedDB f nowDb)
          (fun _ s2 => (Resolved tt, updateStats f s2))
          (with_memoryCache (delete_keys keysToDelete (memoryCache s)) s).

(** ** Start-up *)

Definition by_score_desc (a b : CacheEntry) : bool :=
  accessCount b * lastAccessed b <=? accessCount a * lastAccessed a.

(** The [onsuccess] handler of [loadMemoryCache]'s [getAll]. *)
Definition loadMemoryCache (now : Z) (s : State) : State :=
  match db s with
  | None => s
  | Some store =>
      let entries := getAll store in
      let top :=
        firstn 20
          (stable_sort by_score_desc
             (List.filter (fun entry => expiration entry >? now) entries)) in
      updateStats no_faults
        (with_memoryCache
           (fold_left (fun m entry => map_set (key entry) entry m) top
                      (memoryCache s)) s)
  end.

(** [initializeIndexedDB]: [opened] is the store [indexedDB.open] hands
    back, or [None] when the request fails and [db] stays [null]. *)
Definition initializeIndexedDB (opened : option ObjectStore) (now : Z)
    (s : State) : State :=
  match opened with
  | None => s
  | Some store => loadMemoryCache now (with_db (Some store) s)
  end.

End Payload.

Arguments CacheEntry : clear implicits.
Arguments State : clear implicits.
Arguments Async : clear implicits.
Arguments MemoryMap : clear implicits.
Arguments Resolved {A} a.
Arguments Rejected {A}.

Abbreviation ObjectStore T := (gmap string (CacheEntry T)).

(** ** Cache keys

    JavaScript strings are sequences of 16-bit code units; the strings of
    this development hold the code units below 256, one per character. *)

(** [ToInt32]: wrap to the signed 32-bit range, as the operators [<<] and
    [&] do with their operands and their result. *)
Definition ToInt32 (z : Z) : Z := (z + 2 ^ 31) mod 2 ^ 32 - 2 ^ 31.

(** One turn of the loop of [hashString]:
    [hash = ((hash << 5) - hash) + char; hash = hash & hash]. *)
Definition hash_step (hash char : Z) : Z :=
  let hash := (ToInt32 (Z.shiftl (ToInt32 hash) 5) - hash) + char in
  Z.land (ToInt32 hash) (ToInt32 hash).

(** The loop over the code units [str.charCodeAt(i)], from [hash = 0]. *)
Definition hash_units (units : list Z) : Z := fold_left hash_step units 0.

Definition charCodes (str : string) : list Z :=
  List.map (fun c => Z.of_nat (nat_of_ascii c)) (list_ascii_of_string str).

(** The digits of [Number.prototype.toString(36)]. *)
Definition digit36 (d : Z) : ascii :=
  if d <? 10 then ascii_of_nat (Z.to_nat (48 + d))
  else ascii_of_nat (Z.to_nat (87 + d)).

Fixpoint radix36 (fuel : nat) (n : Z) (acc : string) : string :=
  match fuel with
  | O => acc
  | S fuel' =>
      let acc' := String (digit36 (n mod 36)) acc in
      if n / 36 =? 0 then acc' else radix36 fuel' (n / 36) acc'
  end.

(** [n.toString(36)] for an integer [n >= 0]; there are never more base-36
    digits than binary ones. *)
Definition toString36 (n : Z) : string :=
  radix36 (S (Z.to_nat (Z.log2 n))) n EmptyString.

(** [hashString]: the empty string is answered before the loop, with the
    decimal text of 0. *)
Definition hashString (str : string) : string :=
  if (String.length str =? 0)%nat then "0"
  else toString36 (Z.abs (hash_units (charCodes str))).

(** [generateCacheKey(prefix, ...parts)]; a part that is a number comes as
    the text [join] turns it into. *)
Definition generateCacheKey (prefix : string) (parts : list string) : string :=
  String.append prefix
    (String.append ":"
       (String.append (String.concat ":" parts)
          (String.append ":" (hashString (String.concat "" parts))))).

End CacheService.

Import CacheService.

(** * Specification vocabulary *)

Section Vocabulary.
Context {T : Type}.
Implicit Types (m : MemoryMap T) (e : CacheEntry T) (k : string)
  (s : State T).

Definition sizes_nonneg m : Prop :=
  forall p, In p m -> 0 <= size (metadata (snd p)).

(** The order the specification's words give: least recently used first,
    and among equal [lastAccessed] the lower [accessCount] first. *)
Definition spec_evicts_before e e' : Prop :=
  lastAccessed e < lastAccessed e'
  \/ (lastAccessed e = lastAccessed e' /\ accessCount e <= accessCount e').

(** Every entry [enforceMemoryLimit] removes comes, in that order, before
    every entry it keeps. *)
Definition spec_eviction_order s : Prop :=
  forall k e k' e',
    In (k, e) (memoryCache s) ->
    map_get k (memoryCache (enforceMemoryLimit s)) = None ->
    In (k', e') (memoryCache (enforceMemoryLimit s)) ->
    spec_evicts_before e e'.

(** What the durable tier holds for a key. *)
Definition db_get k s : option (CacheEntry T) :=
  match db s with
  | None => None
  | Some store => store !! k
  end.

(** Some tier holds an unexpired entry for the key. *)
Definition live (now : Z) k s : bool :=
  match unexpired now (map_get k (memoryCache s)) with
  | Some _ => true
  | None =>
      match unexpired now (db_get k s) with
      | Some _ => true
      | None => false
      end
  end.

(** ** Sequences of public calls, all IndexedDB requests succeeding *)

Inductive Op : Type :=
| OpSet (now : Z) (k : string) (d : option T) (ttl : Z) (ty : string)
| OpGet (now : Z) (k : string)
| OpHas (now : Z) (k : string)
| OpDelete (k : string)
| OpClear
| OpCleanup (now nowDb : Z).

Variable jsonByteLength : T -> Z.

Definition step (o : Op) s : State T :=
  match o with
  | OpSet now k d ttl ty => snd (set jsonByteLength no_faults now k d ttl ty s)
  | OpGet now k => snd (get no_faults now k s)
  | OpHas now k => snd (has no_faults now k s)
  | OpDelete k => snd (delete no_faults k s)
  | OpClear => snd (clear no_faults s)
  | OpCleanup now nowDb => snd (cleanup no_faults now nowDb s)
  end.

Definition run (ops : list Op) s : State T :=
  fold_left (fun s o => step o s) ops s.

(** The calls that may follow [set(k, ...)] without disturbing [k] while
    it expires at [exp]: no other [set] or [delete] of [k], no [clear],
    and sweeps only at clock readings before [exp]. *)
Definition leaves_alone k (exp : Z) (o : Op) : Prop :=
  match o with
  | OpSet _ k' _ _ _ => k' <> k
  | OpGet _ _ => True
  | OpHas _ _ => True
  | OpDelete k' => k' <> k
  | OpClear => False
  | OpCleanup now nowDb => now < exp /\ nowDb < exp
  end.

(** ** Schedules

    Between two public calls the event loop may deliver the answer of
    the oldest outstanding [getAll] request, which lets the [updateStats]
    call that waits for it resume and publish. *)
Inductive Event : Type :=
| Call (o : Op)
| Resume.

Definition occur (ev : Event) s : State T :=
  match ev with
  | Call o => step o s
  | Resume => resume s
  end.

Definition schedule (evs : list Event) s : State T :=
  fold_left (fun s ev => occur ev s) evs s.

(** The public calls of a schedule. *)
Fixpoint calls (evs : list Event) : list Op :=
  match evs with
  | [] => []
  | Call o :: r => o :: calls r
  | Resume :: r => calls r
  end.

(** Two states of the service that differ at most in the published
    snapshot and in the [updateStats] calls that wait. *)
Definition same_tiers s s' : Prop :=
  db s = db s' /\ memoryCache s = memoryCache s'
  /\ hitCount s = hitCount s' /\ missCount s = missCount s'.

(** Hits and misses of the [get] calls (also those made by [has]) of a
    schedule, judged by what the tiers hold when the call is made. *)
Fixpoint hits_of (evs : list Event) s : Z :=
  match evs with
  | [] => 0
  | ev :: r =>
      (match ev with
       | Call (OpGet now k) | Call (OpHas now k) =>
           if live now k s then 1 else 0
       | _ => 0
       end) + hits_of r (occur ev s)
  end.

Fixpoint misses_of (evs : list Event) s : Z :=
  match evs with
  | [] => 0
  | ev :: r =>
      (match ev with
       | Call (OpGet now k) | Call (OpHas now k) =>
           if live now k s then 0 else 1
       | _ => 0
       end) + misses_of r (occur ev s)
  end.

Definition is_clear (ev : Event) : bool :=
  match ev with Call OpClear => true | _ => false end.

(** The calls that end with [updateStats] and keep the counters. *)
Definition republishes (o : Op) : bool :=
  match o with
  | OpSet _ _ _ _ _ | OpDelete _ | OpCleanup _ _ => true
  | _ => false
  end.

(** The hit rate the specification's words give for the snapshot after a
    schedule that follows a [clear()]: the fraction [H / (H + M)], or 0
    when there was no request. *)
Definition spec_hit_rate (evs : list Event) s : Prop :=
  let cleared := step OpClear s in
  let H := hits_of evs cleared in
  let M := misses_of evs cleared in
  hitRate (statsSubject (schedule evs cleared))
  = (if H + M >? 0 then js_div (js_number H) (js_number (H + M))
     else SpecFloat.S754_zero false).
End Vocabulary.

Arguments Op : clear implicits.
Arguments Event : clear implicits.

Section MoreVocabulary.
Context {T : Type}.

(** The record [set] builds. *)
Definition new_entry (jsonByteLength : T -> Z) (now : Z) (k : string)
    (d : option T) (ttl : Z) (ty : string) : CacheEntry T :=
  {| key := k; data := d; timestamp := now; expiration := now + ttl;
     accessCount := 0; lastAccessed := now;
     metadata := {| size := calculateSize jsonByteLength d; type := ty;
                    version := "1.0" |} |}.

(** Records sit under their own [key], as the key path demands. *)
Definition store_wf (store : ObjectStore T) : Prop :=
  forall k e, store !! k = Some e -> key e = k.

Definition db_wf (s : State T) : Prop :=
  forall store, db s = Some store -> store_wf store.

(** The state a durable hit leaves: the touched record is promoted when
    [accessCount > 2] and it is small, and written back. *)
Definition after_db_hit now k e0 s : State T :=
  let entry := touch now e0 in
  let s2 :=
    if (accessCount entry >? 2) && (size (metadata entry) <? 1024 * 1024)
    then enforceMemoryLimit
           (with_memoryCache (map_set k entry (memoryCache s)) s)
    else s in
  with_hitCount (hitCount s2 + 1)
    (with_db (option_map (fun store => <[key entry := entry]> store) (db s2))
             s2).

(** The keys [cleanup] collects in [keysToDelete]. *)
Definition expired_keys (now : Z) (m : MemoryMap T) : list string :=
  List.map fst (List.filter (fun p => expiration (snd p) <=? now) m).

(** [get(k)] called once per clock reading of the list. *)
Definition get_repeatedly (nows : list Z) (k : string) (s : State T)
  : State T :=
  fold_left (fun s now => snd (get no_faults now k s)) nows s.

(** The memory map is at or below the ceiling, and no stored size is
    negative (sizes are byte lengths). *)
Definition within_ceiling (s : State T) : Prop :=
  calculateMemoryUsage (memoryCache s) <= maxSize
  /\ sizes_nonneg (memoryCache s)
  /\ forall k e, db_get k s = Some e -> 0 <= size (metadata e).

(** Both tiers agree with the last [set(k, v, ttl)]: the object store
    holds the payload [v] expiring at [exp], and so does the memory copy
    if there is one. *)
Definition holds (k : string) (v : option T) (exp : Z) (s : State T)
  : Prop :=
  db_wf s
  /\ (exists e, db_get k s = Some e /\ data e = v /\ expiration e = exp)
  /\ (forall e, map_get k (memoryCache s) = Some e ->
                data e = v /\ expiration e = exp).
End MoreVocabulary.

(** * Sample runs

    Payloads are strings of [n] letters x: their JSON text is the letters
    between two quotes, one byte each. *)

Definition xs_length (n : N) : Z := Z.of_N n + 2.

Definition digit (n : nat) : ascii := ascii_of_nat (48 + n).

(** The keys c00, c01, ... *)
Definition slot (i : nat) : string :=
  String "c" (String (digit (i / 10)) (String (digit (i mod 10)) EmptyString)).

(** The service right after construction, IndexedDB opened on an empty
    store, and the service whose [indexedDB.open] failed. *)
Definition opened : State N := initializeIndexedDB (Some ∅) 0 initial.
Definition memory_only : State N := initializeIndexedDB None 0 initial.

Definition every_request_fails : Faults :=
  {| putFails := true; getFails := true; deleteFails := true;
     clearFails := true; cursorFails := true; getAllFails := true |}.

Definition put_fails : Faults :=
  {| putFails := true; getFails := false; deleteFails := false;
     clearFails := false; cursorFails := false; getAllFails := false |}.

Definition get_fails : Faults :=
  {| putFails := false; getFails := true; deleteFails := false;
     clearFails := false; cursorFails := false; getAllFails := false |}.

Definition delete_fails : Faults :=
  {| putFails := false; getFails := false; deleteFails := true;
     clearFails := false; cursorFails := false; getAllFails := false |}.

(** Fifty entries of 1048575 bytes each, 50 bytes short of the ceiling:
    [a] and [b] were both read last at time 5, [a] twice and [b] once. *)
Definition fifty_entries : State N :=
  run xs_length
    ([OpSet 1 "a" (Some 1048573%N) DEFAULT_TTL "analysis";
      OpSet 2 "b" (Some 1048573%N) DEFAULT_TTL "analysis";
      OpGet 5 "a"; OpGet 5 "a"; OpGet 5 "b"]
     ++ List.map
          (fun i => OpSet (10 + Z.of_nat i) (slot i) (Some 1048573%N)
                          DEFAULT_TTL "analysis")
          (seq 0 48))
    opened.

(** The map [set("z", ...)] hands to [enforceMemoryLimit] at time 100. *)
Definition fifty_one_entries : State N :=
  with_memoryCache
    (map_set "z" (new_entry xs_length 100 "z" (Some 1048573%N) DEFAULT_TTL
                            "analysis")
             (memoryCache fifty_entries))
    fifty_entries.

(** A first session stores twenty payloads of 3 MiB, which go to the
    object store only; the page is then reloaded at time 100. *)
Definition first_session : State N :=
  run xs_length
    (List.map
       (fun i => OpSet (1 + Z.of_nat i) (slot i) (Some 3145728%N)
                       DEFAULT_TTL "analysis")
       (seq 0 20))
    opened.

Definition reloaded : State N :=
  initializeIndexedDB (db first_session) 100 initial.

(** A third session: the first one also stored a five-letter payload under
    [k]; on reload the twenty records that come first fill the memory map
    and [k] stays in the object store only. *)
Definition reloaded_with_k : State N :=
  initializeIndexedDB
    (db (step xs_length (OpSet 30 "k" (Some 5%N) DEFAULT_TTL "analysis")
              first_session))
    100 initial.

(** Fifty further entries of 1048575 bytes: once [a] has been set at time
    1, the last of these calls pushes the map over the ceiling and [a], the
    least recently used, is evicted. *)
Definition crowding_calls : list (Op N) :=
  OpSet 2 "b" (Some 1048573%N) DEFAULT_TTL "analysis"
  :: List.map
       (fun i => OpSet (10 + Z.of_nat i) (slot i) (Some 1048573%N)
                       DEFAULT_TTL "analysis")
       (seq 0 49).

(** An entry set at time 0 that expired at time 10. *)
Definition with_expired_k : State N :=
  step xs_length (OpSet 0 "k" (Some 5%N) 10 "analysis") opened.

(** * Vocabulary for cache keys *)

(** The polynomial hash the loop of [hashString] computes before wrapping:
    [c0 * 31^(n-1) + ... + c(n-1)]. *)
Definition poly31 (units : list Z) : Z :=
  fold_left (fun h c => 31 * h + c) units 0.

(** A character [0-9a-z]. *)
Definition is_digit36 (c : ascii) : bool :=
  let code := nat_of_ascii c in
  ((48 <=? code) && (code <=? 57) || (97 <=? code) && (code <=? 122))%nat.

Fixpoint all_chars (p : ascii -> bool) (s : string) : bool :=
  match s with
  | EmptyString => true
  | String c r => p c && all_chars p r
  end.

(** The value of a digit and of a numeral in base 36, most significant
    digit first, as [parseInt(s, 36)] reads them. *)
Definition val36 (c : ascii) : Z :=
  let code := Z.of_nat (nat_of_ascii c) in
  if code <? 58 then code - 48 else code - 87.

Fixpoint parse36 (s : string) (v : Z) : Z :=
  match s with
  | EmptyString => v
  | String c r => parse36 r (36 * v + val36 c)
  end.

(** The character does not occur in the string. *)
Fixpoint free_of (c : ascii) (s : string) : bool :=
  match s with
  | EmptyString => true
  | String a r => negb (Ascii.eqb a c) && free_of c r
  end.

(** * Vocabulary for reads *)

Section ReadVocabulary.
Context {T : Type}.

(** The entry a [get] is served from: the unexpired memory copy, or else
    the unexpired durable one. *)
Definition serving (now : Z) (k : string) (s : State T)
  : option (CacheEntry T) :=
  match unexpired now (map_get k (memoryCache s)) with
  | Some e => Some e
  | None => unexpired now (db_get k s)
  end.

Definition answer (o : option (CacheEntry T)) : option T :=
  match o with
  | Some e => data e
  | None => None
  end.

(** Every pair of the memory map sits under the [key] of its entry. *)
Definition keys_agree (m : MemoryMap T) : Prop :=
  forall p, In p m -> key (snd p) = fst p.

(** [accessCount * lastAccessed], what [loadMemoryCache] ranks by. *)
Definition score (e : CacheEntry T) : Z := accessCount e * lastAccessed e.

(** The keys of the two tiers, as sets. *)
Definition memory_keys (s : State T) : gset string :=
  list_to_set (List.map fst (memoryCache s)).

Definition durable_keys (s : State T) : gset string :=
  match db s with
  | Some store => dom store
  | None => ∅
  end.

(** The records [loadMemoryCache] chooses from: those of the store that
    are still unexpired. *)
Definition unexpired_records (now : Z) (store : ObjectStore T)
  : list (CacheEntry T) :=
  List.filter (fun entry => expiration entry >? now) (getAll store).
End ReadVocabulary.

(** ** Further sample states *)

Definition clear_fails : Faults :=
  {| putFails := false; getFails := false; deleteFails := false;
     clearFails := true; cursorFails := false; getAllFails := false |}.

(** The record [set("k", "xxxxx", 10)] writes at time 0, and the store
    holding it. *)
Definition k_record : CacheEntry N :=
  new_entry xs_length 0 "k" (Some 5%N) 10 "analysis".

Definition k_store : ObjectStore N := <["k" := k_record]> ∅.

(** [k] set at time 0 to expire at 10 and [j] set at time 1 to expire at
    1001, with the store open and with no store. *)
Definition k_and_j : State N :=
  step xs_length (OpSet 1 "j" (Some 7%N) 1000 "analysis") with_expired_k.

Definition memory_k_and_j : State N :=
  run xs_length
    [OpSet 0 "k" (Some 5%N) 10 "analysis";
     OpSet 1 "j" (Some 7%N) 1000 "analysis"]
    memory_only.

(** * Facts about the building blocks *)

(** ** Stable sort keyed by an integer *)

Section SortFacts.
Context {A : Type} (f : A -> Z).

Lemma insert_sorted_perm x l :
  Permutation (insert_sorted (le_by f) x l) (x :: l).
Proof.
  induction l as [|y r IH]; simpl; [reflexivity|].
  destruct ((le_by f) x y); [reflexivity|].
  rewrite IH. apply perm_swap.
Qed.

Lemma stable_sort_perm l : Permutation (stable_sort (le_by f) l) l.
Proof.
  induction l as [|x r IH]; simpl; [reflexivity|].
  rewrite insert_sorted_perm. now constructor.
Qed.

Lemma insert_sorted_sorted x l :
  StronglySorted (ascending f) l ->
  StronglySorted (ascending f) (insert_sorted (le_by f) x l).
Proof.
  induction 1 as [|y r Hr IH Hy]; simpl.
  - repeat constructor.
  - unfold le_by. destruct (Z.leb_spec (f x) (f y)) as [Hxy|Hxy].
    + constructor; [now constructor|].
      constructor; [exact Hxy|].
      eapply List.Forall_impl; [|exact Hy].
      unfold ascending. intros; lia.
    + constructor; [exact IH|].
      rewrite (insert_sorted_perm x r).
      constructor; [unfold ascending; lia | exact Hy].
Qed.

Lemma stable_sort_sorted l : StronglySorted (ascending f) (stable_sort (le_by f) l).
Proof.
  induction l; simpl; [constructor | now apply insert_sorted_sorted].
Qed.

(** Stability: the elements with a given sort key come out in the order
    they went in. *)
Lemma insert_sorted_stable t x l :
  StronglySorted (ascending f) l ->
  List.filter (fun a => f a =? t) (insert_sorted (le_by f) x l)
  = List.filter (fun a => f a =? t) (x :: l).
Proof.
  induction 1 as [|y r Hr IH Hy]; [reflexivity|].
  cbn [insert_sorted].
  destruct ((le_by f) x y) eqn:Hxy; [reflexivity|].
  unfold le_by in Hxy. apply Z.leb_gt in Hxy.
  cbn [List.filter]. rewrite IH. cbn [List.filter].
  destruct (Z.eqb_spec (f y) t) as [Hy'|Hy'];
    destruct (Z.eqb_spec (f x) t) as [Hx'|Hx']; try reflexivity.
  lia.
Qed.

Lemma stable_sort_stable t l :
  List.filter (fun a => f a =? t) (stable_sort (le_by f) l)
  = List.filter (fun a => f a =? t) l.
Proof.
  induction l as [|x r IH]; [reflexivity|].
  cbn [stable_sort].
  rewrite insert_sorted_stable by apply stable_sort_sorted.
  cbn [List.filter]. now rewrite IH.
Qed.

Lemma insert_sorted_last y l x :
  f y <= f x ->
  insert_sorted (le_by f) y (l ++ [x]) = insert_sorted (le_by f) y l ++ [x].
Proof.
  intros Hyx. induction l as [|z r IH]; simpl.
  - unfold le_by. destruct (Z.leb_spec (f y) (f x)); [reflexivity | lia].
  - destruct ((le_by f) y z); [reflexivity|]. now rewrite IH.
Qed.

(** An element appended last that no earlier element exceeds stays last. *)
Lemma stable_sort_last l x :
  Forall (fun y => f y <= f x) l ->
  stable_sort (le_by f) (l ++ [x]) = stable_sort (le_by f) l ++ [x].
Proof.
  induction 1 as [|y r Hy Hr IH]; [reflexivity|].
  simpl. rewrite IH. now apply insert_sorted_last.
Qed.
End SortFacts.

(** ** The memory map *)

Section MapFacts.
Context {T : Type}.
Implicit Types (m : MemoryMap T) (e : CacheEntry T) (k : string).

Lemma map_get_set_eq k e m : map_get k (map_set k e m) = Some e.
Proof.
  induction m as [|[k' e'] r IH]; simpl.
  - now rewrite String.eqb_refl.
  - destruct (String.eqb_spec k' k) as [->|Hne]; simpl.
    + now rewrite String.eqb_refl.
    + destruct (String.eqb_spec k' k); [contradiction | exact IH].
Qed.

Lemma map_get_set_ne k k' e m :
  k <> k' -> map_get k' (map_set k e m) = map_get k' m.
Proof.
  intros Hne. induction m as [|[k1 e1] r IH]; simpl.
  - destruct (String.eqb_spec k k'); [contradiction | reflexivity].
  - destruct (String.eqb_spec k1 k) as [->|H1]; simpl.
    + destruct (String.eqb_spec k k'); [contradiction | reflexivity].
    + now rewrite IH.
Qed.

Lemma map_get_delete_eq k m : map_get k (map_delete k m) = None.
Proof.
  induction m as [|[k' e'] r IH]; simpl; [reflexivity|].
  destruct (String.eqb_spec k' k) as [->|Hne]; simpl; [exact IH|].
  destruct (String.eqb_spec k' k); [contradiction | exact IH].
Qed.

Lemma map_get_delete_ne k k' m :
  k <> k' -> map_get k' (map_delete k m) = map_get k' m.
Proof.
  intros Hne. induction m as [|[k1 e1] r IH]; simpl; [reflexivity|].
  destruct (String.eqb_spec k1 k) as [->|H1]; simpl.
  - destruct (String.eqb_spec k k'); [contradiction | exact IH].
  - now rewrite IH.
Qed.

(** Deleting can only hide an entry, never change it. *)
Lemma map_get_delete_sub k k' m :
  map_get k' (map_delete k m) = None
  \/ map_get k' (map_delete k m) = map_get k' m.
Proof.
  destruct (String.eqb_spec k k') as [->|Hne].
  - left. apply map_get_delete_eq.
  - right. now apply map_get_delete_ne.
Qed.

Lemma map_delete_idem k m : map_delete k (map_delete k m) = map_delete k m.
Proof.
  induction m as [|[k' e'] r IH]; simpl; [reflexivity|].
  destruct (String.eqb_spec k' k) as [->|Hne]; simpl; [exact IH|].
  destruct (String.eqb_spec k' k); [contradiction | now rewrite IH].
Qed.

Lemma map_delete_In k p m : In p (map_delete k m) -> In p m /\ fst p <> k.
Proof.
  induction m as [|[k' e'] r IH]; simpl; [tauto|].
  destruct (String.eqb_spec k' k) as [->|Hne]; simpl.
  - intros H. destruct (IH H). auto.
  - intros [<-|H]; [auto|]. destruct (IH H). auto.
Qed.


Lemma map_set_In k e p m : In p (map_set k e m) -> p = (k, e) \/ In p m.
Proof.
  induction m as [|[k' e'] r IH]; simpl.
  - intros [<-|[]]. now left.
  - destruct (String.eqb_spec k' k) as [->|Hne]; simpl.
    + intros [<-|H]; auto.
    + intros [<-|H]; auto. destruct (IH H); auto.
Qed.

Lemma map_get_In k e m : map_get k m = Some e -> In (k, e) m.
Proof.
  induction m as [|[k' e'] r IH]; simpl; [discriminate|].
  destruct (String.eqb_spec k' k) as [->|Hne].
  - intros [= ->]. now left.
  - auto.
Qed.

Lemma map_get_None k m :
  map_get k m = None -> forall p, In p m -> fst p <> k.
Proof.
  induction m as [|[k' e'] r IH]; simpl; [tauto|].
  destruct (String.eqb_spec k' k) as [->|Hne]; [discriminate|].
  intros H p [<-|Hp]; [exact Hne | now apply IH].
Qed.

(** A key the map does not hold is appended at the end. *)
Lemma map_set_fresh k e m :
  map_get k m = None -> map_set k e m = m ++ [(k, e)].
Proof.
  induction m as [|[k' e'] r IH]; simpl; [reflexivity|].
  destruct (String.eqb_spec k' k) as [->|Hne]; [discriminate|].
  intros H. now rewrite IH.
Qed.

Lemma map_set_keys k e m :
  map_get k m <> None -> List.map fst (map_set k e m) = List.map fst m.
Proof.
  induction m as [|[k' e'] r IH]; simpl; [congruence|].
  destruct (String.eqb_spec k' k) as [->|Hne]; simpl; [reflexivity|].
  intros H. now rewrite IH.
Qed.


(** ** Resident size *)

Lemma usage_acc (l : list (CacheEntry T)) a :
  fold_left (fun total entry => total + size (metadata entry)) l a
  = a + fold_left (fun total entry => total + size (metadata entry)) l 0.
Proof.
  revert a. induction l as [|x r IH]; intros a; simpl; [lia|].
  rewrite (IH (a + _)), (IH (0 + _)). lia.
Qed.

Lemma calculateMemoryUsage_cons k e m :
  calculateMemoryUsage ((k, e) :: m)
  = size (metadata e) + calculateMemoryUsage m.
Proof.
  unfold calculateMemoryUsage. simpl. now rewrite usage_acc.
Qed.


Lemma usage_delete_le k m :
  sizes_nonneg m ->
  calculateMemoryUsage (map_delete k m) <= calculateMemoryUsage m.
Proof.
  induction m as [|[k' e'] r IH]; intros Hm; simpl; [lia|].
  assert (Hr : sizes_nonneg r) by (intros p Hp; apply Hm; now right).
  assert (He : 0 <= size (metadata e')) by (apply (Hm (k', e')); now left).
  specialize (IH Hr).
  destruct (String.eqb k' k); rewrite !calculateMemoryUsage_cons; lia.
Qed.

Lemma sizes_nonneg_delete k m : sizes_nonneg m -> sizes_nonneg (map_delete k m).
Proof. intros H p Hp. apply H. now apply (map_delete_In k). Qed.

Lemma sizes_nonneg_set k e m :
  0 <= size (metadata e) -> sizes_nonneg m -> sizes_nonneg (map_set k e m).
Proof.
  intros He H p Hp. destruct (map_set_In _ _ _ _ Hp) as [->|Hin]; auto.
Qed.

(** ** The eviction loop *)

Lemma evict_sub es m k :
  map_get k (evict es m) = None \/ map_get k (evict es m) = map_get k m.
Proof.
  revert m. induction es as [|[k' e'] rest IH]; intros m; simpl; [now right|].
  destruct (calculateMemoryUsage m >? maxSize); [|now right].
  destruct (IH (map_delete k' m)) as [H|H]; [now left|].
  rewrite H. apply map_get_delete_sub.
Qed.

Lemma evict_In es m p : In p (evict es m) -> In p m.
Proof.
  revert m. induction es as [|[k' e'] rest IH]; intros m; simpl; [auto|].
  destruct (calculateMemoryUsage m >? maxSize); [|auto].
  intros H. apply IH in H. now apply map_delete_In in H.
Qed.

(** When the snapshot lists every key of the live map, the loop ends at or
    below the ceiling: either it stops early, or the map is empty. *)
Lemma evict_bound es m :
  (forall p, In p m -> In (fst p) (List.map fst es)) ->
  calculateMemoryUsage (evict es m) <= maxSize.
Proof.
  revert m. induction es as [|[k' e'] rest IH]; intros m Hkeys; simpl.
  - destruct m as [|p r]; [vm_compute; discriminate|].
    destruct (Hkeys p); now left.
  - destruct (Z.gtb_spec (calculateMemoryUsage m) maxSize) as [Hgt|Hle];
      [|exact Hle].
    apply IH. intros p Hp. apply map_delete_In in Hp as [Hp Hne].
    destruct (Hkeys p Hp) as [Heq|Hin]; [|exact Hin].
    simpl in Heq. congruence.
Qed.
End MapFacts.

Section EvictionFacts.
Context {T : Type}.
Implicit Types (m : MemoryMap T) (e : CacheEntry T) (k : string)
  (s : State T).

Lemma NoDup_map_delete k m :
  List.NoDup (List.map fst m) -> List.NoDup (List.map fst (map_delete k m)).
Proof.
  induction m as [|[k' e'] r IH]; simpl; [auto|].
  intros H. apply List.NoDup_cons_iff in H as [Hnotin Hr].
  destruct (String.eqb_spec k' k); [auto|].
  simpl. apply List.NoDup_cons_iff. split; [|auto].
  intros Hin. apply Hnotin.
  apply in_map_iff in Hin as [p [Hp1 Hp2]].
  apply map_delete_In in Hp2 as [Hp2 _].
  apply in_map_iff. eauto.
Qed.

Lemma delete_keys_cons k ks m :
  delete_keys (k :: ks) m = delete_keys ks (map_delete k m).
Proof. reflexivity. Qed.

Lemma delete_keys_sub ks m k :
  map_get k (delete_keys ks m) = None
  \/ map_get k (delete_keys ks m) = map_get k m.
Proof.
  revert m. induction ks as [|k' r IH]; intros m; [now right|].
  rewrite delete_keys_cons.
  destruct (IH (map_delete k' m)) as [H|H]; [now left|].
  rewrite H. apply map_get_delete_sub.
Qed.

Lemma delete_keys_gone ks m k :
  In k ks -> map_get k (delete_keys ks m) = None.
Proof.
  revert m. induction ks as [|k' r IH]; intros m; [intros []|].
  rewrite delete_keys_cons. intros [->|Hin]; [|now apply IH].
  destruct (delete_keys_sub r (map_delete k m) k) as [H|H]; [exact H|].
  rewrite H. apply map_get_delete_eq.
Qed.


Lemma delete_keys_In ks m p : In p (delete_keys ks m) -> In p m.
Proof.
  revert m. induction ks as [|k' r IH]; intros m; [auto|].
  rewrite delete_keys_cons. intros H. apply IH in H.
  now apply map_delete_In in H.
Qed.

(** The loop removes the keys of a prefix of the snapshot, and every
    shorter prefix leaves the map above the ceiling. *)
Lemma evict_prefix es m :
  exists n,
    (n <= length es)%nat
    /\ evict es m = delete_keys (List.map fst (firstn n es)) m
    /\ forall j, (j < n)%nat ->
         calculateMemoryUsage
           (delete_keys (List.map fst (firstn j es)) m) > maxSize.
Proof.
  revert m. induction es as [|[k e] rest IH]; intros m.
  - exists 0%nat. repeat split; [simpl; lia | lia].
  - simpl. destruct (Z.gtb_spec (calculateMemoryUsage m) maxSize) as [Hgt|Hle].
    + destruct (IH (map_delete k m)) as [n [Hn [Heq Hmin]]].
      exists (S n). split; [simpl; lia|]. split; [exact Heq|].
      intros [|j] Hj; [simpl; lia|].
      simpl. apply Hmin. lia.
    + exists 0%nat. repeat split; [lia | lia].
Qed.

Lemma enforceMemoryLimit_db s : db (enforceMemoryLimit s) = db s.
Proof.
  unfold enforceMemoryLimit.
  now destruct (calculateMemoryUsage (memoryCache s) >? maxSize).
Qed.

Lemma enforceMemoryLimit_hitCount s :
  hitCount (enforceMemoryLimit s) = hitCount s.
Proof.
  unfold enforceMemoryLimit.
  now destruct (calculateMemoryUsage (memoryCache s) >? maxSize).
Qed.

Lemma enforceMemoryLimit_missCount s :
  missCount (enforceMemoryLimit s) = missCount s.
Proof.
  unfold enforceMemoryLimit.
  now destruct (calculateMemoryUsage (memoryCache s) >? maxSize).
Qed.

Lemma enforceMemoryLimit_stats s :
  statsSubject (enforceMemoryLimit s) = statsSubject s.
Proof.
  unfold enforceMemoryLimit.
  now destruct (calculateMemoryUsage (memoryCache s) >? maxSize).
Qed.

Lemma enforceMemoryLimit_sub s k :
  map_get k (memoryCache (enforceMemoryLimit s)) = None
  \/ map_get k (memoryCache (enforceMemoryLimit s))
     = map_get k (memoryCache s).
Proof.
  unfold enforceMemoryLimit.
  destruct (calculateMemoryUsage (memoryCache s) >? maxSize); [|now right].
  apply evict_sub.
Qed.

Lemma enforceMemoryLimit_In s p :
  In p (memoryCache (enforceMemoryLimit s)) -> In p (memoryCache s).
Proof.
  unfold enforceMemoryLimit.
  destruct (calculateMemoryUsage (memoryCache s) >? maxSize); [|auto].
  apply evict_In.
Qed.

Lemma by_lastAccessed_le_by :
  @by_lastAccessed T = le_by (fun p => lastAccessed (snd p)).
Proof. reflexivity. Qed.

(** Whatever the map held, it is at or below the ceiling afterwards. *)
Lemma enforceMemoryLimit_bound s :
  calculateMemoryUsage (memoryCache (enforceMemoryLimit s)) <= maxSize.
Proof.
  unfold enforceMemoryLimit.
  destruct (Z.gtb_spec (calculateMemoryUsage (memoryCache s)) maxSize)
    as [Hgt|Hle]; [|exact Hle].
  apply evict_bound. intros p Hp. apply in_map.
  rewrite by_lastAccessed_le_by.
  eapply Permutation_in; [symmetry; apply stable_sort_perm | exact Hp].
Qed.

(** The entry at the end of the snapshot outlives the loop when it fits
    under the ceiling on its own. *)
Lemma evict_keeps_last l1 k e0 e m :
  List.NoDup (List.map fst m) ->
  map_get k m = Some e ->
  size (metadata e) <= maxSize ->
  (forall p, In p m -> In (fst p) (List.map fst (l1 ++ [(k, e0)]))) ->
  ~ In k (List.map fst l1) ->
  map_get k (evict (l1 ++ [(k, e0)]) m) = Some e.
Proof.
  revert m. induction l1 as [|[k1 e1] l1 IH]; intros m Hnd Hget Hsz Hkeys Hk.
  - simpl. destruct (Z.gtb_spec (calculateMemoryUsage m) maxSize) as [Hgt|Hle];
      [exfalso | exact Hget].
    destruct m as [|[k1 e1] r]; [discriminate|].
    assert (k1 = k) as ->.
    { destruct (Hkeys (k1, e1)) as [H|[]]; [now left | now symmetry]. }
    simpl in Hget. rewrite String.eqb_refl in Hget. injection Hget as ->.
    destruct r as [|[k2 e2] r].
    + rewrite calculateMemoryUsage_cons in Hgt.
      change (calculateMemoryUsage (@nil (string * CacheEntry T))) with 0 in Hgt.
      lia.
    + assert (k2 = k) as ->.
      { destruct (Hkeys (k2, e2)) as [H|[]];
          [right; now left | now symmetry]. }
      simpl in Hnd. apply List.NoDup_cons_iff in Hnd as [Hnotin _].
      apply Hnotin. now left.
  - simpl. destruct (Z.gtb_spec (calculateMemoryUsage m) maxSize) as [Hgt|Hle];
      [|exact Hget].
    assert (Hne : k1 <> k) by (intros ->; apply Hk; now left).
    apply IH.
    + now apply NoDup_map_delete.
    + now rewrite map_get_delete_ne.
    + exact Hsz.
    + intros p Hp. apply map_delete_In in Hp as [Hp Hp'].
      destruct (Hkeys p Hp) as [H|H]; [simpl in H; congruence | exact H].
    + intros H. apply Hk. now right.
Qed.

Lemma keys_of_sorted m p :
  In p m ->
  In (fst p) (List.map fst (stable_sort by_lastAccessed m)).
Proof.
  intros Hp. apply in_map. rewrite by_lastAccessed_le_by.
  eapply Permutation_in; [symmetry; apply stable_sort_perm | exact Hp].
Qed.

(** An entry just appended, with no earlier entry accessed later than it,
    survives [enforceMemoryLimit]. *)
Lemma enforceMemoryLimit_keeps_appended s m0 k e :
  memoryCache s = m0 ++ [(k, e)] ->
  List.NoDup (List.map fst (m0 ++ [(k, e)])) ->
  Forall (fun p => lastAccessed (snd p) <= lastAccessed e) m0 ->
  size (metadata e) <= maxSize ->
  map_get k (memoryCache (enforceMemoryLimit s)) = Some e.
Proof.
  intros Hm Hnd Hla Hsz.
  assert (Hk : ~ In k (List.map fst m0)).
  { rewrite List.map_app in Hnd. simpl in Hnd.
    apply List.NoDup_remove_2 in Hnd. rewrite app_nil_r in Hnd. exact Hnd. }
  assert (Hget : map_get k (m0 ++ [(k, e)]) = Some e).
  { clear -Hk. induction m0 as [|[k' e'] r IH]; simpl.
    - now rewrite String.eqb_refl.
    - destruct (String.eqb_spec k' k) as [->|Hne].
      + exfalso. apply Hk. now left.
      + apply IH. intros H. apply Hk. now right. }
  unfold enforceMemoryLimit. rewrite Hm.
  destruct (calculateMemoryUsage (m0 ++ [(k, e)]) >? maxSize);
    [|now rewrite Hm].
  cbn [memoryCache with_memoryCache].
  rewrite by_lastAccessed_le_by.
  rewrite (stable_sort_last (fun p => lastAccessed (snd p)) m0 (k, e))
    by exact Hla.
  apply evict_keeps_last; auto.
  - intros p Hp. rewrite List.map_app. apply in_or_app.
    apply in_app_or in Hp as [Hp|[<-|[]]]; [left | right; now left].
    apply in_map.
    eapply Permutation_in; [symmetry; apply stable_sort_perm | exact Hp].
  - intros H. apply Hk.
    eapply Permutation_in; [|exact H].
    apply Permutation_map, stable_sort_perm.
Qed.
End EvictionFacts.

(** * Eviction *)

Section Eviction.
Context {T : Type}.
Implicit Types (m : MemoryMap T) (e : CacheEntry T) (k : string)
  (s : State T).

Lemma StronglySorted_after {A} (R : A -> A -> Prop) l1 x l2 :
  StronglySorted R (l1 ++ x :: l2) -> Forall (R x) l2.
Proof.
  induction l1 as [|y l1 IH]; simpl; intros H.
  - now apply StronglySorted_inv in H as [_ H].
  - apply StronglySorted_inv in H as [H _]. auto.
Qed.

(** The strictly most recent entry is the last of the sorted snapshot. *)
Lemma newest_is_last m k e :
  List.NoDup (List.map fst m) ->
  In (k, e) m ->
  (forall p, In p m -> fst p <> k ->
             lastAccessed (snd p) < lastAccessed e) ->
  exists l1, stable_sort by_lastAccessed m = l1 ++ [(k, e)]
             /\ ~ In k (List.map fst l1).
Proof.
  intros Hnd Hin Hnew. rewrite by_lastAccessed_le_by.
  set (f := fun p : string * CacheEntry T => lastAccessed (snd p)).
  pose proof (stable_sort_perm f m) as Hperm.
  pose proof (stable_sort_sorted f m) as Hsorted.
  assert (Hin' : In (k, e) (stable_sort (le_by f) m))
    by (eapply Permutation_in; [symmetry; exact Hperm | exact Hin]).
  apply in_split in Hin' as [l1 [l2 Heq]].
  rewrite Heq in Hperm, Hsorted |- *.
  assert (Hnd' : List.NoDup (List.map fst (l1 ++ (k, e) :: l2))).
  { eapply Permutation_NoDup; [|exact Hnd].
    apply Permutation_map. symmetry. exact Hperm. }
  rewrite List.map_app in Hnd'. simpl in Hnd'.
  pose proof (List.NoDup_remove_2 _ _ _ Hnd') as Hk.
  destruct l2 as [|p l2].
  - exists l1. split; [reflexivity|].
    intros H. apply Hk. apply in_or_app. now left.
  - exfalso.
    apply StronglySorted_after in Hsorted.
    apply List.Forall_inv in Hsorted. unfold ascending, f in Hsorted.
    simpl in Hsorted.
    assert (Hp : In p m).
    { eapply Permutation_in; [exact Hperm|].
      apply in_or_app. right. right. now left. }
    assert (Hne : fst p <> k).
    { intros Heqk. apply Hk. apply in_or_app. right. left. exact Heqk. }
    specialize (Hnew p Hp Hne). lia.
Qed.

(** The entry accessed strictly last survives [enforceMemoryLimit],
    wherever it sits in the map. *)
Lemma enforceMemoryLimit_keeps_newest s k e :
  List.NoDup (List.map fst (memoryCache s)) ->
  map_get k (memoryCache s) = Some e ->
  (forall p, In p (memoryCache s) -> fst p <> k ->
             lastAccessed (snd p) < lastAccessed e) ->
  size (metadata e) <= maxSize ->
  map_get k (memoryCache (enforceMemoryLimit s)) = Some e.
Proof.
  intros Hnd Hget Hnew Hsz.
  unfold enforceMemoryLimit.
  destruct (calculateMemoryUsage (memoryCache s) >? maxSize); [|exact Hget].
  cbn [memoryCache with_memoryCache].
  destruct (newest_is_last _ _ _ Hnd (map_get_In _ _ _ Hget) Hnew)
    as [l1 [Heq Hk]].
  pose proof (keys_of_sorted (memoryCache s)) as Hkeys.
  rewrite Heq in Hkeys |- *.
  now apply evict_keeps_last.
Qed.

(** C4 (as amended): [enforceMemoryLimit] walks the memory entries sorted
    by ascending [lastAccessed], entries with equal [lastAccessed] in the
    order the map holds them ([accessCount] plays no part); it deletes the
    keys of a prefix of that list, every shorter prefix leaves the resident
    size above the ceiling, the result is at or below the ceiling, and the
    durable store is not touched. *)
Theorem C4_eviction_is_stable_lru s :
  exists victims rest,
    Permutation (victims ++ rest) (memoryCache s)
    /\ StronglySorted
         (fun a b => lastAccessed (snd a) <= lastAccessed (snd b))
         (victims ++ rest)
    /\ (forall t,
           List.filter (fun p => lastAccessed (snd p) =? t) (victims ++ rest)
           = List.filter (fun p => lastAccessed (snd p) =? t) (memoryCache s))
    /\ memoryCache (enforceMemoryLimit s)
       = delete_keys (List.map fst victims) (memoryCache s)
    /\ (forall j, (j < length victims)%nat ->
          calculateMemoryUsage
            (delete_keys (List.map fst (firstn j victims)) (memoryCache s))
          > maxSize)
    /\ calculateMemoryUsage (memoryCache (enforceMemoryLimit s)) <= maxSize
    /\ db (enforceMemoryLimit s) = db s.
Proof.
  set (f := fun p : string * CacheEntry T => lastAccessed (snd p)).
  set (sorted := stable_sort by_lastAccessed (memoryCache s)).
  assert (Hperm : Permutation sorted (memoryCache s))
    by apply (stable_sort_perm f).
  assert (Hsorted : StronglySorted (ascending f) sorted)
    by apply (stable_sort_sorted f).
  assert (Hstable : forall t,
             List.filter (fun p => f p =? t) sorted
             = List.filter (fun p => f p =? t) (memoryCache s))
    by (intros t; apply (stable_sort_stable f)).
  destruct (Z.gtb_spec (calculateMemoryUsage (memoryCache s)) maxSize)
    as [Hgt|Hle].
  - destruct (evict_prefix sorted (memoryCache s)) as [n [Hn [Heq Hmin]]].
    exists (firstn n sorted), (skipn n sorted).
    rewrite firstn_skipn.
    assert (Hmem : memoryCache (enforceMemoryLimit s)
                   = evict sorted (memoryCache s)).
    { unfold enforceMemoryLimit.
      destruct (Z.gtb_spec (calculateMemoryUsage (memoryCache s)) maxSize);
        [reflexivity | lia]. }
    repeat split; auto.
    + now rewrite Hmem.
    + intros j Hj. rewrite length_firstn in Hj.
      rewrite firstn_firstn.
      replace (Init.Nat.min j n) with j by lia.
      apply Hmin. lia.
    + apply enforceMemoryLimit_bound.
    + apply enforceMemoryLimit_db.
  - exists [], sorted. simpl.
    assert (Hmem : enforceMemoryLimit s = s).
    { unfold enforceMemoryLimit.
      destruct (Z.gtb_spec (calculateMemoryUsage (memoryCache s)) maxSize);
        [lia | reflexivity]. }
    rewrite Hmem. repeat split; auto. intros j Hj. lia.
Qed.
End Eviction.

(** * What [updateStats] leaves alone *)

Section UpdateStatsFrame.
Context {T : Type}.
Implicit Types (s : State T) (f : Faults).

Lemma updateStats_db f s : db (updateStats f s) = db s.
Proof. unfold updateStats. destruct (db s) eqn:E; simpl; congruence. Qed.

Lemma updateStats_memoryCache f s :
  memoryCache (updateStats f s) = memoryCache s.
Proof. unfold updateStats. destruct (db s) eqn:E; simpl; congruence. Qed.

Lemma updateStats_hitCount f s : hitCount (updateStats f s) = hitCount s.
Proof. unfold updateStats. destruct (db s) eqn:E; simpl; congruence. Qed.

Lemma updateStats_missCount f s :
  missCount (updateStats f s) = missCount s.
Proof. unfold updateStats. destruct (db s) eqn:E; simpl; congruence. Qed.

(** A resumed [updateStats] reads the counters and the memory map, and
    nothing else of the service. *)
Lemma publish_ext (c : StatsCapture) s s' :
  hitCount s = hitCount s' -> missCount s = missCount s' ->
  memoryCache s = memoryCache s' ->
  publish c s = publish c s'.
Proof. intros Hh Hm Hmem. unfold publish. now rewrite Hh, Hm, Hmem. Qed.

Lemma resume_tiers s :
  db (resume s) = db s
  /\ memoryCache (resume s) = memoryCache s
  /\ hitCount (resume s) = hitCount s
  /\ missCount (resume s) = missCount s.
Proof. unfold resume. destruct (pendingStats s); repeat split. Qed.

Lemma settle_cons (c : StatsCapture) rest s :
  pendingStats s = c :: rest -> settle s = settle (resume s).
Proof.
  intros Hp.
  assert (Hrest : pendingStats (resume s) = rest).
  { unfold resume. now rewrite Hp. }
  unfold settle. rewrite Hrest, Hp. reflexivity.
Qed.

(** Once every waiting call has resumed, the snapshot is the one of the
    call that was started last, computed from the service as it is. *)
Lemma settle_spec s :
  settle s
  = with_pendingStats []
      (with_stats
         (fold_left (fun _ c => publish c s) (pendingStats s)
                    (statsSubject s)) s).
Proof.
  remember (pendingStats s) as l eqn:Hl. revert s Hl.
  induction l as [|c rest IH]; intros s Hl.
  - unfold settle. rewrite <- Hl. destruct s; simpl in *. now subst.
  - rewrite (settle_cons c rest s) by auto.
    assert (Hrest : rest = pendingStats (resume s)).
    { unfold resume. now rewrite <- Hl. }
    rewrite (IH (resume s) Hrest). cbn [fold_left].
    unfold resume. rewrite <- Hl.
    unfold with_pendingStats, with_stats; cbn.
    f_equal.
Qed.

Lemma enforceMemoryLimit_pendingStats s :
  pendingStats (enforceMemoryLimit s) = pendingStats s.
Proof.
  unfold enforceMemoryLimit.
  now destruct (calculateMemoryUsage (memoryCache s) >? maxSize).
Qed.

(** With no store [updateStats] publishes before it returns; with the
    store open it publishes nothing yet and waits. *)
Lemma updateStats_without_store f s :
  db s = None ->
  statsSubject (updateStats f s) = publish (capture f s) s
  /\ pendingStats (updateStats f s) = pendingStats s.
Proof. intros Hdb. unfold updateStats. rewrite Hdb. now split. Qed.

Lemma updateStats_with_store f s :
  db s <> None ->
  statsSubject (updateStats f s) = statsSubject s
  /\ pendingStats (updateStats f s) = pendingStats s ++ [capture f s].
Proof.
  intros Hdb. unfold updateStats.
  destruct (db s); [now split | congruence].
Qed.

Lemma capture_updateStats f f' s :
  capture f (updateStats f' s) = capture f s.
Proof.
  unfold capture. now rewrite updateStats_db, updateStats_memoryCache.
Qed.

Lemma settle_hitRate s :
  pendingStats s <> [] ->
  hitRate (statsSubject (settle s))
  = percentage (hitCount s) (hitCount s + missCount s).
Proof.
  intros Hp. rewrite settle_spec. cbn [statsSubject with_stats
                                        with_pendingStats].
  destruct (exists_last Hp) as [l [c ->]].
  now rewrite fold_left_app.
Qed.
End UpdateStatsFrame.

(** * The public operations, one call at a time *)

Ltac unfold_ops :=
  unfold set, get, has, delete, clear, cleanup, await, resolve,
    setInIndexedDB, getFromIndexedDB, deleteFromIndexedDB, clearIndexedDB,
    cleanupIndexedDB in *.

Ltac cbn_state :=
  cbn [db memoryCache hitCount missCount statsSubject pendingStats with_db
       with_memoryCache with_hitCount with_missCount with_stats
       with_pendingStats
       putFails getFails deleteFails clearFails cursorFails getAllFails
       no_faults fst snd key data timestamp expiration accessCount
       lastAccessed metadata size type version] in *.

Ltac simpl_state :=
  cbn_state;
  repeat (progress (rewrite ?updateStats_db, ?updateStats_memoryCache,
                      ?updateStats_hitCount, ?updateStats_missCount in *);
          cbn_state).

Ltac case_db s :=
  let Hdb := fresh "Hdb" in
  destruct (db s) eqn:Hdb; simpl_state;
  repeat (progress (rewrite ?enforceMemoryLimit_db,
                      ?enforceMemoryLimit_hitCount,
                      ?enforceMemoryLimit_missCount,
                      ?enforceMemoryLimit_stats);
          simpl_state);
  rewrite ?Hdb; simpl_state.

Section Operations.
Context {T : Type} (jsonByteLength : T -> Z).
Implicit Types (m : MemoryMap T) (e : CacheEntry T) (k : string)
  (s : State T) (f : Faults).

Lemma unexpired_Some now o e :
  unexpired now o = Some e <-> o = Some e /\ now < expiration e.
Proof.
  unfold unexpired. destruct o as [e'|]; [|split; [discriminate | tauto]].
  destruct (Z.gtb_spec (expiration e') now) as [Hgt|Hle]; split.
  - intros [= ->]. split; [reflexivity | lia].
  - now intros [[= ->] _].
  - discriminate.
  - intros [[= ->] H]. lia.
Qed.

Lemma unexpired_None now o :
  unexpired now o = None <-> forall e, o = Some e -> expiration e <= now.
Proof.
  unfold unexpired. destruct o as [e'|]; [|split; [discriminate | tauto]].
  destruct (Z.gtb_spec (expiration e') now) as [Hgt|Hle]; split; try tauto.
  - discriminate.
  - intros H. specialize (H e' eq_refl). lia.
  - intros _ e [= <-]. lia.
Qed.

(** ** [get] *)

Lemma get_memory_hit f now k s e :
  unexpired now (map_get k (memoryCache s)) = Some e ->
  get f now k s
  = (Resolved (data e),
     with_hitCount (hitCount s + 1)
       (with_memoryCache (map_set k (touch now e) (memoryCache s)) s)).
Proof. intros H. unfold get. now rewrite H. Qed.

Lemma get_miss now k s :
  unexpired now (map_get k (memoryCache s)) = None ->
  unexpired now (db_get k s) = None ->
  get no_faults now k s
  = (Resolved None, with_missCount (missCount s + 1) s).
Proof.
  intros Hm Hd. unfold get. rewrite Hm. unfold db_get in Hd.
  unfold_ops. destruct (db s) as [store|]; simpl_state.
  - now rewrite Hd.
  - reflexivity.
Qed.

Lemma get_db_hit now k s e0 :
  unexpired now (map_get k (memoryCache s)) = None ->
  unexpired now (db_get k s) = Some e0 ->
  get no_faults now k s = (Resolved (data e0), after_db_hit now k e0 s).
Proof.
  intros Hm Hd. unfold get. rewrite Hm. unfold db_get in Hd.
  unfold after_db_hit. unfold_ops.
  destruct (db s) as [store|] eqn:Hdb; simpl_state; [|discriminate].
  rewrite Hd.
  destruct ((accessCount (touch now e0) >? 2)
            && (size (metadata (touch now e0)) <? 1024 * 1024)).
  - rewrite enforceMemoryLimit_db. simpl_state. rewrite Hdb. reflexivity.
  - rewrite Hdb. reflexivity.
Qed.


(** ** [cleanup] *)

Lemma cleanup_memoryCache now nowDb s :
  memoryCache (snd (cleanup no_faults now nowDb s))
  = delete_keys (expired_keys now (memoryCache s)) (memoryCache s).
Proof. destruct s as [[store|] m h mi st pd]; reflexivity. Qed.

Lemma cleanup_db now nowDb s :
  db (snd (cleanup no_faults now nowDb s))
  = option_map
      (fun store : ObjectStore T =>
         base.filter (fun p => ~ (expiration (snd p) <= nowDb)) store)
      (db s).
Proof. destruct s as [[store|] m h mi st pd]; reflexivity. Qed.

Lemma cleanup_counters now nowDb s :
  hitCount (snd (cleanup no_faults now nowDb s)) = hitCount s
  /\ missCount (snd (cleanup no_faults now nowDb s)) = missCount s.
Proof. destruct s as [[store|] m h mi st pd]; split; reflexivity. Qed.

Lemma cleanup_removes_expired now nowDb k s :
  (forall e, map_get k (memoryCache s) = Some e -> expiration e <= now) ->
  map_get k (memoryCache (snd (cleanup no_faults now nowDb s))) = None.
Proof.
  intros Hm. rewrite cleanup_memoryCache.
  destruct (map_get k (memoryCache s)) as [e|] eqn:Hget.
  - apply delete_keys_gone.
    apply (in_map fst _ (k, e)). apply filter_In. split.
    + now apply map_get_In.
    + simpl. apply Z.leb_le. now apply Hm.
  - destruct (delete_keys_sub (expired_keys now (memoryCache s))
                              (memoryCache s) k) as [H|H]; congruence.
Qed.

(** C8 (as amended): [get] leaves an expired entry where it is, in the
    memory map and in the object store alike; it is the sweep of
    [cleanup] that removes it from both. *)
Theorem C8_expired_entry_stays_until_cleanup now nowDb k s :
  (forall e, map_get k (memoryCache s) = Some e -> expiration e <= now) ->
  (forall e, db_get k s = Some e -> expiration e <= now) ->
  now <= nowDb ->
  memoryCache (snd (get no_faults now k s)) = memoryCache s
  /\ db (snd (get no_faults now k s)) = db s
  /\ map_get k (memoryCache
                  (snd (cleanup no_faults now nowDb
                          (snd (get no_faults now k s))))) = None
  /\ db_get k (snd (cleanup no_faults now nowDb
                      (snd (get no_faults now k s)))) = None.
Proof.
  intros Hm Hd Hnow.
  rewrite (get_miss now k s) by now apply unexpired_None.
  simpl_state.
  repeat split.
  - now apply cleanup_removes_expired.
  - unfold db_get in *. rewrite cleanup_db. simpl_state.
    destruct (db s) as [store|]; [|reflexivity]. simpl.
    apply map_lookup_filter_None_2. right. intros e He Hp. simpl in Hp.
    specialize (Hd e He). lia.
Qed.

(** ** [delete] *)

(** C9: with the store answering, [delete] resolves whatever the tiers
    hold, and a second [delete] of the same key resolves too and leaves
    both tiers and the counters as the first one left them; the snapshot
    published once the [updateStats] calls have resumed is the same
    after one [delete] and after two, and so is then the whole state.
    With no store, where [updateStats] publishes before [delete]
    returns, the second call leaves the state of the first as it is. *)
Theorem C9_delete_is_idempotent k s :
  let s1 := snd (delete no_faults k s) in
  let s2 := snd (delete no_faults k s1) in
  fst (delete no_faults k s) = Resolved tt
  /\ fst (delete no_faults k s1) = Resolved tt
  /\ memoryCache s2 = memoryCache s1
  /\ db s2 = db s1
  /\ hitCount s2 = hitCount s1
  /\ missCount s2 = missCount s1
  /\ settle s2 = settle s1
  /\ (db s = None ->
      delete no_faults k s1 = (Resolved tt, s1)).
Proof.
  destruct s as [d m h mi st pd]. unfold_ops.
  destruct d as [store|]; cbn -[settle].
  - rewrite map_delete_idem, delete_delete_eq.
    repeat split; [|discriminate].
    rewrite !settle_spec. cbn.
    rewrite <- !app_assoc, !fold_left_app. reflexivity.
  - rewrite map_delete_idem. repeat split.
Qed.
End Operations.

(** * Write-through *)

Section WriteThrough.
Context {T : Type} (jsonByteLength : T -> Z).
Implicit Types (m : MemoryMap T) (e : CacheEntry T) (k : string)
  (s : State T) (v : option T).

(** ** What [set] leaves behind, the store answering *)

Lemma set_fst now k v ttl ty s :
  fst (set jsonByteLength no_faults now k v ttl ty s) = Resolved tt.
Proof.
  unfold_ops. simpl_state.
  destruct (calculateSize jsonByteLength v <? 1024 * 1024);
    rewrite ?enforceMemoryLimit_db; simpl_state;
    case_db s; reflexivity.
Qed.

Lemma set_db now k v ttl ty s :
  db (snd (set jsonByteLength no_faults now k v ttl ty s))
  = option_map
      (fun store : ObjectStore T =>
         <[k := new_entry jsonByteLength now k v ttl ty]> store)
      (db s).
Proof.
  unfold_ops. simpl_state.
  destruct (calculateSize jsonByteLength v <? 1024 * 1024);
    rewrite ?enforceMemoryLimit_db; simpl_state;
    case_db s; reflexivity.
Qed.

Lemma set_memoryCache now k v ttl ty s :
  memoryCache (snd (set jsonByteLength no_faults now k v ttl ty s))
  = if calculateSize jsonByteLength v <? 1024 * 1024
    then memoryCache
           (enforceMemoryLimit
              (with_memoryCache
                 (map_set k (new_entry jsonByteLength now k v ttl ty)
                          (memoryCache s)) s))
    else memoryCache s.
Proof.
  unfold_ops. simpl_state.
  destruct (calculateSize jsonByteLength v <? 1024 * 1024);
    rewrite ?enforceMemoryLimit_db; simpl_state;
    case_db s; reflexivity.
Qed.

Lemma set_counters now k v ttl ty s :
  hitCount (snd (set jsonByteLength no_faults now k v ttl ty s)) = hitCount s
  /\ missCount (snd (set jsonByteLength no_faults now k v ttl ty s))
     = missCount s.
Proof.
  unfold_ops. simpl_state.
  destruct (calculateSize jsonByteLength v <? 1024 * 1024);
    rewrite ?enforceMemoryLimit_db; simpl_state;
    case_db s; split; reflexivity.
Qed.

(** In the memory map, [set] touches no key but its own, except to evict. *)
Lemma set_memory_sub now k v ttl ty s k' :
  k <> k' ->
  map_get k' (memoryCache (snd (set jsonByteLength no_faults now k v ttl ty s)))
  = None
  \/ map_get k' (memoryCache
                   (snd (set jsonByteLength no_faults now k v ttl ty s)))
     = map_get k' (memoryCache s).
Proof.
  intros Hne. rewrite set_memoryCache.
  destruct (calculateSize jsonByteLength v <? 1024 * 1024); [|now right].
  destruct (enforceMemoryLimit_sub
              (with_memoryCache
                 (map_set k (new_entry jsonByteLength now k v ttl ty)
                          (memoryCache s)) s) k') as [H|H]; [now left|].
  right. rewrite H. simpl_state. now apply map_get_set_ne.
Qed.

(** ** What the other calls leave behind *)

Lemma get_cases now k s :
  (exists e, unexpired now (map_get k (memoryCache s)) = Some e
             /\ get no_faults now k s
                = (Resolved (data e),
                   with_hitCount (hitCount s + 1)
                     (with_memoryCache
                        (map_set k (touch now e) (memoryCache s)) s)))
  \/ (unexpired now (map_get k (memoryCache s)) = None
      /\ exists e0, unexpired now (db_get k s) = Some e0
                    /\ get no_faults now k s
                       = (Resolved (data e0), after_db_hit now k e0 s))
  \/ (unexpired now (map_get k (memoryCache s)) = None
      /\ unexpired now (db_get k s) = None
      /\ get no_faults now k s
         = (Resolved None, with_missCount (missCount s + 1) s)).
Proof.
  destruct (unexpired now (map_get k (memoryCache s))) as [e|] eqn:Hm.
  - left. exists e. split; [reflexivity | now apply get_memory_hit].
  - right. destruct (unexpired now (db_get k s)) as [e0|] eqn:Hd.
    + left. split; [reflexivity|]. exists e0. split; [reflexivity|].
      now apply get_db_hit.
    + right. repeat split. now apply get_miss.
Qed.

Lemma has_snd f now k s : snd (has f now k s) = snd (get f now k s).
Proof.
  unfold has, await, resolve.
  now destruct (get f now k s) as [[d|] s'].
Qed.

Lemma after_db_hit_db now k e0 s :
  db (after_db_hit now k e0 s)
  = option_map
      (fun store : ObjectStore T => <[key e0 := touch now e0]> store)
      (db s).
Proof.
  unfold after_db_hit.
  destruct ((accessCount (touch now e0) >? 2)
            && (size (metadata (touch now e0)) <? 1024 * 1024));
    simpl_state; rewrite ?enforceMemoryLimit_db; reflexivity.
Qed.

Lemma after_db_hit_memoryCache now k e0 s :
  memoryCache (after_db_hit now k e0 s)
  = if (accessCount e0 + 1 >? 2) && (size (metadata e0) <? 1024 * 1024)
    then memoryCache
           (enforceMemoryLimit
              (with_memoryCache
                 (map_set k (touch now e0) (memoryCache s)) s))
    else memoryCache s.
Proof.
  unfold after_db_hit.
  change (accessCount (touch now e0)) with (accessCount e0 + 1).
  change (metadata (touch now e0)) with (metadata e0).
  destruct ((accessCount e0 + 1 >? 2)
            && (size (metadata e0) <? 1024 * 1024)); reflexivity.
Qed.

Lemma delete_memoryCache k s :
  memoryCache (snd (delete no_faults k s)) = map_delete k (memoryCache s).
Proof. destruct s as [[store|] m h mi st pd]; reflexivity. Qed.

Lemma delete_db k s :
  db (snd (delete no_faults k s))
  = option_map (fun store : ObjectStore T => base.delete k store) (db s).
Proof. destruct s as [[store|] m h mi st pd]; reflexivity. Qed.

(** ** The invariant *)

Lemma set_establishes now0 k v ttl ty s store :
  db s = Some store ->
  store_wf store ->
  (calculateSize jsonByteLength v < 1024 * 1024
   \/ map_get k (memoryCache s) = None) ->
  holds k v (now0 + ttl)
        (snd (set jsonByteLength no_faults now0 k v ttl ty s)).
Proof.
  intros Hdb Hwf Hfit. split; [|split].
  - intros store' Hdb'. rewrite set_db, Hdb in Hdb'. simpl in Hdb'.
    injection Hdb' as <-. intros k' e He.
    destruct (decide (k = k')) as [->|Hne].
    + rewrite lookup_insert_eq in He. now injection He as <-.
    + rewrite lookup_insert_ne in He by exact Hne. now apply Hwf.
  - exists (new_entry jsonByteLength now0 k v ttl ty).
    unfold db_get. rewrite set_db, Hdb. simpl.
    now rewrite lookup_insert_eq.
  - intros e He. rewrite set_memoryCache in He.
    destruct (Z.ltb_spec (calculateSize jsonByteLength v) (1024 * 1024))
      as [Hlt|Hge].
    + destruct (enforceMemoryLimit_sub
                  (with_memoryCache
                     (map_set k (new_entry jsonByteLength now0 k v ttl ty)
                              (memoryCache s)) s) k) as [Hsub|Hsub];
        rewrite Hsub in He; [discriminate|].
      simpl_state. rewrite map_get_set_eq in He. now injection He as <-.
    + destruct Hfit as [Hfit|Hfit]; [lia | congruence].
Qed.

Lemma store_wf_insert (store : ObjectStore T) e :
  store_wf store -> store_wf (<[key e := e]> store).
Proof.
  intros Hwf k' e' He.
  destruct (decide (key e = k')) as [<-|Hne].
  - rewrite lookup_insert_eq in He. now injection He as <-.
  - rewrite lookup_insert_ne in He by exact Hne. now apply Hwf.
Qed.

Lemma holds_get now k' k v exp s :
  holds k v exp s -> holds k v exp (snd (get no_faults now k' s)).
Proof.
  intros [Hwf [[e [Hdb [Hv Hexp]]] Hmem]].
  destruct (get_cases now k' s)
    as [[e1 [Hm ->]] | [[Hm [e0 [Hd ->]]] | [Hm [Hd ->]]]]; simpl_state.
  - (* served from the memory map *)
    apply unexpired_Some in Hm as [Hm _].
    split; [exact Hwf | split; [now exists e|]]. intros e2 He2.
    simpl_state.
    destruct (String.eqb_spec k' k) as [->|Hne].
    + rewrite map_get_set_eq in He2. injection He2 as <-.
      exact (Hmem e1 Hm).
    + rewrite map_get_set_ne in He2 by exact Hne. now apply Hmem.
  - (* served from the object store *)
    apply unexpired_Some in Hd as [Hd _].
    assert (Hkey : key e0 = k').
    { unfold db_get in Hd. destruct (db s) as [store|] eqn:Hs;
        [|discriminate]. now apply (Hwf store). }
    assert (Hmem' : forall e2,
               map_get k (memoryCache (after_db_hit now k' e0 s)) = Some e2 ->
               data e2 = v /\ expiration e2 = exp).
    { intros e2. rewrite after_db_hit_memoryCache.
      destruct ((accessCount e0 + 1 >? 2)
                && (size (metadata e0) <? 1024 * 1024)); [|apply Hmem].
      destruct (enforceMemoryLimit_sub
                  (with_memoryCache
                     (map_set k' (touch now e0) (memoryCache s)) s) k)
        as [Hsub|Hsub]; rewrite Hsub; [discriminate|]. simpl_state.
      destruct (String.eqb_spec k' k) as [->|Hne].
      - rewrite map_get_set_eq. intros [= <-]. simpl.
        assert (e0 = e) as -> by congruence. now split.
      - rewrite map_get_set_ne by exact Hne. apply Hmem. }
    split; [|split; [|exact Hmem']].
    + intros store'. rewrite after_db_hit_db.
      destruct (db s) as [store|] eqn:Hs; [|discriminate].
      simpl. intros [= <-].
      change (key e0) with (key (touch now e0)).
      apply store_wf_insert. now apply Hwf.
    + unfold db_get in *. rewrite after_db_hit_db.
      destruct (db s) as [store|] eqn:Hs; [|discriminate]. simpl.
      rewrite Hkey.
      destruct (decide (k' = k)) as [->|Hne].
      * exists (touch now e0). rewrite lookup_insert_eq.
        assert (e0 = e) as -> by congruence. now repeat split.
      * exists e. rewrite lookup_insert_ne by exact Hne. now repeat split.
  - split; [exact Hwf | split; [now exists e | exact Hmem]].
Qed.

(** Calls that leave the key alone keep both tiers in agreement. *)
Lemma holds_step k v exp o s :
  holds k v exp s -> leaves_alone k exp o ->
  holds k v exp (step jsonByteLength o s).
Proof.
  intros Hs Hleave.
  destruct o as [now k' d ttl ty|now k'|now k'|k'| |now nowDb];
    cbn [step leaves_alone] in *.
  - (* set of another key *)
    destruct Hs as [Hwf [[e [Hdb [Hv Hexp]]] Hmem]].
    assert (Hmem' : forall e2,
               map_get k (memoryCache
                            (snd (set jsonByteLength no_faults now k' d ttl
                                      ty s))) = Some e2 ->
               data e2 = v /\ expiration e2 = exp).
    { intros e2.
      destruct (set_memory_sub now k' d ttl ty s k Hleave) as [H|H];
        rewrite H; [discriminate | apply Hmem]. }
    unfold db_get in Hdb. destruct (db s) as [store|] eqn:Hstore;
      [|discriminate].
    split; [|split; [|exact Hmem']].
    + intros store'. rewrite set_db, Hstore. simpl. intros [= <-].
      apply (store_wf_insert store (new_entry jsonByteLength now k' d ttl ty)).
      now apply Hwf.
    + exists e. unfold db_get. rewrite set_db, Hstore. simpl.
      now rewrite lookup_insert_ne.
  - now apply holds_get.
  - rewrite has_snd. now apply holds_get.
  - (* delete of another key *)
    destruct Hs as [Hwf [[e [Hdb [Hv Hexp]]] Hmem]].
    unfold db_get in Hdb. destruct (db s) as [store|] eqn:Hstore;
      [|discriminate].
    split; [|split].
    + intros store'. rewrite delete_db, Hstore. simpl. intros [= <-].
      intros k1 e1 He1.
      apply lookup_delete_Some in He1 as [_ He1]. now apply (Hwf store).
    + exists e. unfold db_get. rewrite delete_db, Hstore. simpl.
      now rewrite lookup_delete_ne.
    + intros e2 He2.
      rewrite delete_memoryCache, map_get_delete_ne in He2 by exact Hleave.
      now apply Hmem.
  - contradiction.
  - (* a sweep before the entry expires *)
    destruct Hleave as [Hnow HnowDb].
    destruct Hs as [Hwf [[e [Hdb [Hv Hexp]]] Hmem]].
    unfold db_get in Hdb. destruct (db s) as [store|] eqn:Hstore;
      [|discriminate].
    assert (Hmem' : forall e2,
               map_get k (memoryCache (snd (cleanup no_faults now nowDb s)))
               = Some e2 ->
               data e2 = v /\ expiration e2 = exp).
    { intros e2. rewrite cleanup_memoryCache.
      destruct (delete_keys_sub (expired_keys now (memoryCache s))
                                (memoryCache s) k) as [H|H];
        rewrite H; [discriminate | apply Hmem]. }
    split; [|split; [|exact Hmem']].
    + intros store'. rewrite cleanup_db, Hstore. simpl. intros [= <-].
      intros k1 e1 He1.
      apply map_lookup_filter_Some in He1 as [He1 _]. now apply (Hwf store).
    + exists e. unfold db_get. rewrite cleanup_db, Hstore. simpl.
      repeat split; auto.
      apply map_lookup_filter_Some. split; [exact Hdb|]. simpl. lia.
Qed.

Lemma holds_run k v exp ops s :
  holds k v exp s -> Forall (leaves_alone k exp) ops ->
  holds k v exp (run jsonByteLength ops s).
Proof.
  intros Hs Hops. revert s Hs.
  induction Hops as [|o ops Ho Hops IH]; intros s Hs; [exact Hs|].
  apply IH. now apply holds_step.
Qed.

Lemma holds_get_returns now k v exp s :
  holds k v exp s -> now < exp ->
  fst (get no_faults now k s) = Resolved v.
Proof.
  intros [Hwf [[e [Hdb [Hv Hexp]]] Hmem]] Hnow.
  destruct (get_cases now k s)
    as [[e1 [Hm ->]] | [[Hm [e0 [Hd ->]]] | [Hm [Hd ->]]]]; simpl.
  - apply unexpired_Some in Hm as [Hm _].
    now destruct (Hmem e1 Hm) as [-> _].
  - apply unexpired_Some in Hd as [Hd _]. congruence.
  - exfalso. rewrite unexpired_None in Hd. specialize (Hd e Hdb). lia.
Qed.

(** C1 (as amended): with the object store open and answering, and the
    payload either below 1 MiB or the key not resident in the memory map
    when it is set, every [get(k)] at a clock reading before
    [now0 + ttl] resolves with the payload of [set(k, v, ttl)], whatever
    calls on other keys, reads of [k] and sweeps before the expiry came in
    between, evictions of [k] from the memory map included. *)
Theorem C1_write_through_while_store_answers
    s store k v ttl ty now0 ops now :
  db s = Some store ->
  store_wf store ->
  (calculateSize jsonByteLength v < 1024 * 1024
   \/ map_get k (memoryCache s) = None) ->
  Forall (leaves_alone k (now0 + ttl)) ops ->
  now < now0 + ttl ->
  fst (get no_faults now k
         (run jsonByteLength ops
            (snd (set jsonByteLength no_faults now0 k v ttl ty s))))
  = Resolved v.
Proof.
  intros Hdb Hwf Hfit Hops Hnow.
  apply (holds_get_returns now k v (now0 + ttl)); [|exact Hnow].
  apply holds_run; [|exact Hops].
  now apply (set_establishes now0 k v ttl ty s store).
Qed.
End WriteThrough.

(** * Promotion *)

Section Promotion.
Context {T : Type}.
Implicit Types (m : MemoryMap T) (e : CacheEntry T) (k : string)
  (s : State T).

Lemma maxSize_above_MiB : 1024 * 1024 <= maxSize.
Proof. vm_compute. discriminate. Qed.

(** A [get] served by the object store alone. *)
Lemma get_durable_only now k s e :
  map_get k (memoryCache s) = None ->
  db_get k s = Some e ->
  now < expiration e ->
  get no_faults now k s = (Resolved (data e), after_db_hit now k e s).
Proof.
  intros Hm Hd Hnow. apply get_db_hit.
  - now rewrite Hm.
  - rewrite Hd. now apply unexpired_Some.
Qed.

Lemma after_db_hit_db_get now k e s :
  db_get k s = Some e -> key e = k ->
  db_get k (after_db_hit now k e s) = Some (touch now e).
Proof.
  unfold db_get. intros Hd Hkey. rewrite after_db_hit_db.
  destruct (db s) as [store|]; [|discriminate]. simpl.
  rewrite Hkey. apply lookup_insert_eq.
Qed.

Lemma after_db_hit_not_promoted now k e s :
  (accessCount e + 1 <= 2 \/ 1024 * 1024 <= size (metadata e)) ->
  memoryCache (after_db_hit now k e s) = memoryCache s.
Proof.
  intros H. rewrite after_db_hit_memoryCache.
  destruct (Z.gtb_spec (accessCount e + 1) 2);
    destruct (Z.ltb_spec (size (metadata e)) (1024 * 1024));
    simpl; try reflexivity; lia.
Qed.

Lemma after_db_hit_promoted now k e s :
  map_get k (memoryCache s) = None ->
  2 < accessCount e + 1 ->
  size (metadata e) < 1024 * 1024 ->
  List.NoDup (List.map fst (memoryCache s)) ->
  Forall (fun p => lastAccessed (snd p) <= now) (memoryCache s) ->
  map_get k (memoryCache (after_db_hit now k e s)) = Some (touch now e).
Proof.
  intros Hm Hcount Hsize Hnd Hclock. rewrite after_db_hit_memoryCache.
  destruct (Z.gtb_spec (accessCount e + 1) 2); [|lia].
  destruct (Z.ltb_spec (size (metadata e)) (1024 * 1024)); [|lia].
  simpl.
  apply (enforceMemoryLimit_keeps_appended _ (memoryCache s)).
  - simpl_state. now apply map_set_fresh.
  - rewrite List.map_app. simpl.
    apply List.NoDup_app.
    + exact Hnd.
    + repeat constructor. intros [].
    + intros k' Hin [<-|[]].
      apply in_map_iff in Hin as [p [Hp Hin]].
      now apply (map_get_None _ _ Hm p Hin).
  - exact Hclock.
  - pose proof maxSize_above_MiB. simpl. lia.
Qed.

Lemma get_repeatedly_large nows k s e :
  map_get k (memoryCache s) = None ->
  db_get k s = Some e ->
  key e = k ->
  1024 * 1024 <= size (metadata e) ->
  memoryCache (get_repeatedly nows k s) = memoryCache s.
Proof.
  revert s e. induction nows as [|now nows IH]; intros s e Hm Hd Hkey Hsize;
    [reflexivity|].
  unfold get_repeatedly in *. cbn [fold_left].
  destruct (Z.ltb_spec now (expiration e)) as [Hlive|Hdead].
  - rewrite (get_durable_only now k s e Hm Hd Hlive). simpl_state.
    assert (Hmem : memoryCache (after_db_hit now k e s) = memoryCache s)
      by (apply after_db_hit_not_promoted; now right).
    rewrite (IH _ (touch now e)); [exact Hmem | | | exact Hkey | exact Hsize].
    + now rewrite Hmem.
    + now apply after_db_hit_db_get.
  - rewrite get_miss.
    + simpl_state. now rewrite (IH _ e).
    + now rewrite Hm.
    + rewrite Hd. apply unexpired_None. intros e' [= <-]. exact Hdead.
Qed.

(** C5: take an entry held by the object store only.  When it is below
    1 MiB and has not been read yet ([accessCount] 0), the first and the
    second [get] before it expires resolve with its payload and leave the
    memory map without the key, and the third puts it in the memory map
    (no resident entry having been accessed after that call's clock
    reading).  When it is 1 MiB or more, no run of [get] calls changes the
    memory map. *)
Theorem C5_promotion_on_third_durable_read k s e :
  map_get k (memoryCache s) = None ->
  db_get k s = Some e ->
  key e = k ->
  (size (metadata e) < 1024 * 1024 ->
   accessCount e = 0 ->
   forall n1 n2 n3,
     n1 < expiration e -> n2 < expiration e -> n3 < expiration e ->
     List.NoDup (List.map fst (memoryCache s)) ->
     Forall (fun p => lastAccessed (snd p) <= n3) (memoryCache s) ->
     fst (get no_faults n1 k s) = Resolved (data e)
     /\ map_get k (memoryCache (get_repeatedly [n1] k s)) = None
     /\ fst (get no_faults n2 k (get_repeatedly [n1] k s))
        = Resolved (data e)
     /\ map_get k (memoryCache (get_repeatedly [n1; n2] k s)) = None
     /\ fst (get no_faults n3 k (get_repeatedly [n1; n2] k s))
        = Resolved (data e)
     /\ exists e3,
          map_get k (memoryCache (get_repeatedly [n1; n2; n3] k s))
          = Some e3
          /\ data e3 = data e /\ accessCount e3 = 3)
  /\ (1024 * 1024 <= size (metadata e) ->
      forall nows,
        memoryCache (get_repeatedly nows k s) = memoryCache s).
Proof.
  intros Hm Hd Hkey. split.
  - intros Hsize Hcount n1 n2 n3 H1 H2 H3 Hnd Hclock.
    unfold get_repeatedly. cbn [fold_left].
    (* first read *)
    rewrite (get_durable_only n1 k s e Hm Hd H1). simpl_state.
    set (s1 := after_db_hit n1 k e s).
    assert (Hmem1 : memoryCache s1 = memoryCache s)
      by (apply after_db_hit_not_promoted; left; lia).
    assert (Hd1 : db_get k s1 = Some (touch n1 e))
      by now apply after_db_hit_db_get.
    assert (Hm1 : map_get k (memoryCache s1) = None) by now rewrite Hmem1.
    (* second read *)
    rewrite (get_durable_only n2 k s1 (touch n1 e) Hm1 Hd1 H2). simpl_state.
    set (s2 := after_db_hit n2 k (touch n1 e) s1).
    assert (Hmem2 : memoryCache s2 = memoryCache s).
    { rewrite <- Hmem1. apply after_db_hit_not_promoted. left. simpl. lia. }
    assert (Hd2 : db_get k s2 = Some (touch n2 (touch n1 e)))
      by now apply after_db_hit_db_get.
    assert (Hm2 : map_get k (memoryCache s2) = None) by now rewrite Hmem2.
    (* third read *)
    rewrite (get_durable_only n3 k s2 (touch n2 (touch n1 e)) Hm2 Hd2 H3).
    simpl_state.
    repeat split; auto.
    exists (touch n3 (touch n2 (touch n1 e))). repeat split.
    + apply after_db_hit_promoted; auto.
      * simpl. lia.
      * now rewrite Hmem2.
      * now rewrite Hmem2.
    + simpl. lia.
  - intros Hsize nows. now apply (get_repeatedly_large nows k s e).
Qed.
End Promotion.

(** * Counting hits, and the [null] payload *)

Section Counting.
Context {T : Type} (jsonByteLength : T -> Z).
Implicit Types (m : MemoryMap T) (e : CacheEntry T) (k : string)
  (s : State T).

Lemma after_db_hit_counters now k e s :
  hitCount (after_db_hit now k e s) = hitCount s + 1
  /\ missCount (after_db_hit now k e s) = missCount s
  /\ statsSubject (after_db_hit now k e s) = statsSubject s.
Proof.
  unfold after_db_hit.
  destruct ((accessCount (touch now e) >? 2)
            && (size (metadata (touch now e)) <? 1024 * 1024));
    simpl_state;
    rewrite ?enforceMemoryLimit_hitCount, ?enforceMemoryLimit_missCount,
      ?enforceMemoryLimit_stats; auto.
Qed.

(** [get] counts a hit exactly when some tier holds an unexpired entry,
    a miss otherwise, and never republishes the snapshot. *)
Lemma get_counters now k s :
  hitCount (snd (get no_faults now k s))
  = hitCount s + (if live now k s then 1 else 0)
  /\ missCount (snd (get no_faults now k s))
     = missCount s + (if live now k s then 0 else 1)
  /\ statsSubject (snd (get no_faults now k s)) = statsSubject s.
Proof.
  unfold live.
  destruct (get_cases now k s)
    as [[e1 [Hm ->]] | [[Hm [e0 [Hd ->]]] | [Hm [Hd ->]]]];
    rewrite Hm, ?Hd; simpl_state.
  - repeat split; lia.
  - destruct (after_db_hit_counters now k e0 s) as [-> [-> ->]].
    repeat split; lia.
  - repeat split; lia.
Qed.


Lemma get_of_miss now k s :
  live now k s = false -> fst (get no_faults now k s) = Resolved None.
Proof.
  unfold live. intros Hlive.
  destruct (unexpired now (map_get k (memoryCache s))) eqn:Hm;
    [discriminate|].
  destruct (unexpired now (db_get k s)) eqn:Hd; [discriminate|].
  now rewrite get_miss.
Qed.

Lemma has_fst f now k s :
  fst (has f now k s)
  = match fst (get f now k s) with
    | Resolved (Some _) => Resolved true
    | Resolved None => Resolved false
    | Rejected => Rejected
    end.
Proof.
  unfold has, await, resolve.
  now destruct (get f now k s) as [[[d|]|] s'].
Qed.

Lemma NoDup_map_set k e m :
  List.NoDup (List.map fst m) -> List.NoDup (List.map fst (map_set k e m)).
Proof.
  intros Hnd. destruct (map_get k m) as [e'|] eqn:Hget.
  - rewrite map_set_keys; [exact Hnd | congruence].
  - rewrite map_set_fresh by exact Hget. rewrite List.map_app. simpl.
    apply List.NoDup_app; [exact Hnd | repeat constructor; intros [] |].
    intros k' Hin [<-|[]].
    apply in_map_iff in Hin as [p [Hp Hin]].
    now apply (map_get_None _ _ Hget p Hin).
Qed.

(** C10: after [set(k, null, ttl)] (the store open, or else every other
    resident entry last accessed before the call), a [get(k)] before the
    expiry resolves with [null] and counts a hit, not a miss, and [has(k)]
    resolves with [false]; a [get] and a [has] that miss resolve with the
    very same values. *)
Theorem C10_null_payload_reads_as_absent s k ttl ty now0 now :
  now < now0 + ttl ->
  (db s <> None
   \/ (List.NoDup (List.map fst (memoryCache s))
       /\ forall p, In p (memoryCache s) -> fst p <> k ->
                    lastAccessed (snd p) < now0)) ->
  let s1 := snd (set jsonByteLength no_faults now0 k None ttl ty s) in
  fst (get no_faults now k s1) = Resolved None
  /\ hitCount (snd (get no_faults now k s1)) = hitCount s1 + 1
  /\ missCount (snd (get no_faults now k s1)) = missCount s1
  /\ fst (has no_faults now k s1) = Resolved false
  /\ forall s', live now k s' = false ->
       fst (get no_faults now k s') = fst (get no_faults now k s1)
       /\ fst (has no_faults now k s') = fst (has no_faults now k s1).
Proof.
  intros Hnow Hstored s1.
  set (entry := new_entry jsonByteLength now0 k None ttl ty).
  assert (Hmem : map_get k (memoryCache s1) = None
                 \/ map_get k (memoryCache s1) = Some entry).
  { unfold s1. rewrite set_memoryCache. fold entry.
    change (calculateSize jsonByteLength None <? 1024 * 1024) with true.
    cbv iota.
    destruct (enforceMemoryLimit_sub
                (with_memoryCache (map_set k entry (memoryCache s)) s) k)
      as [H|H]; [now left|].
    right. rewrite H. simpl_state. apply map_get_set_eq. }
  assert (Hsome : map_get k (memoryCache s1) = Some entry
                  \/ db_get k s1 = Some entry).
  { destruct Hstored as [Hdb|[Hnd Hclock]].
    - right. unfold db_get, s1. rewrite set_db. fold entry.
      destruct (db s) as [store|]; [|congruence]. simpl.
      apply lookup_insert_eq.
    - left. unfold s1. rewrite set_memoryCache. fold entry.
      change (calculateSize jsonByteLength None <? 1024 * 1024) with true.
      cbv iota.
      apply enforceMemoryLimit_keeps_newest; simpl_state.
      + now apply NoDup_map_set.
      + apply map_get_set_eq.
      + intros p Hp Hne. apply map_set_In in Hp as [->|Hp];
          [simpl in Hne; congruence|]. simpl. now apply Hclock.
      + vm_compute. discriminate. }
  assert (Hlive : live now k s1 = true /\
                  fst (get no_faults now k s1) = Resolved None).
  { unfold live.
    destruct (get_cases now k s1)
      as [[e1 [Hm ->]] | [[Hm [e0 [Hd ->]]] | [Hm [Hd ->]]]];
      rewrite Hm, ?Hd; simpl.
    - split; [reflexivity|].
      apply unexpired_Some in Hm as [Hm _].
      destruct Hmem as [Hmem|Hmem]; rewrite Hmem in Hm; [discriminate|].
      now injection Hm as <-.
    - split; [reflexivity|].
      assert (Hnone : map_get k (memoryCache s1) = None).
      { destruct Hmem as [Hmem|Hmem]; [exact Hmem|].
        rewrite Hmem in Hm. apply unexpired_None with (e := entry) in Hm;
          [simpl in Hm; lia | reflexivity]. }
      destruct Hsome as [Hsome|Hsome]; [congruence|].
      rewrite Hsome in Hd. apply unexpired_Some in Hd as [Hd _].
      now injection Hd as <-.
    - exfalso. destruct Hsome as [Hsome|Hsome].
      + rewrite Hsome in Hm. apply unexpired_None with (e := entry) in Hm;
          [simpl in Hm; lia | reflexivity].
      + rewrite Hsome in Hd. apply unexpired_None with (e := entry) in Hd;
          [simpl in Hd; lia | reflexivity]. }
  destruct Hlive as [Hlive Hget].
  destruct (get_counters now k s1) as [Hh [Hmiss _]].
  rewrite Hlive in Hh, Hmiss.
  repeat split.
  - exact Hget.
  - exact Hh.
  - lia.
  - now rewrite has_fst, Hget.
  - rewrite Hget. now apply get_of_miss.
  - rewrite !has_fst, Hget, get_of_miss; auto.
Qed.
End Counting.

(** * The published hit rate *)

Section HitRate.
Context {T : Type} (jsonByteLength : T -> Z).
Implicit Types (m : MemoryMap T) (e : CacheEntry T) (k : string)
  (s : State T) (o : Op T) (ev : Event T).

Lemma delete_counters k s :
  hitCount (snd (delete no_faults k s)) = hitCount s
  /\ missCount (snd (delete no_faults k s)) = missCount s.
Proof.
  unfold_ops. case_db s; split; reflexivity.
Qed.

Lemma clear_counters s :
  hitCount (snd (clear no_faults s)) = 0
  /\ missCount (snd (clear no_faults s)) = 0.
Proof.
  unfold_ops. case_db s; split; reflexivity.
Qed.

(** [get] publishes nothing and starts no [updateStats]. *)
Lemma get_pendingStats now k s :
  pendingStats (snd (get no_faults now k s)) = pendingStats s.
Proof.
  destruct (get_cases now k s)
    as [[e1 [Hm ->]] | [[Hm [e0 [Hd ->]]] | [Hm [Hd ->]]]];
    simpl_state; try reflexivity.
  unfold after_db_hit.
  destruct ((accessCount (touch now e0) >? 2)
            && (size (metadata (touch now e0)) <? 1024 * 1024));
    simpl_state; rewrite ?enforceMemoryLimit_pendingStats; reflexivity.
Qed.

(** [set], [delete] and [cleanup] keep the counters, the snapshot and the
    waiting calls as they are until their last statement, which is the
    call to [updateStats]. *)
Lemma republishing_call o s :
  republishes o = true ->
  exists s', step jsonByteLength o s = updateStats no_faults s'
             /\ hitCount s' = hitCount s
             /\ missCount s' = missCount s
             /\ statsSubject s' = statsSubject s
             /\ pendingStats s' = pendingStats s
             /\ (db s' = None <-> db s = None).
Proof.
  destruct o as [now k d ttl ty|now k|now k|k| |now nowDb];
    try discriminate; intros _; cbn [step]; unfold_ops; simpl_state.
  - destruct (calculateSize jsonByteLength d <? 1024 * 1024);
      case_db s; cbn [snd]; eexists; (split; [reflexivity|]);
      simpl_state;
      rewrite ?enforceMemoryLimit_hitCount, ?enforceMemoryLimit_missCount,
        ?enforceMemoryLimit_stats, ?enforceMemoryLimit_pendingStats,
        ?enforceMemoryLimit_db;
      simpl_state; rewrite ?Hdb; repeat split; congruence.
  - case_db s; cbn [snd]; eexists; (split; [reflexivity|]);
      simpl_state; rewrite ?Hdb; repeat split; congruence.
  - case_db s; cbn [snd]; eexists; (split; [reflexivity|]);
      simpl_state; rewrite ?Hdb; repeat split; congruence.
Qed.

Lemma step_counters o s :
  is_clear (Call o) = false ->
  hitCount (step jsonByteLength o s)
  = hitCount s + hits_of jsonByteLength [Call o] s
  /\ missCount (step jsonByteLength o s)
     = missCount s + misses_of jsonByteLength [Call o] s.
Proof.
  destruct o as [now k d ttl ty|now k|now k|k| |now nowDb];
    try discriminate; intros _; cbn [step hits_of misses_of].
  - destruct (set_counters jsonByteLength now k d ttl ty s) as [-> ->]. lia.
  - destruct (get_counters now k s) as [-> [-> _]]. lia.
  - rewrite has_snd. destruct (get_counters now k s) as [-> [-> _]]. lia.
  - destruct (delete_counters k s) as [-> ->]. lia.
  - destruct (cleanup_counters now nowDb s) as [-> ->]. lia.
Qed.

Lemma occur_counters ev s :
  is_clear ev = false ->
  hitCount (occur jsonByteLength ev s)
  = hitCount s + hits_of jsonByteLength [ev] s
  /\ missCount (occur jsonByteLength ev s)
     = missCount s + misses_of jsonByteLength [ev] s.
Proof.
  destruct ev as [o|]; intros Hev.
  - now apply step_counters.
  - cbn [occur hits_of misses_of].
    destruct (resume_tiers s) as (_ & _ & -> & ->). lia.
Qed.

Lemma hits_of_cons ev evs s :
  hits_of jsonByteLength (ev :: evs) s
  = hits_of jsonByteLength [ev] s
    + hits_of jsonByteLength evs (occur jsonByteLength ev s).
Proof. cbn [hits_of]. lia. Qed.

Lemma misses_of_cons ev evs s :
  misses_of jsonByteLength (ev :: evs) s
  = misses_of jsonByteLength [ev] s
    + misses_of jsonByteLength evs (occur jsonByteLength ev s).
Proof. cbn [misses_of]. lia. Qed.

(** Between two [clear]s the counters follow the hits and misses, however
    the waiting [updateStats] calls resume in between. *)
Lemma schedule_counters evs s :
  forallb (fun ev => negb (is_clear ev)) evs = true ->
  hitCount (schedule jsonByteLength evs s)
  = hitCount s + hits_of jsonByteLength evs s
  /\ missCount (schedule jsonByteLength evs s)
     = missCount s + misses_of jsonByteLength evs s.
Proof.
  revert s. induction evs as [|ev evs IH]; intros s Hevs.
  - simpl. lia.
  - cbn [forallb] in Hevs. apply andb_prop in Hevs as [Hev Hevs].
    apply negb_true_iff in Hev.
    unfold schedule in *. cbn [fold_left].
    destruct (IH (occur jsonByteLength ev s) Hevs) as [-> ->].
    destruct (occur_counters ev s Hev) as [-> ->].
    rewrite (hits_of_cons ev evs), (misses_of_cons ev evs). lia.
Qed.

(** The snapshot the [updateStats] of [clear] publishes, nothing coming
    in between, shows a hit rate of 0. *)
Lemma clear_settles_at_zero s :
  hitRate (statsSubject (settle (snd (clear no_faults s))))
  = SpecFloat.S754_zero false.
Proof.
  destruct (clear_counters s) as [H1 H2].
  destruct (pendingStats (snd (clear no_faults s))) eqn:Hp.
  - unfold settle. rewrite Hp. cbn [fold_left]. clear H1 H2.
    unfold clear, await, clearIndexedDB, updateStats in *.
    destruct s as [[store|] m h mi st pd]; cbn in *.
    + destruct pd; discriminate.
    + reflexivity.
  - rewrite settle_hitRate by (rewrite Hp; discriminate).
    now rewrite H1, H2.
Qed.

(** C7 (as amended): after a [clear()], whatever calls follow and
    however the waiting [updateStats] calls resume between them, with
    [H] hits and [M] misses since the [clear()]:
    the counters are [H] and [M];
    [get] publishes nothing and starts no [updateStats];
    with no store, [set], [delete] and [cleanup] publish, before they
    return, the percentage [(H / (H + M)) * 100] in double arithmetic;
    with the store open they publish nothing before they return, their
    [updateStats] waits, and a waiting [updateStats] that resumes
    publishes the percentage of the counters as they are when it
    resumes, hits and misses of later [get]s included;
    the percentage is 0 when there was no request;
    [clear()] zeroes both counters, and the snapshot its [updateStats]
    publishes, no [get] coming in between, has a hit rate of 0. *)
Theorem C7_hit_rate_is_a_percentage_published_on_mutation s0 evs o :
  forallb (fun ev => negb (is_clear ev)) evs = true ->
  republishes o = true ->
  let cleared := step jsonByteLength OpClear s0 in
  let s := schedule jsonByteLength evs cleared in
  let H := hits_of jsonByteLength evs cleared in
  let M := misses_of jsonByteLength evs cleared in
  hitCount s = H
  /\ missCount s = M
  /\ (forall now k,
         statsSubject (step jsonByteLength (OpGet now k) s)
         = statsSubject s
         /\ pendingStats (step jsonByteLength (OpGet now k) s)
            = pendingStats s)
  /\ (db s = None ->
      hitRate (statsSubject (step jsonByteLength o s))
      = percentage H (H + M))
  /\ (db s <> None ->
      statsSubject (step jsonByteLength o s) = statsSubject s
      /\ pendingStats (step jsonByteLength o s)
         = pendingStats s
           ++ [capture no_faults (step jsonByteLength o s)])
  /\ (pendingStats s <> [] ->
      hitRate (statsSubject (resume s)) = percentage H (H + M))
  /\ (H + M = 0 -> percentage H (H + M) = SpecFloat.S754_zero false)
  /\ hitCount (step jsonByteLength OpClear s) = 0
  /\ missCount (step jsonByteLength OpClear s) = 0
  /\ hitRate (statsSubject (settle (step jsonByteLength OpClear s)))
     = SpecFloat.S754_zero false.
Proof.
  intros Hevs Ho cleared s H M.
  destruct (schedule_counters evs cleared Hevs) as [Hh Hm].
  destruct (clear_counters s0) as [Hc1 Hc2].
  fold (step jsonByteLength OpClear s0) in Hc1, Hc2.
  fold cleared in Hc1, Hc2. rewrite Hc1 in Hh. rewrite Hc2 in Hm.
  fold s H in Hh. fold s M in Hm.
  rewrite Z.add_0_l in Hh, Hm.
  destruct (republishing_call o s Ho)
    as (s' & Hstep & Hh' & Hm' & Hst' & Hp' & Hdb').
  destruct (clear_counters s) as [Hs1 Hs2].
  fold (step jsonByteLength OpClear s) in Hs1, Hs2.
  split; [exact Hh|]. split; [exact Hm|].
  split; [|split; [|split; [|split; [|split; [|split; [|split]]]]]].
  - intros now k. cbn [step]. split.
    + now destruct (get_counters now k s) as [_ [_ ->]].
    + apply get_pendingStats.
  - intros Hdb. rewrite Hstep.
    destruct (updateStats_without_store no_faults s' (proj2 Hdb' Hdb))
      as [-> _].
    cbn [publish hitRate]. now rewrite Hh', Hm', Hh, Hm.
  - intros Hdb.
    assert (Hdb2 : db s' <> None) by (intros E; apply Hdb, Hdb', E).
    rewrite Hstep, capture_updateStats.
    destruct (updateStats_with_store no_faults s' Hdb2) as [-> ->].
    now rewrite Hst', Hp'.
  - intros Hp. unfold resume.
    destruct (pendingStats s) as [|c rest]; [congruence|].
    cbn [statsSubject with_stats with_pendingStats publish hitRate].
    now rewrite Hh, Hm.
  - intros Hz. unfold percentage.
    destruct (Z.gtb_spec (H + M) 0); [lia | reflexivity].
  - exact Hs1.
  - exact Hs2.
  - apply clear_settles_at_zero.
Qed.
End HitRate.

(** * Resumptions leave the tiers alone *)

Section Schedules.
Context {T : Type} (jsonByteLength : T -> Z).
Implicit Types (s : State T) (o : Op T) (ev : Event T).

Lemma same_tiers_refl s : same_tiers s s.
Proof. repeat split. Qed.

Lemma same_tiers_trans s1 s2 s3 :
  same_tiers s1 s2 -> same_tiers s2 s3 -> same_tiers s1 s3.
Proof.
  intros (H1 & H2 & H3 & H4) (H1' & H2' & H3' & H4').
  repeat split; congruence.
Qed.

Lemma same_tiers_resume s : same_tiers (resume s) s.
Proof. destruct (resume_tiers s) as (H1 & H2 & H3 & H4). now repeat split. Qed.

(** No public call looks at the snapshot or at the waiting calls. *)
Lemma same_tiers_step o s s' :
  same_tiers s s' ->
  same_tiers (step jsonByteLength o s) (step jsonByteLength o s').
Proof.
  destruct s as [d m h mi st pd], s' as [d' m' h' mi' st' pd'].
  unfold same_tiers. cbn. intros (<- & <- & <- & <-).
  destruct o as [now k v ttl ty|now k|now k|k| |now nowDb]; cbn [step].
  - unfold_ops. cbn_state.
    destruct (calculateSize jsonByteLength v <? 1024 * 1024);
      unfold enforceMemoryLimit; cbn_state;
      repeat match goal with
             | |- context [if ?b then _ else _] => destruct b; cbn_state
             end;
      destruct d; simpl_state; repeat split.
  - unfold_ops. cbn_state.
    destruct (unexpired now (map_get k m)); [repeat split|].
    destruct d as [store|]; cbn_state.
    + destruct (unexpired now (store !! k)) as [e0|]; [|repeat split].
      destruct ((accessCount (touch now e0) >? 2)
                && (size (metadata (touch now e0)) <? 1024 * 1024));
        unfold enforceMemoryLimit; cbn_state;
        repeat match goal with
               | |- context [if ?b then _ else _] => destruct b; cbn_state
               end;
        repeat split.
    + repeat split.
  - rewrite !has_snd. unfold_ops. cbn_state.
    destruct (unexpired now (map_get k m)); [repeat split|].
    destruct d as [store|]; cbn_state.
    + destruct (unexpired now (store !! k)) as [e0|]; [|repeat split].
      destruct ((accessCount (touch now e0) >? 2)
                && (size (metadata (touch now e0)) <? 1024 * 1024));
        unfold enforceMemoryLimit; cbn_state;
        repeat match goal with
               | |- context [if ?b then _ else _] => destruct b; cbn_state
               end;
        repeat split.
    + repeat split.
  - unfold_ops. destruct d; simpl_state; repeat split.
  - unfold_ops. destruct d; simpl_state; repeat split.
  - unfold_ops. destruct d; simpl_state; repeat split.
Qed.

(** However the waiting [updateStats] calls resume between the public
    calls of a schedule, both tiers and both counters end as the calls
    alone leave them. *)
Lemma schedule_same_tiers evs s s' :
  same_tiers s s' ->
  same_tiers (schedule jsonByteLength evs s)
             (run jsonByteLength (calls evs) s').
Proof.
  revert s s'. induction evs as [|[o|] evs IH]; intros s s' Hs.
  - exact Hs.
  - cbn [calls]. unfold schedule, run in *. cbn [fold_left occur].
    apply IH. now apply same_tiers_step.
  - cbn [calls]. unfold schedule in *. cbn [fold_left occur].
    apply IH. eapply same_tiers_trans; [apply same_tiers_resume | exact Hs].
Qed.

(** X19: the resumption of an [updateStats] call changes nothing but
    the published snapshot.  However the waiting calls resume between
    the public calls of a schedule, the memory map, the object store and
    both counters end exactly as the public calls alone leave them. *)
Theorem resumptions_leave_the_tiers_alone evs s :
  same_tiers (schedule jsonByteLength evs s)
             (run jsonByteLength (calls evs) s).
Proof. apply schedule_same_tiers, same_tiers_refl. Qed.
End Schedules.

(** * The size ceiling *)

Section Ceiling.
Context {T : Type} (jsonByteLength : T -> Z).
Hypothesis jsonByteLength_nonneg : forall v, 0 <= jsonByteLength v.
Implicit Types (m : MemoryMap T) (e : CacheEntry T) (k : string)
  (s : State T).

Lemma calculateSize_nonneg d : 0 <= calculateSize jsonByteLength d.
Proof. destruct d; simpl; [apply jsonByteLength_nonneg | lia]. Qed.

Lemma usage_map_set_same k e e' m :
  map_get k m = Some e ->
  size (metadata e') = size (metadata e) ->
  calculateMemoryUsage (map_set k e' m) = calculateMemoryUsage m.
Proof.
  intros Hget Hsize. induction m as [|[k1 e1] r IH]; [discriminate|].
  simpl in Hget |- *. destruct (String.eqb_spec k1 k) as [->|Hne].
  - injection Hget as ->. rewrite !calculateMemoryUsage_cons. lia.
  - rewrite !calculateMemoryUsage_cons, IH by exact Hget. reflexivity.
Qed.

Lemma usage_delete_keys_le ks m :
  sizes_nonneg m ->
  calculateMemoryUsage (delete_keys ks m) <= calculateMemoryUsage m.
Proof.
  revert m. induction ks as [|k ks IH]; intros m Hm; [simpl; lia|].
  rewrite delete_keys_cons.
  pose proof (usage_delete_le k m Hm).
  pose proof (IH _ (sizes_nonneg_delete k m Hm)). lia.
Qed.

Lemma sizes_nonneg_enforce s :
  sizes_nonneg (memoryCache s) ->
  sizes_nonneg (memoryCache (enforceMemoryLimit s)).
Proof. intros H p Hp. apply H. now apply enforceMemoryLimit_In. Qed.

Lemma within_ceiling_get now k s :
  within_ceiling s -> within_ceiling (snd (get no_faults now k s)).
Proof.
  intros [Hle [Hmem Hdb]].
  destruct (get_cases now k s)
    as [[e1 [Hm ->]] | [[Hm [e0 [Hd ->]]] | [Hm [Hd ->]]]]; simpl_state.
  - apply unexpired_Some in Hm as [Hm _].
    split; [|split]; simpl_state.
    + now rewrite (usage_map_set_same k e1).
    + apply sizes_nonneg_set; [|exact Hmem].
      apply (Hmem (k, e1)). now apply map_get_In.
    + exact Hdb.
  - apply unexpired_Some in Hd as [Hd _].
    pose proof (Hdb k e0 Hd) as He0.
    split; [|split].
    + rewrite after_db_hit_memoryCache.
      destruct ((accessCount e0 + 1 >? 2)
                && (size (metadata e0) <? 1024 * 1024));
        [apply enforceMemoryLimit_bound | exact Hle].
    + rewrite after_db_hit_memoryCache.
      destruct ((accessCount e0 + 1 >? 2)
                && (size (metadata e0) <? 1024 * 1024)); [|exact Hmem].
      apply sizes_nonneg_enforce. simpl_state.
      now apply sizes_nonneg_set.
    + intros k1 e1. unfold db_get in *. rewrite after_db_hit_db.
      destruct (db s) as [store|]; [|discriminate]. simpl.
      destruct (decide (key e0 = k1)) as [<-|Hne].
      * rewrite lookup_insert_eq. now intros [= <-].
      * rewrite lookup_insert_ne by exact Hne. apply Hdb.
  - split; [|split]; assumption.
Qed.

(** From a state within the ceiling, every public call ends within it. *)
Lemma within_ceiling_step o s :
  within_ceiling s -> within_ceiling (step jsonByteLength o s).
Proof.
  destruct o as [now k d ttl ty|now k|now k|k| |now nowDb]; cbn [step].
  - intros [Hle [Hmem Hdb]]. split; [|split].
    + rewrite set_memoryCache.
      destruct (calculateSize jsonByteLength d <? 1024 * 1024);
        [apply enforceMemoryLimit_bound | exact Hle].
    + rewrite set_memoryCache.
      destruct (calculateSize jsonByteLength d <? 1024 * 1024);
        [|exact Hmem].
      apply sizes_nonneg_enforce. simpl_state.
      apply sizes_nonneg_set; [apply calculateSize_nonneg | exact Hmem].
    + intros k1 e1. unfold db_get in *. rewrite set_db.
      destruct (db s) as [store|]; [|discriminate]. simpl.
      destruct (decide (k = k1)) as [<-|Hne].
      * rewrite lookup_insert_eq. intros [= <-]. apply calculateSize_nonneg.
      * rewrite lookup_insert_ne by exact Hne. apply Hdb.
  - apply within_ceiling_get.
  - rewrite has_snd. apply within_ceiling_get.
  - intros [Hle [Hmem Hdb]]. split; [|split].
    + rewrite delete_memoryCache.
      pose proof (usage_delete_le k _ Hmem). lia.
    + rewrite delete_memoryCache. now apply sizes_nonneg_delete.
    + intros k1 e1. unfold db_get in *. rewrite delete_db.
      destruct (db s) as [store|]; [|discriminate]. simpl.
      intros He. apply lookup_delete_Some in He as [_ He]. now apply (Hdb k1).
  - intros [Hle [Hmem Hdb]].
    destruct s as [[store|] m h mi st pd]; (split; [|split]);
      try (vm_compute; discriminate); try (intros p []);
      intros k1 e1; unfold db_get; simpl; discriminate.
  - intros [Hle [Hmem Hdb]]. split; [|split].
    + rewrite cleanup_memoryCache.
      pose proof (usage_delete_keys_le
                    (expired_keys now (memoryCache s)) _ Hmem). lia.
    + rewrite cleanup_memoryCache. intros p Hp. apply Hmem.
      now apply delete_keys_In in Hp.
    + intros k1 e1. unfold db_get in *. rewrite cleanup_db.
      destruct (db s) as [store|]; [|discriminate]. simpl.
      intros He. apply map_lookup_filter_Some in He as [He _].
      now apply (Hdb k1).
Qed.

Lemma within_ceiling_run ops s :
  within_ceiling s -> within_ceiling (run jsonByteLength ops s).
Proof.
  revert s. induction ops as [|o ops IH]; intros s Hs; [exact Hs|].
  apply IH. now apply within_ceiling_step.
Qed.
End Ceiling.

(** * Failing IndexedDB requests *)

Section Failures.
Context {T : Type} (jsonByteLength : T -> Z).
Implicit Types (m : MemoryMap T) (e : CacheEntry T) (k : string)
  (s : State T) (f : Faults).

(** With the store open, a failing [put] rejects [set]. *)
Lemma set_rejects_when_put_fails f now k d ttl ty s :
  db s <> None -> putFails f = true ->
  fst (set jsonByteLength f now k d ttl ty s) = Rejected.
Proof.
  intros Hdb Hf. unfold_ops. simpl_state.
  destruct (calculateSize jsonByteLength d <? 1024 * 1024);
    rewrite ?enforceMemoryLimit_db; simpl_state;
    destruct (db s); [|congruence| |congruence]; now rewrite Hf.
Qed.

(** With the store open, a failing read rejects a [get] the memory map
    cannot serve. *)
Lemma get_rejects_when_read_fails f now k s :
  db s <> None -> getFails f = true ->
  unexpired now (map_get k (memoryCache s)) = None ->
  get f now k s = (Rejected, s).
Proof.
  intros Hdb Hf Hm. unfold get. rewrite Hm. unfold_ops.
  destruct (db s); [|congruence]. now rewrite Hf.
Qed.

Lemma delete_rejects_when_delete_fails f k s :
  db s <> None -> deleteFails f = true ->
  fst (delete f k s) = Rejected.
Proof.
  intros Hdb Hf. unfold_ops. simpl_state.
  destruct (db s); [|congruence]. now rewrite Hf.
Qed.

(** With [db] still [null] every request is skipped and nothing rejects. *)
Lemma memory_only_calls_resolve f now k d ttl ty s :
  db s = None ->
  fst (set jsonByteLength f now k d ttl ty s) = Resolved tt
  /\ (exists r, fst (get f now k s) = Resolved r)
  /\ fst (delete f k s) = Resolved tt.
Proof.
  intros Hdb. repeat split.
  - unfold_ops. simpl_state.
    destruct (calculateSize jsonByteLength d <? 1024 * 1024);
      rewrite ?enforceMemoryLimit_db; simpl_state; now rewrite Hdb.
  - unfold_ops.
    destruct (unexpired now (map_get k (memoryCache s))); simpl; eauto.
    rewrite Hdb. simpl. eauto.
  - unfold_ops. simpl_state. now rewrite Hdb.
Qed.

Lemma updateStats_memory_only f s :
  db s = None -> updateStats f s = updateStats no_faults s.
Proof. intros Hdb. unfold updateStats, capture. now rewrite Hdb. Qed.

Lemma memory_only_ignores_faults f now k d ttl ty s :
  db s = None ->
  set jsonByteLength f now k d ttl ty s
  = set jsonByteLength no_faults now k d ttl ty s
  /\ get f now k s = get no_faults now k s
  /\ delete f k s = delete no_faults k s.
Proof.
  intros Hdb. split; [|split].
  - unfold set, await, setInIndexedDB. simpl_state.
    destruct (calculateSize jsonByteLength d <? 1024 * 1024);
      rewrite ?enforceMemoryLimit_db; simpl_state; rewrite Hdb;
      rewrite (updateStats_memory_only f);
      rewrite ?enforceMemoryLimit_db; auto.
  - unfold get, await, getFromIndexedDB, setInIndexedDB.
    destruct (unexpired now (map_get k (memoryCache s)));
      [reflexivity|]. now rewrite Hdb.
  - unfold delete, await, deleteFromIndexedDB. simpl_state.
    rewrite Hdb. now rewrite (updateStats_memory_only f).
Qed.

Lemma set_memoryCache_any_faults f now k d ttl ty s :
  memoryCache (snd (set jsonByteLength f now k d ttl ty s))
  = memoryCache (snd (set jsonByteLength no_faults now k d ttl ty s)).
Proof.
  unfold_ops. simpl_state.
  destruct (calculateSize jsonByteLength d <? 1024 * 1024);
    rewrite ?enforceMemoryLimit_db; simpl_state;
    destruct (db s); destruct (putFails f); simpl_state; reflexivity.
Qed.

(** C6 (as amended): while [db] is [null] (the store never opened) every
    durable request is skipped, so [set], [get] and [delete] behave as if
    nothing failed and resolve.  With the store open a failing request
    rejects the call: [set] rejects after its memory write, which stays;
    [get] rejects unless the memory map serves the key, in which case the
    store is not consulted; [delete] rejects after removing the memory
    copy. *)
Theorem C6_store_failures_reach_the_caller f now k d ttl ty s :
  (db s = None ->
     set jsonByteLength f now k d ttl ty s
     = set jsonByteLength no_faults now k d ttl ty s
     /\ get f now k s = get no_faults now k s
     /\ delete f k s = delete no_faults k s
     /\ fst (set jsonByteLength f now k d ttl ty s) = Resolved tt
     /\ (exists r, fst (get f now k s) = Resolved r)
     /\ fst (delete f k s) = Resolved tt)
  /\ (db s <> None ->
        (putFails f = true ->
           fst (set jsonByteLength f now k d ttl ty s) = Rejected
           /\ memoryCache (snd (set jsonByteLength f now k d ttl ty s))
              = memoryCache
                  (snd (set jsonByteLength no_faults now k d ttl ty s)))
        /\ (getFails f = true ->
              unexpired now (map_get k (memoryCache s)) = None ->
              get f now k s = (Rejected, s))
        /\ (deleteFails f = true ->
              fst (delete f k s) = Rejected
              /\ memoryCache (snd (delete f k s))
                 = map_delete k (memoryCache s)))
  /\ (forall e,
        unexpired now (map_get k (memoryCache s)) = Some e ->
        fst (get f now k s) = Resolved (data e)).
Proof.
  split; [|split].
  - intros Hdb.
    destruct (memory_only_calls_resolve f now k d ttl ty s Hdb)
      as [Hset [Hget Hdel]].
    destruct (memory_only_ignores_faults f now k d ttl ty s Hdb)
      as [Hset' [Hget' Hdel']].
    repeat split; assumption.
  - intros Hdb. split; [|split].
    + intros Hf. split.
      * now apply set_rejects_when_put_fails.
      * apply set_memoryCache_any_faults.
    + intros Hf Hm. now apply get_rejects_when_read_fails.
    + intros Hf. split.
      * now apply delete_rejects_when_delete_fails.
      * unfold delete, await, deleteFromIndexedDB. simpl_state.
        destruct (db s); [|congruence]. now rewrite Hf.
  - intros e He. now rewrite (get_memory_hit f now k s e He).
Qed.
End Failures.

(** * Sample runs, evaluated *)

Example fifty_entries_usage :
  calculateMemoryUsage (memoryCache fifty_entries) = 52428750.
Proof. vm_compute. reflexivity. Qed.

(** ** Write-through *)

(** C1, counterexample: the store never opened, a payload of 1 MiB is set
    with a ttl of 1000; [set] resolves, yet the next [get], long before the
    ttl has run out, resolves with [null]: the payload was kept nowhere. *)
Lemma C1_set_without_store_is_not_retained :
  fst (set xs_length no_faults 0 "k" (Some 1048576%N) 1000 "analysis"
           memory_only) = Resolved tt
  /\ fst (get no_faults 1 "k"
            (snd (set xs_length no_faults 0 "k" (Some 1048576%N) 1000
                      "analysis" memory_only)))
     <> Resolved (Some 1048576%N).
Proof. vm_compute. split; [reflexivity | discriminate]. Qed.

(** With the store open: a 1 MiB payload set over a small resident one
    reaches the object store only, and [get] keeps answering with the old
    payload from the memory map. *)
Example large_set_leaves_the_old_memory_copy :
  let s1 := step xs_length (OpSet 0 "k" (Some 5%N) 1000 "analysis") opened in
  let s2 := step xs_length (OpSet 1 "k" (Some 1048576%N) 1000 "analysis") s1 in
  fst (get no_faults 2 "k" s2) = Resolved (Some 5%N)
  /\ option_map data (db_get "k" s2) = Some (Some 1048576%N).
Proof. vm_compute. split; reflexivity. Qed.

(** The set entry is evicted from the memory map by fifty later calls. *)
Example crowding_calls_evict_a :
  let s := run xs_length crowding_calls
               (snd (set xs_length no_faults 1 "a" (Some 1048573%N)
                         DEFAULT_TTL "analysis" opened)) in
  map_get "a" (memoryCache s) = None
  /\ calculateMemoryUsage (memoryCache s) = 52428750.
Proof. vm_compute. split; reflexivity. Qed.

Lemma C1_witness :
  fst (get no_faults 500 "a"
         (run xs_length crowding_calls
            (snd (set xs_length no_faults 1 "a" (Some 1048573%N)
                      DEFAULT_TTL "analysis" opened))))
  = Resolved (Some 1048573%N).
Proof.
  apply (C1_write_through_while_store_answers xs_length opened ∅).
  - reflexivity.
  - intros k e He. rewrite lookup_empty in He. discriminate.
  - left. vm_compute. reflexivity.
  - unfold crowding_calls. simpl.
    repeat (constructor; [simpl; discriminate|]). constructor.
  - vm_compute. reflexivity.
Defined.

(** ** Expiry *)


(** C8, counterexample: the entry expired at time 10 is still in the memory
    map and in the object store after the [get] at time 20. *)
Lemma C8_get_keeps_the_expired_entry :
  map_get "k" (memoryCache with_expired_k) <> None
  /\ db_get "k" with_expired_k <> None
  /\ map_get "k" (memoryCache (snd (get no_faults 20 "k" with_expired_k)))
     <> None
  /\ db_get "k" (snd (get no_faults 20 "k" with_expired_k)) <> None.
Proof. vm_compute. repeat split; discriminate. Qed.

Lemma C8_witness :
  memoryCache (snd (get no_faults 20 "k" with_expired_k))
  = memoryCache with_expired_k
  /\ db (snd (get no_faults 20 "k" with_expired_k)) = db with_expired_k
  /\ map_get "k" (memoryCache
                    (snd (cleanup no_faults 20 21
                            (snd (get no_faults 20 "k" with_expired_k)))))
     = None
  /\ db_get "k" (snd (cleanup no_faults 20 21
                        (snd (get no_faults 20 "k" with_expired_k)))) = None.
Proof.
  apply C8_expired_entry_stays_until_cleanup.
  - intros e He. vm_compute in He. injection He as <-. simpl. lia.
  - intros e He. vm_compute in He. injection He as <-. simpl. lia.
  - lia.
Defined.

(** ** Eviction *)

(** C4, counterexample: [a] and [b] were last accessed at the same time,
    [a] twice and [b] once; the 51st entry pushes the map over the ceiling
    and it is [a], the one with the higher [accessCount], that goes, while
    [b] stays. *)
Lemma C4_tie_is_not_broken_by_accessCount :
  ~ spec_eviction_order fifty_one_entries.
Proof.
  intros Hspec.
  assert (Ha : exists ea, map_get "a" (memoryCache fifty_one_entries) = Some ea
                          /\ lastAccessed ea = 5 /\ accessCount ea = 2).
  { eexists. vm_compute. repeat split. }
  assert (Hb : exists eb,
             map_get "b" (memoryCache (enforceMemoryLimit fifty_one_entries))
             = Some eb
             /\ lastAccessed eb = 5 /\ accessCount eb = 1).
  { eexists. vm_compute. repeat split. }
  destruct Ha as [ea [Ha [Hla Hca]]]. destruct Hb as [eb [Hb [Hlb Hcb]]].
  assert (Hgone :
            map_get "a" (memoryCache (enforceMemoryLimit fifty_one_entries))
            = None) by (vm_compute; reflexivity).
  specialize (Hspec "a" ea "b" eb (map_get_In _ _ _ Ha) Hgone
                    (map_get_In _ _ _ Hb)).
  unfold spec_evicts_before in Hspec. lia.
Qed.

(** The evicted entry is still in the object store. *)
Example evicted_entry_stays_durable :
  db_get "a" (enforceMemoryLimit fifty_one_entries)
  = db_get "a" fifty_one_entries
  /\ db_get "a" fifty_one_entries <> None.
Proof. vm_compute. split; [reflexivity | discriminate]. Qed.

(** ** Promotion *)

Lemma C5_witness :
  (fst (get no_faults 101 "k" reloaded_with_k) = Resolved (Some 5%N)
   /\ map_get "k" (memoryCache (get_repeatedly [101] "k" reloaded_with_k))
      = None
   /\ fst (get no_faults 102 "k" (get_repeatedly [101] "k" reloaded_with_k))
      = Resolved (Some 5%N)
   /\ map_get "k" (memoryCache
                     (get_repeatedly [101; 102] "k" reloaded_with_k)) = None
   /\ fst (get no_faults 103 "k"
             (get_repeatedly [101; 102] "k" reloaded_with_k))
      = Resolved (Some 5%N)
   /\ exists e3,
        map_get "k" (memoryCache
                       (get_repeatedly [101; 102; 103] "k" reloaded_with_k))
        = Some e3
        /\ data e3 = Some 5%N /\ accessCount e3 = 3)
  /\ memoryCache (get_repeatedly [1; 2; 3; 4] (slot 0) first_session)
     = memoryCache first_session.
Proof.
  split.
  - refine (proj1 (C5_promotion_on_third_durable_read
                     "k" reloaded_with_k
                     (new_entry xs_length 30 "k" (Some 5%N) DEFAULT_TTL
                                "analysis") _ _ _)
                  _ _ 101 102 103 _ _ _ _ _);
      try (vm_compute; reflexivity).
    + vm_compute. repeat constructor; simpl; intuition discriminate.
    + vm_compute. repeat (constructor; [discriminate|]). constructor.
  - refine (proj2 (C5_promotion_on_third_durable_read
                     (slot 0) first_session
                     (new_entry xs_length 1 (slot 0) (Some 3145728%N)
                                DEFAULT_TTL "analysis") _ _ _)
                  _ [1; 2; 3; 4]);
      vm_compute; first [reflexivity | discriminate].
Defined.

(** ** The [null] payload *)

Lemma C10_witness :
  let s1 := snd (set xs_length no_faults 0 "k" None 1000 "analysis" opened) in
  fst (get no_faults 5 "k" s1) = Resolved None
  /\ hitCount (snd (get no_faults 5 "k" s1)) = hitCount s1 + 1
  /\ missCount (snd (get no_faults 5 "k" s1)) = missCount s1
  /\ fst (has no_faults 5 "k" s1) = Resolved false
  /\ forall s', live 5 "k" s' = false ->
       fst (get no_faults 5 "k" s') = fst (get no_faults 5 "k" s1)
       /\ fst (has no_faults 5 "k" s') = fst (has no_faults 5 "k" s1).
Proof.
  apply (C10_null_payload_reads_as_absent xs_length opened "k" 1000
           "analysis" 0 5).
  - lia.
  - left. discriminate.
Defined.

(** ** The hit rate *)

(** C7, counterexample: after [clear()], one [set] and one [get] that
    hits, the specification's words give a hit rate of 1.  The
    [updateStats] of [clear] resumes while [set] waits for its write; if
    the one of [set] resumes after the [get], which the memory map serves
    without waiting, it publishes 100, and if it resumes before the [get]
    it publishes 0 and nothing is published after the [get]. *)
Lemma C7_published_rate_is_not_the_fraction :
  hitRate (statsSubject
             (schedule xs_length
                [Resume; Call (OpSet 0 "k" (Some 5%N) 1000 "analysis");
                 Call (OpGet 1 "k"); Resume]
                (step xs_length OpClear (settle opened))))
  = js_number 100
  /\ ~ spec_hit_rate xs_length
        [Resume; Call (OpSet 0 "k" (Some 5%N) 1000 "analysis");
         Call (OpGet 1 "k"); Resume] (settle opened)
  /\ hitRate (statsSubject
                (schedule xs_length
                   [Resume; Call (OpSet 0 "k" (Some 5%N) 1000 "analysis");
                    Resume; Call (OpGet 1 "k")]
                   (step xs_length OpClear (settle opened))))
     = js_number 0
  /\ ~ spec_hit_rate xs_length
        [Resume; Call (OpSet 0 "k" (Some 5%N) 1000 "analysis");
         Resume; Call (OpGet 1 "k")] (settle opened).
Proof.
  split; [vm_compute; reflexivity|].
  split; [intros H; vm_compute in H; discriminate|].
  split; [vm_compute; reflexivity|].
  intros H; vm_compute in H; discriminate.
Qed.

(** Two hits and one miss after a [clear()] with the store open: [get]
    and [delete] publish nothing before they return, the [updateStats] of
    the [set] is still waiting and publishes, when it resumes,
    66.66666666666666, the double [(2 / 3) * 100].  One hit and one miss
    with no store: [delete] publishes 50 before it returns. *)
Lemma C7_witness :
  let evs := [Resume; Call (OpSet 0 "k" (Some 5%N) 1000 "analysis");
              Call (OpGet 1 "k"); Call (OpGet 2 "missing");
              Call (OpHas 3 "k")] in
  let s := schedule xs_length evs (step xs_length OpClear (settle opened)) in
  let evs' := [Call (OpSet 0 "k" (Some 5%N) 1000 "analysis");
               Call (OpGet 1 "k"); Call (OpGet 2 "missing")] in
  let s' := schedule xs_length evs' (step xs_length OpClear memory_only) in
  hitCount s = 2 /\ missCount s = 1
  /\ statsSubject (step xs_length (OpGet 4 "k") s) = statsSubject s
  /\ statsSubject (step xs_length (OpDelete "other") s) = statsSubject s
  /\ hitRate (statsSubject (resume s))
     = SpecFloat.S754_finite false 4691249611844266 (-46)
  /\ hitRate (statsSubject (settle (step xs_length OpClear s)))
     = SpecFloat.S754_zero false
  /\ hitRate (statsSubject (step xs_length (OpDelete "other") s'))
     = js_number 50.
Proof.
  intros evs s evs' s'.
  destruct (C7_hit_rate_is_a_percentage_published_on_mutation
              xs_length (settle opened) evs (OpDelete "other")
              eq_refl eq_refl)
    as (Hh & Hm & Hget & _ & Hwait & Hresume & _ & _ & _ & Hclear).
  destruct (C7_hit_rate_is_a_percentage_published_on_mutation
              xs_length memory_only evs' (OpDelete "other")
              eq_refl eq_refl)
    as (_ & _ & _ & Hnow & _).
  split; [exact Hh|]. split; [exact Hm|].
  split; [apply Hget|]. split; [|split; [|split]].
  - apply Hwait. vm_compute. discriminate.
  - etransitivity; [apply Hresume; vm_compute; discriminate|].
    vm_compute. reflexivity.
  - exact Hclear.
  - etransitivity; [apply Hnow; vm_compute; reflexivity|].
    vm_compute. reflexivity.
Defined.

(** ** The size ceiling *)

(** C3, failing run: twenty payloads of 3 MiB were stored by an earlier
    session; [loadMemoryCache] puts all twenty into the memory map without
    looking at their size, 62914600 bytes against a ceiling of 52428800, and
    the memory map is still above the ceiling after a [get], a [delete], a
    [cleanup] and a [set] of another 3 MiB payload. *)
Theorem C3_reload_fills_memory_beyond_the_ceiling :
  calculateMemoryUsage (memoryCache reloaded) = 62914600
  /\ maxSize = 52428800
  /\ maxSize < calculateMemoryUsage
                 (memoryCache (step xs_length (OpGet 101 (slot 0)) reloaded))
  /\ maxSize < calculateMemoryUsage
                 (memoryCache (step xs_length (OpDelete "absent") reloaded))
  /\ maxSize < calculateMemoryUsage
                 (memoryCache (step xs_length (OpCleanup 102 102) reloaded))
  /\ maxSize < calculateMemoryUsage
                 (memoryCache
                    (step xs_length
                       (OpSet 103 "big" (Some 3145728%N) DEFAULT_TTL
                              "analysis") reloaded)).
Proof. vm_compute. repeat split. Qed.

(** Within one session the ceiling holds: from the freshly opened service
    every sequence of public calls stays at or below it. *)
Example one_session_stays_within_the_ceiling (ops : list (Op N)) :
  calculateMemoryUsage (memoryCache (run xs_length ops opened)) <= maxSize.
Proof.
  apply (within_ceiling_run xs_length).
  - intros v. unfold xs_length. lia.
  - split; [vm_compute; discriminate|]. split.
    + intros p [].
    + intros k e He. vm_compute in He. discriminate.
Qed.

(** ** Failing requests *)

(** C6, counterexample: with the store open, a [put] that fails rejects
    [set] (the memory write stays), a read that fails rejects [get], and a
    [delete] request that fails rejects [delete]. *)
Lemma C6_failed_request_rejects_the_call :
  fst (set xs_length put_fails 0 "k" (Some 5%N) 1000 "analysis" opened)
  = Rejected
  /\ map_get "k"
       (memoryCache
          (snd (set xs_length put_fails 0 "k" (Some 5%N) 1000 "analysis"
                    opened)))
     = Some (new_entry xs_length 0 "k" (Some 5%N) 1000 "analysis")
  /\ fst (get get_fails 1 "k" opened) = Rejected
  /\ fst (delete delete_fails "k" opened) = Rejected.
Proof. vm_compute. repeat split. Qed.

Lemma C6_witness :
  (fst (set xs_length every_request_fails 0 "k" (Some 5%N) 1000 "analysis"
            memory_only) = Resolved tt
   /\ (exists r, fst (get every_request_fails 0 "k" memory_only) = Resolved r)
   /\ fst (delete every_request_fails "k" memory_only) = Resolved tt)
  /\ (fst (set xs_length every_request_fails 0 "k" (Some 5%N) 1000
                "analysis" opened) = Rejected
      /\ get every_request_fails 0 "k" opened = (Rejected, opened)
      /\ fst (delete every_request_fails "k" opened) = Rejected).
Proof.
  destruct (C6_store_failures_reach_the_caller
              xs_length every_request_fails 0 "k" (Some 5%N) 1000 "analysis"
              memory_only) as [Hnull _].
  destruct (C6_store_failures_reach_the_caller
              xs_length every_request_fails 0 "k" (Some 5%N) 1000 "analysis"
              opened) as [_ [Hopen _]].
  destruct (Hnull eq_refl) as (_ & _ & _ & Hset & Hget & Hdel).
  destruct (Hopen ltac:(discriminate)) as (Hput & Hread & Hrm).
  split; [split; [exact Hset | split; [exact Hget | exact Hdel]]|].
  split; [exact (proj1 (Hput eq_refl))|].
  split; [exact (Hread eq_refl eq_refl) | exact (proj1 (Hrm eq_refl))].
Defined.

(** * Cache keys *)

Lemma ToInt32_range z : - 2 ^ 31 <= ToInt32 z < 2 ^ 31.
Proof.
  unfold ToInt32.
  pose proof (Z.mod_pos_bound (z + 2 ^ 31) (2 ^ 32) ltac:(lia)). lia.
Qed.

Lemma ToInt32_mod z : ToInt32 z mod 2 ^ 32 = z mod 2 ^ 32.
Proof.
  unfold ToInt32.
  rewrite Zminus_mod_idemp_l. f_equal. lia.
Qed.

Lemma ToInt32_congr a b : a mod 2 ^ 32 = b mod 2 ^ 32 -> ToInt32 a = ToInt32 b.
Proof.
  intros H. unfold ToInt32.
  rewrite (Zplus_mod a), (Zplus_mod b), H. reflexivity.
Qed.

Lemma ToInt32_idem z : ToInt32 (ToInt32 z) = ToInt32 z.
Proof. apply ToInt32_congr, ToInt32_mod. Qed.

Lemma ToInt32_small z : - 2 ^ 31 <= z < 2 ^ 31 -> ToInt32 z = z.
Proof.
  intros H. unfold ToInt32. rewrite Z.mod_small; lia.
Qed.

(** One turn of the loop multiplies by 31 and adds the code unit, modulo
    [2^32]. *)
Lemma ToInt32_shift z : exists k, ToInt32 z = z + k * 2 ^ 32.
Proof.
  exists (- ((z + 2 ^ 31) / 2 ^ 32)). unfold ToInt32.
  rewrite Z.mod_eq by lia. lia.
Qed.

(** One turn of the loop multiplies by 31 and adds the code unit, modulo
    [2^32]. *)
Lemma hash_step_poly p c : hash_step (ToInt32 p) c = ToInt32 (31 * p + c).
Proof.
  unfold hash_step. rewrite Z.land_diag, ToInt32_idem, Z.shiftl_mul_pow2 by lia.
  apply ToInt32_congr.
  destruct (ToInt32_shift p) as [k Hk].
  destruct (ToInt32_shift (ToInt32 p * 2 ^ 5)) as [j Hj].
  rewrite Hj, Hk.
  replace ((p + k * 2 ^ 32) * 2 ^ 5 + j * 2 ^ 32 - (p + k * 2 ^ 32) + c)
    with (31 * p + c + (31 * k + j) * 2 ^ 32) by lia.
  apply Z_mod_plus_full.
Qed.

Lemma hash_loop_poly units p :
  fold_left hash_step units (ToInt32 p)
  = ToInt32 (fold_left (fun h c => 31 * h + c) units p).
Proof.
  revert p. induction units as [|c units IH]; intros p; [reflexivity|].
  simpl. rewrite hash_step_poly. apply IH.
Qed.

Lemma hash_units_poly units : hash_units units = ToInt32 (poly31 units).
Proof.
  unfold hash_units, poly31.
  change 0 with (ToInt32 0) at 1. apply hash_loop_poly.
Qed.

Lemma hash_units_range units : - 2 ^ 31 <= hash_units units < 2 ^ 31.
Proof. rewrite hash_units_poly. apply ToInt32_range. Qed.

(** X1: the loop of [hashString] computes the polynomial hash
    [c0 * 31^(n-1) + ... + c(n-1)] of the code units wrapped to a signed
    32-bit integer, so the hash always lies in [-2^31, 2^31). *)
Theorem hashString_loop_is_the_31_polynomial_mod_2_32 units :
  hash_units units = ToInt32 (poly31 units)
  /\ - 2 ^ 31 <= hash_units units < 2 ^ 31.
Proof. split; [apply hash_units_poly | apply hash_units_range]. Qed.

(** ** Base 36 *)

Lemma digit36_code d :
  0 <= d < 36 ->
  nat_of_ascii (digit36 d)
  = if d <? 10 then Z.to_nat (48 + d) else Z.to_nat (87 + d).
Proof.
  intros Hd. unfold digit36.
  destruct (d <? 10); apply nat_ascii_embedding; lia.
Qed.

Lemma digit36_is_digit d : 0 <= d < 36 -> is_digit36 (digit36 d) = true.
Proof.
  intros Hd. unfold is_digit36. rewrite digit36_code by exact Hd.
  destruct (Z.ltb_spec d 10).
  - rewrite (proj2 (Nat.leb_le 48 _)), (proj2 (Nat.leb_le _ 57)) by lia.
    reflexivity.
  - rewrite (proj2 (Nat.leb_le 97 _)), (proj2 (Nat.leb_le _ 122)) by lia.
    apply orb_true_r.
Qed.

Lemma val36_digit36 d : 0 <= d < 36 -> val36 (digit36 d) = d.
Proof.
  intros Hd. unfold val36. rewrite digit36_code by exact Hd.
  destruct (Z.ltb_spec d 10).
  - destruct (Z.ltb_spec (Z.of_nat (Z.to_nat (48 + d))) 58); lia.
  - destruct (Z.ltb_spec (Z.of_nat (Z.to_nat (87 + d))) 58); lia.
Qed.

Lemma radix36_digits fuel n acc :
  0 <= n ->
  all_chars is_digit36 acc = true ->
  all_chars is_digit36 (radix36 fuel n acc) = true.
Proof.
  revert n acc. induction fuel as [|fuel IH]; intros n acc Hn Hacc;
    [exact Hacc|].
  simpl.
  assert (Hacc' : all_chars is_digit36 (String (digit36 (n mod 36)) acc)
                  = true).
  { simpl. rewrite digit36_is_digit, Hacc; [reflexivity|].
    apply Z.mod_pos_bound. lia. }
  destruct (n / 36 =? 0); [exact Hacc'|].
  apply IH; [apply Z.div_pos; lia | exact Hacc'].
Qed.

Lemma radix36_grows fuel n acc :
  (String.length acc <= String.length (radix36 fuel n acc))%nat.
Proof.
  revert n acc. induction fuel as [|fuel IH]; intros n acc; simpl; [lia|].
  destruct (n / 36 =? 0); [simpl; lia|].
  specialize (IH (n / 36) (String (digit36 (n mod 36)) acc)). simpl in IH. lia.
Qed.

Lemma radix36_length fuel n acc k :
  0 <= n < 36 ^ Z.of_nat (S k) ->
  (String.length (radix36 fuel n acc) <= S k + String.length acc)%nat.
Proof.
  revert n acc k. induction fuel as [|fuel IH]; intros n acc k Hn; simpl;
    [lia|].
  destruct (Z.eqb_spec (n / 36) 0) as [Hz|Hnz]; [simpl; lia|].
  destruct k as [|k].
  - exfalso. apply Hnz. apply Z.div_small. simpl in Hn. lia.
  - specialize (IH (n / 36) (String (digit36 (n mod 36)) acc) k).
    simpl String.length in IH.
    assert (0 <= n / 36 < 36 ^ Z.of_nat (S k)).
    { split; [apply Z.div_pos; lia|].
      apply Z.div_lt_upper_bound; [lia|].
      replace (Z.of_nat (S (S k))) with (Z.of_nat (S k) + 1) in Hn by lia.
      rewrite Z.pow_add_r, Z.pow_1_r in Hn by lia. lia. }
    specialize (IH H). lia.
Qed.

(** Reading the digits back gives the number, when the fuel covers its
    binary length. *)
Lemma parse36_radix36 fuel n acc :
  0 <= n < 2 ^ Z.of_nat fuel ->
  parse36 (radix36 fuel n acc) 0 = parse36 acc n.
Proof.
  revert n acc. induction fuel as [|fuel IH]; intros n acc Hn.
  - simpl in *. assert (n = 0) as -> by lia. reflexivity.
  - simpl radix36.
    assert (Hmod : 0 <= n mod 36 < 36) by (apply Z.mod_pos_bound; lia).
    destruct (Z.eqb_spec (n / 36) 0) as [Hz|Hnz].
    + cbn [parse36]. rewrite val36_digit36 by exact Hmod.
      f_equal. pose proof (Z.div_mod n 36 ltac:(lia)). lia.
    + rewrite IH.
      * cbn [parse36]. rewrite val36_digit36 by exact Hmod.
        f_equal. pose proof (Z.div_mod n 36 ltac:(lia)). lia.
      * split; [apply Z.div_pos; lia|].
        apply Z.div_lt_upper_bound; [lia|].
        replace (Z.of_nat (S fuel)) with (Z.of_nat fuel + 1) in Hn by lia.
        rewrite Z.pow_add_r, Z.pow_1_r in Hn by lia. lia.
Qed.

Lemma parse36_toString36 n : 0 <= n -> parse36 (toString36 n) 0 = n.
Proof.
  intros Hn. unfold toString36. rewrite parse36_radix36; [reflexivity|].
  split; [exact Hn|].
  destruct (Z.eq_dec n 0) as [->|Hnz]; [simpl; lia|].
  rewrite Nat2Z.inj_succ, Z2Nat.id by apply Z.log2_nonneg.
  apply Z.log2_spec. lia.
Qed.

Lemma hashString_toString36 str :
  hashString str = toString36 (Z.abs (hash_units (charCodes str))).
Proof.
  unfold hashString. destruct str as [|c r]; reflexivity.
Qed.

Lemma hashString_digits str : all_chars is_digit36 (hashString str) = true.
Proof.
  rewrite hashString_toString36. unfold toString36.
  apply radix36_digits; [apply Z.abs_nonneg | reflexivity].
Qed.

Lemma hashString_length str :
  (1 <= String.length (hashString str) <= 6)%nat.
Proof.
  rewrite hashString_toString36.
  pose proof (hash_units_range (charCodes str)) as Hrange.
  set (n := Z.abs (hash_units (charCodes str))).
  assert (Hn : 0 <= n <= 2 ^ 31) by (unfold n; lia).
  unfold toString36. split.
  - simpl radix36.
    destruct (n / 36 =? 0); [simpl; lia|].
    pose proof (radix36_grows (Z.to_nat (Z.log2 n)) (n / 36)
                  (String (digit36 (n mod 36)) EmptyString)) as H.
    simpl in H. lia.
  - pose proof (radix36_length (S (Z.to_nat (Z.log2 n))) n EmptyString 5) as H.
    simpl String.length in H. rewrite Nat.add_0_r in H. apply H.
    split; [lia|]. change (36 ^ Z.of_nat 6) with 2176782336. lia.
Qed.

(** X2: whatever the string, [hashString] answers with one to six
    characters, all of them in [0-9a-z]: there is never a minus sign and
    never a separator in it. *)
Theorem hashString_is_a_short_base36_numeral str :
  all_chars is_digit36 (hashString str) = true
  /\ (1 <= String.length (hashString str) <= 6)%nat.
Proof. split; [apply hashString_digits | apply hashString_length]. Qed.

(** X3: two strings get the same hash text exactly when their 32-bit
    hashes agree up to the sign, which [Math.abs] drops. *)
Theorem hashString_collides_exactly_up_to_sign s1 s2 :
  hashString s1 = hashString s2
  <-> Z.abs (hash_units (charCodes s1)) = Z.abs (hash_units (charCodes s2)).
Proof.
  rewrite !hashString_toString36. split; [|now intros ->].
  intros H. apply (f_equal (fun s => parse36 s 0)) in H.
  now rewrite !parse36_toString36 in H by apply Z.abs_nonneg.
Qed.

(** ** [generateCacheKey] *)

Lemma append_nil_l (b : string) : String.append EmptyString b = b.
Proof. reflexivity. Qed.

Lemma append_cons x (a b : string) :
  String.append (String x a) b = String x (String.append a b).
Proof. reflexivity. Qed.

Lemma append_assoc (a b c : string) :
  String.append (String.append a b) c = String.append a (String.append b c).
Proof.
  induction a as [|x a IH]; [reflexivity|].
  now rewrite !append_cons, IH.
Qed.

Lemma free_of_append c a b :
  free_of c (String.append a b) = free_of c a && free_of c b.
Proof.
  induction a as [|x a IH]; [reflexivity|].
  rewrite append_cons. cbn [free_of]. now rewrite IH, andb_assoc.
Qed.

Lemma digits_free_of_colon s :
  all_chars is_digit36 s = true -> free_of ":" s = true.
Proof.
  induction s as [|c s IH]; cbn [all_chars free_of]; [reflexivity|].
  intros H. apply andb_prop in H as [Hc Hs]. rewrite IH by exact Hs.
  destruct (Ascii.eqb_spec c ":") as [->|_]; [discriminate | reflexivity].
Qed.

(** Two texts cut at their first separator agree piece by piece. *)
Lemma split_at_first c a a' r r' :
  free_of c a = true -> free_of c a' = true ->
  String.append a (String c r) = String.append a' (String c r') ->
  a = a' /\ r = r'.
Proof.
  revert a'. induction a as [|x a IH]; intros [|x' a'] Ha Ha' Heq;
    rewrite ?append_nil_l, ?append_cons in Heq; cbn [free_of] in *.
  - injection Heq as ->. now split.
  - injection Heq as <- _. rewrite Ascii.eqb_refl in Ha'. discriminate.
  - injection Heq as -> _. rewrite Ascii.eqb_refl in Ha. discriminate.
  - injection Heq as -> Heq.
    apply andb_prop in Ha as [_ Ha]. apply andb_prop in Ha' as [_ Ha'].
    destruct (IH a' Ha Ha' Heq) as [-> ->]. now split.
Qed.

Lemma concat_cons sep x y (r : list string) :
  String.concat sep (x :: y :: r)
  = String.append x (String.append sep (String.concat sep (y :: r))).
Proof. reflexivity. Qed.

Lemma concat_snoc sep (l : list string) h :
  l <> [] ->
  String.concat sep (l ++ [h])
  = String.append (String.concat sep l) (String.append sep h).
Proof.
  induction l as [|x [|y r] IH]; intros Hl; [congruence | reflexivity|].
  change ((x :: y :: r) ++ [h]) with (x :: y :: (r ++ [h])).
  rewrite !concat_cons.
  change (y :: r ++ [h]) with ((y :: r) ++ [h]).
  rewrite IH by discriminate. now rewrite !append_assoc.
Qed.

(** [join(':')] loses nothing on a non-empty list of texts without [:]. *)
Lemma concat_colon_injective (l1 l2 : list string) :
  l1 <> [] -> l2 <> [] ->
  Forall (fun s => free_of ":" s = true) l1 ->
  Forall (fun s => free_of ":" s = true) l2 ->
  String.concat ":" l1 = String.concat ":" l2 -> l1 = l2.
Proof.
  revert l2. induction l1 as [|x [|y r] IH]; intros l2 H1 H2 F1 F2 Heq;
    [congruence | |].
  - destruct l2 as [|x' [|y' r']]; [congruence | simpl in Heq; congruence |].
    exfalso. rewrite concat_cons in Heq. cbn [String.concat] in Heq.
    apply List.Forall_inv in F1. rewrite Heq, !free_of_append in F1.
    cbn [free_of Ascii.eqb Bool.eqb negb andb] in F1.
    rewrite andb_false_r in F1. discriminate.
  - destruct l2 as [|x' [|y' r']]; [congruence | |].
    + exfalso. rewrite concat_cons in Heq. cbn [String.concat] in Heq.
      apply List.Forall_inv in F2. rewrite <- Heq, !free_of_append in F2.
      cbn [free_of Ascii.eqb Bool.eqb negb andb] in F2.
      rewrite andb_false_r in F2. discriminate.
    + rewrite !concat_cons in Heq.
      pose proof (List.Forall_inv F1) as Hx.
      pose proof (List.Forall_inv F2) as Hx'.
      apply split_at_first in Heq as [-> Heq]; [|exact Hx|exact Hx'].
      f_equal. apply IH; try discriminate;
        [now apply List.Forall_inv_tail in F1
        |now apply List.Forall_inv_tail in F2 | exact Heq].
Qed.

Lemma generateCacheKey_concat prefix parts :
  parts <> [] ->
  generateCacheKey prefix parts
  = String.concat ":"
      (prefix :: parts ++ [hashString (String.concat "" parts)]).
Proof.
  intros Hp. unfold generateCacheKey.
  destruct parts as [|x r]; [congruence|].
  change (prefix :: (x :: r) ++ [hashString (String.concat "" (x :: r))])
    with (prefix :: x :: (r ++ [hashString (String.concat "" (x :: r))])).
  rewrite concat_cons.
  change (x :: r ++ [hashString (String.concat "" (x :: r))])
    with ((x :: r) ++ [hashString (String.concat "" (x :: r))]).
  now rewrite concat_snoc by discriminate.
Qed.

(** X4: as long as neither the prefixes nor the parts contain the
    separator [:], and there is at least one part, [generateCacheKey] is
    injective: equal keys come from the same prefix and the same parts. *)
Theorem generateCacheKey_injective_without_colons p1 p2 ps1 ps2 :
  free_of ":" p1 = true -> free_of ":" p2 = true ->
  Forall (fun s => free_of ":" s = true) ps1 ->
  Forall (fun s => free_of ":" s = true) ps2 ->
  ps1 <> [] -> ps2 <> [] ->
  generateCacheKey p1 ps1 = generateCacheKey p2 ps2 ->
  p1 = p2 /\ ps1 = ps2.
Proof.
  intros Hp1 Hp2 F1 F2 N1 N2 Heq.
  rewrite !generateCacheKey_concat in Heq by assumption.
  apply concat_colon_injective in Heq; try discriminate.
  - injection Heq as -> Heq. split; [reflexivity|].
    now apply app_inj_tail in Heq as [-> _].
  - constructor; [exact Hp1|]. apply Forall_app. split; [exact F1|].
    constructor; [|constructor].
    apply digits_free_of_colon, hashString_digits.
  - constructor; [exact Hp2|]. apply Forall_app. split; [exact F2|].
    constructor; [|constructor].
    apply digits_free_of_colon, hashString_digits.
Qed.

(** Without that proviso keys do collide: the parts [a:] and [b] give the
    key of the parts [a] and [:b], and no part at all gives the key of one
    empty part. *)
Example generateCacheKey_collisions :
  generateCacheKey "p" ["a:"; "b"] = generateCacheKey "p" ["a"; ":b"]
  /\ generateCacheKey "p" [] = generateCacheKey "p" [""].
Proof. vm_compute. split; reflexivity. Qed.

Lemma generateCacheKey_injective_witness :
  "analysis" = "analysis" /\ ["text"; "42"] = ["text"; "42"].
Proof.
  apply (generateCacheKey_injective_without_colons
           "analysis" "analysis" ["text"; "42"] ["text"; "42"]);
    try reflexivity; try discriminate; repeat constructor.
Defined.

(** * What a read returns after the other calls *)

Section Reads.
Context {T : Type} (jsonByteLength : T -> Z).
Implicit Types (m : MemoryMap T) (e : CacheEntry T) (k : string)
  (s : State T).

(** With the store answering, [get] resolves with the payload of the
    entry that serves the key, or with [null]. *)
Lemma get_answer now k s :
  fst (get no_faults now k s) = Resolved (answer (serving now k s)).
Proof.
  unfold serving.
  destruct (get_cases now k s)
    as [[e1 [Hm ->]] | [[Hm [e0 [Hd ->]]] | [Hm [Hd ->]]]];
    rewrite Hm, ?Hd; reflexivity.
Qed.

Lemma getAll_empty : getAll (∅ : ObjectStore T) = [].
Proof. unfold getAll. now rewrite map_to_list_empty. Qed.

(** X5: when [clear] resolves, both tiers are empty, both counters are
    zero and every later [get] resolves with [null]; the snapshot its
    [updateStats] publishes, before [clear] returns when there is no
    store, and when it resumes with nothing in between otherwise, is the
    all-zero one the service starts with. *)
Theorem clear_leaves_nothing_to_read s :
  fst (clear no_faults s) = Resolved tt
  /\ memoryCache (snd (clear no_faults s)) = []
  /\ (forall k, db_get k (snd (clear no_faults s)) = None)
  /\ hitCount (snd (clear no_faults s)) = 0
  /\ missCount (snd (clear no_faults s)) = 0
  /\ (db s = None ->
      statsSubject (snd (clear no_faults s))
      = statsSubject (initial : State T))
  /\ (db s <> None ->
      statsSubject (settle (snd (clear no_faults s)))
      = statsSubject (initial : State T))
  /\ forall now k,
       fst (get no_faults now k (snd (clear no_faults s))) = Resolved None.
Proof.
  assert (Hstate : fst (clear no_faults s) = Resolved tt
                   /\ memoryCache (snd (clear no_faults s)) = []
                   /\ (forall k, db_get k (snd (clear no_faults s)) = None)
                   /\ hitCount (snd (clear no_faults s)) = 0
                   /\ missCount (snd (clear no_faults s)) = 0).
  { destruct s as [[store|] m h mi st pd]; unfold clear, await, clearIndexedDB;
      simpl_state; unfold db_get; simpl_state; repeat split. }
  destruct Hstate as (H1 & H2 & H3 & H4 & H5).
  split; [exact H1|]. split; [exact H2|]. split; [exact H3|].
  split; [exact H4|]. split; [exact H5|]. split; [|split].
  - intros Hdb. unfold clear, await, clearIndexedDB, updateStats.
    simpl_state. rewrite Hdb. simpl_state. rewrite Hdb.
    unfold publish, capture. simpl_state. rewrite Hdb. reflexivity.
  - intros Hdb. rewrite settle_spec.
    unfold clear, await, clearIndexedDB, updateStats. simpl_state.
    destruct (db s) as [store|]; [|congruence]. simpl_state.
    rewrite fold_left_app. unfold publish, capture. simpl_state.
    rewrite getAll_empty. reflexivity.
  - intros now k. rewrite get_answer. unfold serving.
    now rewrite H2, H3.
Qed.

(** X6: with the store open, a failing [clear] request rejects after the
    memory map has been emptied: the counters and the snapshot stay as
    they were, the store keeps its records, and each unexpired one is
    still served by [get]. *)
Theorem failed_clear_empties_memory_only f s store :
  db s = Some store ->
  clearFails f = true ->
  fst (clear f s) = Rejected
  /\ memoryCache (snd (clear f s)) = []
  /\ db (snd (clear f s)) = Some store
  /\ hitCount (snd (clear f s)) = hitCount s
  /\ missCount (snd (clear f s)) = missCount s
  /\ statsSubject (snd (clear f s)) = statsSubject s
  /\ forall now k e,
       store !! k = Some e -> now < expiration e ->
       fst (get no_faults now k (snd (clear f s))) = Resolved (data e).
Proof.
  intros Hdb Hf.
  assert (Hclear : clear f s = (Rejected, with_memoryCache [] s)).
  { unfold clear, await, clearIndexedDB. simpl_state.
    now rewrite Hdb, Hf. }
  rewrite Hclear. simpl_state. repeat split; auto.
  intros now k e He Hnow. rewrite get_answer. unfold serving, db_get.
  simpl_state. rewrite Hdb, He. simpl.
  destruct (Z.gtb_spec (expiration e) now); [reflexivity | lia].
Qed.

(** X9: after [delete(k)] no tier holds [k], so [get(k)] resolves with
    [null] whatever the clock reads. *)
Theorem delete_then_get_misses now k s :
  map_get k (memoryCache (snd (delete no_faults k s))) = None
  /\ db_get k (snd (delete no_faults k s)) = None
  /\ fst (get no_faults now k (snd (delete no_faults k s))) = Resolved None.
Proof.
  assert (Hm : map_get k (memoryCache (snd (delete no_faults k s))) = None)
    by (rewrite delete_memoryCache; apply map_get_delete_eq).
  assert (Hd : db_get k (snd (delete no_faults k s)) = None).
  { unfold db_get. rewrite delete_db. destruct (db s); [|reflexivity].
    apply lookup_delete_eq. }
  repeat split; auto.
  rewrite get_answer. unfold serving. now rewrite Hm, Hd.
Qed.

(** X10: [delete(k)] changes what no other key reads: for [k'] other
    than [k] both tiers hold what they held and [get(k')] resolves with
    the same value. *)
Theorem delete_leaves_other_keys now k k' s :
  k <> k' ->
  map_get k' (memoryCache (snd (delete no_faults k s)))
  = map_get k' (memoryCache s)
  /\ db_get k' (snd (delete no_faults k s)) = db_get k' s
  /\ fst (get no_faults now k' (snd (delete no_faults k s)))
     = fst (get no_faults now k' s).
Proof.
  intros Hne.
  assert (Hm : map_get k' (memoryCache (snd (delete no_faults k s)))
               = map_get k' (memoryCache s))
    by (rewrite delete_memoryCache; now apply map_get_delete_ne).
  assert (Hd : db_get k' (snd (delete no_faults k s)) = db_get k' s).
  { unfold db_get. rewrite delete_db. destruct (db s); [|reflexivity].
    now apply lookup_delete_ne. }
  repeat split; auto.
  rewrite !get_answer. unfold serving. now rewrite Hm, Hd.
Qed.
End Reads.

(** * The sweep *)

Section Sweep.
Context {T : Type} (jsonByteLength : T -> Z).
Implicit Types (m : MemoryMap T) (e : CacheEntry T) (k : string)
  (s : State T).

Lemma map_delete_filter k m :
  map_delete k m = List.filter (fun p => negb (String.eqb (fst p) k)) m.
Proof.
  induction m as [|[k' e'] r IH]; simpl; [reflexivity|].
  destruct (String.eqb k' k); simpl; now rewrite IH.
Qed.

Lemma filter_twice {A} (f g : A -> bool) (l : list A) :
  List.filter f (List.filter g l) = List.filter (fun x => g x && f x) l.
Proof.
  induction l as [|x l IH]; simpl; [reflexivity|].
  destruct (g x); simpl; [destruct (f x)|]; now rewrite IH.
Qed.

Lemma delete_keys_filter ks m :
  delete_keys ks m
  = List.filter
      (fun p => negb (existsb (fun k => String.eqb (fst p) k) ks)) m.
Proof.
  revert m. induction ks as [|k ks IH]; intros m.
  - simpl. induction m as [|p m IHm]; simpl; [reflexivity|].
    now rewrite <- IHm.
  - rewrite delete_keys_cons, IH, map_delete_filter, filter_twice.
    apply List.filter_ext. intros p. simpl. now rewrite negb_orb.
Qed.

Lemma unique_key m p p' :
  List.NoDup (List.map fst m) ->
  In p m -> In p' m -> fst p = fst p' -> p = p'.
Proof.
  induction m as [|q m IH]; simpl; [tauto|].
  intros Hnd Hp Hp' Hk. apply List.NoDup_cons_iff in Hnd as [Hq Hnd].
  destruct Hp as [->|Hp], Hp' as [->|Hp'].
  - reflexivity.
  - exfalso. apply Hq. rewrite Hk. now apply in_map.
  - exfalso. apply Hq. rewrite <- Hk. now apply in_map.
  - now apply IH.
Qed.

(** In a map with one entry per key, [cleanup] removes the expired
    entries and nothing else, keeping the order. *)
Lemma cleanup_memory_filter now nowDb s :
  List.NoDup (List.map fst (memoryCache s)) ->
  memoryCache (snd (cleanup no_faults now nowDb s))
  = List.filter (fun p => now <? expiration (snd p)) (memoryCache s).
Proof.
  intros Hnd. rewrite cleanup_memoryCache, delete_keys_filter.
  apply List.filter_ext_in. intros p Hp.
  rewrite Z.ltb_antisym. f_equal.
  destruct (Z.leb_spec (expiration (snd p)) now) as [Hexp|Hexp].
  - apply existsb_exists. exists (fst p). split.
    + unfold expired_keys. apply in_map. apply filter_In.
      split; [exact Hp | now apply Z.leb_le].
    + apply String.eqb_refl.
  - apply not_true_is_false. intros Hex.
    apply existsb_exists in Hex as [k' [Hin Heq]].
    apply String.eqb_eq in Heq. subst k'.
    unfold expired_keys in Hin.
    apply in_map_iff in Hin as [p' [Hk Hin]].
    apply filter_In in Hin as [Hin Hle]. apply Z.leb_le in Hle.
    assert (p' = p) by (apply (unique_key (memoryCache s)); auto).
    subst p'. lia.
Qed.

Lemma cleanup_db_get now nowDb s k :
  db_get k (snd (cleanup no_faults now nowDb s))
  = match db_get k s with
    | Some e => if nowDb <? expiration e then Some e else None
    | None => None
    end.
Proof.
  unfold db_get. rewrite cleanup_db.
  destruct (db s) as [store|]; [|reflexivity]. simpl.
  destruct (store !! k) as [e|] eqn:He.
  - destruct (Z.ltb_spec nowDb (expiration e)).
    + apply map_lookup_filter_Some. split; [exact He | simpl; lia].
    + apply map_lookup_filter_None_2. right. intros e' He'. simpl.
      assert (e' = e) by congruence. subst e'. lia.
  - apply map_lookup_filter_None_2. now left.
Qed.

(** X7: on a memory map with one entry per key, [cleanup] keeps exactly
    the entries with [expiration > now], in their order, and the store
    keeps exactly the records with [expiration > nowDb]: nothing expired
    is left and nothing unexpired is lost. *)
Theorem cleanup_keeps_exactly_the_unexpired now nowDb s :
  List.NoDup (List.map fst (memoryCache s)) ->
  memoryCache (snd (cleanup no_faults now nowDb s))
  = List.filter (fun p => now <? expiration (snd p)) (memoryCache s)
  /\ forall k e,
       db_get k (snd (cleanup no_faults now nowDb s)) = Some e
       <-> db_get k s = Some e /\ nowDb < expiration e.
Proof.
  intros Hnd. split; [now apply cleanup_memory_filter|].
  intros k e. rewrite cleanup_db_get.
  destruct (db_get k s) as [e'|]; [|split; [discriminate | now intros []]].
  destruct (Z.ltb_spec nowDb (expiration e')); split.
  - intros [= ->]. now split.
  - now intros [H' _].
  - discriminate.
  - intros [[= ->] H']. lia.
Qed.

Lemma map_get_filter (P : string * CacheEntry T -> bool) k m :
  List.NoDup (List.map fst m) ->
  map_get k (List.filter P m)
  = match map_get k m with
    | Some e => if P (k, e) then Some e else None
    | None => None
    end.
Proof.
  induction m as [|[k1 e1] r IH]; simpl; [reflexivity|].
  intros Hnd. apply List.NoDup_cons_iff in Hnd as [Hk1 Hnd].
  specialize (IH Hnd).
  destruct (String.eqb_spec k1 k) as [->|Hne].
  - assert (Hr : map_get k r = None).
    { destruct (map_get k r) as [e|] eqn:Hget; [|reflexivity].
      exfalso. apply Hk1. apply (in_map fst _ (k, e)).
      now apply map_get_In. }
    rewrite Hr in IH.
    destruct (P (k, e1)); simpl; [now rewrite String.eqb_refl | exact IH].
  - destruct (P (k1, e1)); simpl; [|exact IH].
    destruct (String.eqb_spec k1 k); [contradiction | exact IH].
Qed.

(** X8: the sweep is invisible to readers: at any clock reading from the
    sweep's own readings on, [get] resolves with the same value whether
    [cleanup] ran or not. *)
Theorem cleanup_changes_no_later_read now nowDb t k s :
  List.NoDup (List.map fst (memoryCache s)) ->
  now <= t -> nowDb <= t ->
  fst (get no_faults t k (snd (cleanup no_faults now nowDb s)))
  = fst (get no_faults t k s).
Proof.
  intros Hnd Hnow HnowDb. rewrite !get_answer. f_equal. f_equal.
  unfold serving.
  rewrite cleanup_memory_filter, map_get_filter, cleanup_db_get
    by exact Hnd.
  assert (Hmem : unexpired t
                   match map_get k (memoryCache s) with
                   | Some e => if now <? expiration (snd (k, e))
                               then Some e else None
                   | None => None
                   end
                 = unexpired t (map_get k (memoryCache s))).
  { destruct (map_get k (memoryCache s)) as [e|]; [|reflexivity]. simpl.
    destruct (Z.ltb_spec now (expiration e)); [reflexivity|]. simpl.
    destruct (Z.gtb_spec (expiration e) t); [lia | reflexivity]. }
  assert (Hdb : unexpired t
                  match db_get k s with
                  | Some e => if nowDb <? expiration e then Some e else None
                  | None => None
                  end
                = unexpired t (db_get k s)).
  { destruct (db_get k s) as [e|]; [|reflexivity].
    destruct (Z.ltb_spec nowDb (expiration e)); [reflexivity|]. simpl.
    destruct (Z.gtb_spec (expiration e) t); [lia | reflexivity]. }
  now rewrite Hmem, Hdb.
Qed.

(** X14: [enforceMemoryLimit] is idempotent: once it has run, running it
    again removes nothing. *)
Theorem enforceMemoryLimit_idempotent s :
  enforceMemoryLimit (enforceMemoryLimit s) = enforceMemoryLimit s.
Proof.
  pose proof (enforceMemoryLimit_bound s) as Hle.
  unfold enforceMemoryLimit at 1.
  destruct (Z.gtb_spec
              (calculateMemoryUsage (memoryCache (enforceMemoryLimit s)))
              maxSize); [lia | reflexivity].
Qed.
End Sweep.

(** * What [set] leaves to read *)

Section Writes.
Context {T : Type} (jsonByteLength : T -> Z).
Implicit Types (m : MemoryMap T) (e : CacheEntry T) (k : string)
  (s : State T) (d : option T).

(** After [set], the memory map holds the new record under the key, or
    nothing, as long as the payload is small or the key was not
    resident; the store, when open, holds the new record. *)
Lemma set_memory_copy now0 k d ttl ty s :
  (calculateSize jsonByteLength d < 1024 * 1024
   \/ map_get k (memoryCache s) = None) ->
  map_get k (memoryCache
               (snd (set jsonByteLength no_faults now0 k d ttl ty s)))
  = None
  \/ map_get k (memoryCache
                  (snd (set jsonByteLength no_faults now0 k d ttl ty s)))
     = Some (new_entry jsonByteLength now0 k d ttl ty).
Proof.
  intros Hfit. rewrite set_memoryCache.
  destruct (Z.ltb_spec (calculateSize jsonByteLength d) (1024 * 1024)).
  - destruct (enforceMemoryLimit_sub
                (with_memoryCache
                   (map_set k (new_entry jsonByteLength now0 k d ttl ty)
                            (memoryCache s)) s) k) as [H'|H'];
      [now left|]. right. rewrite H'. simpl_state. apply map_get_set_eq.
  - left. destruct Hfit; [lia | assumption].
Qed.

Lemma set_db_copy now0 k d ttl ty s :
  db_get k (snd (set jsonByteLength no_faults now0 k d ttl ty s))
  = match db s with
    | Some _ => Some (new_entry jsonByteLength now0 k d ttl ty)
    | None => None
    end.
Proof.
  unfold db_get. rewrite set_db. destruct (db s); [|reflexivity].
  apply lookup_insert_eq.
Qed.

(** X16: an entry set with a ttl of zero or less is born expired: no
    [get] from the clock reading of the [set] on resolves with anything
    but [null] (the payload being small, or the key not resident before,
    so that no older copy is left in the memory map). *)
Theorem set_with_no_ttl_is_never_read now0 now k d ttl ty s :
  ttl <= 0 ->
  now0 <= now ->
  (calculateSize jsonByteLength d < 1024 * 1024
   \/ map_get k (memoryCache s) = None) ->
  fst (get no_faults now k
         (snd (set jsonByteLength no_faults now0 k d ttl ty s)))
  = Resolved None.
Proof.
  intros Httl Hnow Hfit. rewrite get_answer. unfold serving.
  rewrite set_db_copy.
  assert (Hexp : unexpired now
                   (Some (new_entry jsonByteLength now0 k d ttl ty)) = None).
  { apply unexpired_None. intros e [= <-]. simpl. lia. }
  destruct (set_memory_copy now0 k d ttl ty s Hfit) as [-> | ->].
  - simpl. destruct (db s); [now rewrite Hexp | reflexivity].
  - rewrite Hexp. destruct (db s); [now rewrite Hexp | reflexivity].
Qed.

(** X17: with no store at all, a payload below 1 MiB set at a clock
    reading later than the last access of every other resident entry
    stays in the memory map, and every [get] before the expiry resolves
    with it. *)
Theorem memory_only_set_is_read_back now0 now k d ttl ty s :
  db s = None ->
  calculateSize jsonByteLength d < 1024 * 1024 ->
  List.NoDup (List.map fst (memoryCache s)) ->
  (forall p, In p (memoryCache s) -> fst p <> k ->
             lastAccessed (snd p) < now0) ->
  now < now0 + ttl ->
  fst (get no_faults now k
         (snd (set jsonByteLength no_faults now0 k d ttl ty s)))
  = Resolved d.
Proof.
  intros Hdb Hsize Hnd Hclock Hnow.
  assert (Hmem : map_get k
                   (memoryCache
                      (snd (set jsonByteLength no_faults now0 k d ttl ty s)))
                 = Some (new_entry jsonByteLength now0 k d ttl ty)).
  { rewrite set_memoryCache.
    destruct (Z.ltb_spec (calculateSize jsonByteLength d) (1024 * 1024));
      [|lia].
    apply enforceMemoryLimit_keeps_newest; simpl_state.
    - now apply NoDup_map_set.
    - apply map_get_set_eq.
    - intros p Hp Hne. apply map_set_In in Hp as [->|Hp];
        [simpl in Hne; congruence|]. simpl. now apply Hclock.
    - pose proof maxSize_above_MiB. simpl. lia. }
  rewrite get_answer. unfold serving. rewrite Hmem. simpl.
  destruct (Z.gtb_spec (now0 + ttl) now); [reflexivity | lia].
Qed.

(** X18: with no store at all, [set] of a payload of 1 MiB or more
    resolves and keeps the payload nowhere: both tiers are as before and
    every [get] resolves with what it would have resolved with. *)
Theorem memory_only_large_set_stores_nothing now0 k d ttl ty s :
  db s = None ->
  1024 * 1024 <= calculateSize jsonByteLength d ->
  fst (set jsonByteLength no_faults now0 k d ttl ty s) = Resolved tt
  /\ memoryCache (snd (set jsonByteLength no_faults now0 k d ttl ty s))
     = memoryCache s
  /\ db (snd (set jsonByteLength no_faults now0 k d ttl ty s)) = None
  /\ forall now k',
       fst (get no_faults now k'
              (snd (set jsonByteLength no_faults now0 k d ttl ty s)))
       = fst (get no_faults now k' s).
Proof.
  intros Hdb Hsize.
  assert (Hm : memoryCache
                 (snd (set jsonByteLength no_faults now0 k d ttl ty s))
               = memoryCache s).
  { rewrite set_memoryCache.
    destruct (Z.ltb_spec (calculateSize jsonByteLength d) (1024 * 1024));
      [lia | reflexivity]. }
  assert (Hd : db (snd (set jsonByteLength no_faults now0 k d ttl ty s))
               = None) by now rewrite set_db, Hdb.
  split; [apply set_fst|]. split; [exact Hm|]. split; [exact Hd|].
  intros now k'. rewrite !get_answer. unfold serving, db_get.
  now rewrite Hm, Hd, Hdb.
Qed.
End Writes.

Section CeilingKept.
Context {T : Type} (jsonByteLength : T -> Z).

(** X15: within one session the ceiling is an invariant: from a state
    whose memory map is at or below 50 MiB (all sizes being byte
    lengths, hence not negative), every sequence of [set], [get], [has],
    [delete], [clear] and [cleanup] calls ends with the memory map at or
    below 50 MiB. *)
Theorem ceiling_kept_by_every_public_call (ops : list (Op T)) s :
  (forall v, 0 <= jsonByteLength v) ->
  within_ceiling s ->
  calculateMemoryUsage (memoryCache (run jsonByteLength ops s))
  <= 50 * 1024 * 1024.
Proof.
  intros Hnonneg Hs.
  now destruct (within_ceiling_run jsonByteLength Hnonneg ops s Hs).
Qed.
End CeilingKept.

(** * The published snapshot *)

Section Snapshot.
Context {T : Type}.
Implicit Types (m : MemoryMap T) (e : CacheEntry T) (k : string)
  (s : State T).

Lemma insert_sorted_perm_any {A} (le : A -> A -> bool) x l :
  Permutation (insert_sorted le x l) (x :: l).
Proof.
  induction l as [|y r IH]; simpl; [reflexivity|].
  destruct (le x y); [reflexivity|].
  rewrite IH. apply perm_swap.
Qed.

Lemma stable_sort_perm_any {A} (le : A -> A -> bool) l :
  Permutation (stable_sort le l) l.
Proof.
  induction l as [|x r IH]; simpl; [reflexivity|].
  rewrite insert_sorted_perm_any. now constructor.
Qed.

(** [getAll] hands back the records of the store, each once. *)
Lemma getAll_perm (store : ObjectStore T) :
  Permutation (getAll store) (List.map snd (map_to_list store)).
Proof. apply stable_sort_perm_any. Qed.

Lemma getAll_In (store : ObjectStore T) e :
  In e (getAll store) <-> exists k, store !! k = Some e.
Proof.
  split.
  - intros Hin. apply (Permutation_in _ (getAll_perm store)) in Hin.
    apply in_map_iff in Hin as [[k e'] [<- Hin]].
    exists k. apply elem_of_map_to_list. now apply list_elem_of_In.
  - intros [k Hk].
    apply (Permutation_in _ (Permutation_sym (getAll_perm store))).
    apply in_map_iff. exists (k, e). split; [reflexivity|].
    apply list_elem_of_In. now apply elem_of_map_to_list.
Qed.

Lemma fold_min_le (r : list Z) x :
  fold_left Z.min r x <= x
  /\ forall y, In y r -> fold_left Z.min r x <= y.
Proof.
  revert x. induction r as [|z r IH]; intros x; simpl; [split; [lia|tauto]|].
  destruct (IH (Z.min x z)) as [H1 H2]. split; [lia|].
  intros y [<-|Hy]; [lia | now apply H2].
Qed.

Lemma fold_max_ge (r : list Z) x :
  x <= fold_left Z.max r x
  /\ forall y, In y r -> y <= fold_left Z.max r x.
Proof.
  revert x. induction r as [|z r IH]; intros x; simpl; [split; [lia|tauto]|].
  destruct (IH (Z.max x z)) as [H1 H2]. split; [lia|].
  intros y [<-|Hy]; [lia | now apply H2].
Qed.

Lemma min_of_le_max_of (l : list Z) : min_of l <= max_of l.
Proof.
  destruct l as [|x r]; simpl; [lia|].
  pose proof (proj1 (fold_min_le r x)). pose proof (proj1 (fold_max_ge r x)).
  lia.
Qed.

Lemma min_of_lower (l : list Z) y : In y l -> min_of l <= y.
Proof.
  destruct l as [|x r]; [intros []|]. simpl.
  destruct (fold_min_le r x) as [H1 H2]. intros [<-|Hy]; auto.
Qed.

Lemma max_of_upper (l : list Z) y : In y l -> y <= max_of l.
Proof.
  destruct l as [|x r]; [intros []|]. simpl.
  destruct (fold_max_ge r x) as [H1 H2]. intros [<-|Hy]; auto.
Qed.

Lemma sum_sizes_app (l1 l2 : list (CacheEntry T)) :
  fold_left (fun total entry => total + size (metadata entry)) (l1 ++ l2) 0
  = fold_left (fun total entry => total + size (metadata entry)) l1 0
    + fold_left (fun total entry => total + size (metadata entry)) l2 0.
Proof. rewrite fold_left_app. apply usage_acc. Qed.

Lemma sum_sizes_nonneg (l : list (CacheEntry T)) :
  (forall e, In e l -> 0 <= size (metadata e)) ->
  0 <= fold_left (fun total entry => total + size (metadata entry)) l 0.
Proof.
  induction l as [|x l IH]; intros H; simpl; [lia|].
  rewrite usage_acc.
  pose proof (H x (or_introl eq_refl)).
  assert (0 <= fold_left
                 (fun total entry => total + size (metadata entry)) l 0)
    by (apply IH; intros; apply H; now right).
  lia.
Qed.

Lemma capture_sizes f s :
  sizes_nonneg (memoryCache s) ->
  (forall k e, db_get k s = Some e -> 0 <= size (metadata e)) ->
  (forall e, In e (memoryEntries (capture f s)) -> 0 <= size (metadata e))
  /\ (forall e, In e (dbEntries (capture f s)) -> 0 <= size (metadata e)).
Proof.
  intros Hsizes Hdb. unfold capture. cbn [memoryEntries dbEntries]. split.
  - intros e He. apply in_map_iff in He as [p [<- Hp]]. now apply Hsizes.
  - intros e He. unfold db_get in Hdb.
    destruct (db s) as [store|]; [|destruct He].
    destruct (getAllFails f); [destruct He|].
    apply getAll_In in He as [k Hk]. now apply (Hdb k).
Qed.

(** X11: an [updateStats] call started in state [s] and resumed in
    state [s'] publishes a snapshot in which the oldest timestamp is not
    above the newest one and both bound the timestamp of every entry
    that was in the memory map at the start, [totalEntries] is at least
    the number of those entries, and neither [totalSize] nor
    [memoryUsage] is negative (no size being negative).  [memoryUsage]
    is read at the resumption: it is at most [totalSize] when the memory
    map is then what it was at the start. *)
Theorem published_snapshot_is_consistent f s s' :
  sizes_nonneg (memoryCache s) ->
  (forall k e, db_get k s = Some e -> 0 <= size (metadata e)) ->
  sizes_nonneg (memoryCache s') ->
  oldestEntry (publish (capture f s) s')
  <= newestEntry (publish (capture f s) s')
  /\ (forall k e, In (k, e) (memoryCache s) ->
        oldestEntry (publish (capture f s) s') <= timestamp e
        <= newestEntry (publish (capture f s) s'))
  /\ Z.of_nat (length (memoryCache s))
     <= totalEntries (publish (capture f s) s')
  /\ 0 <= totalSize (publish (capture f s) s')
  /\ 0 <= memoryUsage (publish (capture f s) s')
  /\ (memoryCache s' = memoryCache s ->
      memoryUsage (publish (capture f s) s')
      <= totalSize (publish (capture f s) s')).
Proof.
  intros Hsizes Hdb Hsizes'.
  destruct (capture_sizes f s Hsizes Hdb) as [Hmem Hstore].
  unfold publish.
  cbn [oldestEntry newestEntry totalEntries totalSize memoryUsage].
  set (mem := memoryEntries (capture f s)) in *.
  set (fresh := List.filter
                  (fun d => negb (existsb
                                    (fun mem => String.eqb (key mem) (key d))
                                    mem))
                  (dbEntries (capture f s))).
  assert (Hfresh : forall e, In e fresh -> 0 <= size (metadata e)).
  { intros e He. apply filter_In in He as [He _]. now apply Hstore. }
  assert (Hm : mem = map_values (memoryCache s)) by reflexivity.
  split; [apply min_of_le_max_of|].
  split; [|split; [|split; [|split]]].
  - intros k e Hin.
    assert (He : In (timestamp e) (List.map timestamp (mem ++ fresh))).
    { apply in_map. apply in_or_app. left. rewrite Hm.
      apply (in_map snd _ (k, e)). exact Hin. }
    split; [now apply min_of_lower | now apply max_of_upper].
  - rewrite length_app, Hm. unfold map_values. rewrite length_map. lia.
  - rewrite sum_sizes_app.
    pose proof (sum_sizes_nonneg mem Hmem).
    pose proof (sum_sizes_nonneg fresh Hfresh). lia.
  - unfold calculateMemoryUsage. apply sum_sizes_nonneg.
    intros e He. apply in_map_iff in He as [p [<- Hp]].
    now apply Hsizes'.
  - intros Heq. rewrite sum_sizes_app, Heq.
    unfold calculateMemoryUsage. rewrite <- Hm.
    pose proof (sum_sizes_nonneg fresh Hfresh). lia.
Qed.

Lemma filter_length_perm {A} (P : A -> bool) (l l' : list A) :
  Permutation l l' ->
  length (List.filter P l) = length (List.filter P l').
Proof.
  induction 1 as [|x l l' _ IH|x y l|l l' l'' _ IH1 _ IH2]; simpl.
  - reflexivity.
  - destruct (P x); simpl; congruence.
  - destruct (P x), (P y); reflexivity.
  - congruence.
Qed.

Lemma resident_key m e :
  keys_agree m ->
  existsb (fun mem => String.eqb (key mem) (key e)) (map_values m) = true
  <-> In (key e) (List.map fst m).
Proof.
  intros Hm. rewrite existsb_exists. split.
  - intros [mem [Hin Heq]]. apply String.eqb_eq in Heq.
    apply in_map_iff in Hin as [p [<- Hp]].
    apply in_map_iff. exists p. split; [|exact Hp].
    rewrite <- Heq. symmetry. now apply Hm.
  - intros Hin. apply in_map_iff in Hin as [p [Heq Hp]].
    exists (snd p). split; [now apply in_map|].
    apply String.eqb_eq. rewrite <- Heq. now apply Hm.
Qed.

Lemma filter_values_length (P : string -> bool)
    (l : list (string * CacheEntry T)) :
  (forall p, In p l -> key (snd p) = fst p) ->
  length (List.filter (fun e => P (key e)) (List.map snd l))
  = length (List.map fst (List.filter (fun p => P (fst p)) l)).
Proof.
  induction l as [|p l IH]; intros H; simpl; [reflexivity|].
  rewrite (H p (or_introl eq_refl)).
  destruct (P (fst p)); simpl; rewrite IH; auto.
  - intros q Hq. apply H. now right.
  - intros q Hq. apply H. now right.
Qed.

Lemma NoDup_filter_fst {A B} (P : A * B -> bool) (l : list (A * B)) :
  List.NoDup (List.map fst l) ->
  List.NoDup (List.map fst (List.filter P l)).
Proof.
  induction l as [|p l IH]; simpl; intros H; [constructor|].
  apply List.NoDup_cons_iff in H as [Hp Hl].
  destruct (P p); simpl; [|auto].
  apply List.NoDup_cons_iff. split; [|auto].
  intros Hin. apply Hp. apply in_map_iff in Hin as [q [Hq Hin]].
  apply filter_In in Hin as [Hin _].
  apply in_map_iff. now exists q.
Qed.

(** The records of the store whose key is outside [M], counted. *)
Lemma count_outside (store : ObjectStore T) (M : gset string) :
  store_wf store ->
  length (List.filter (fun e => negb (bool_decide (key e ∈ M)))
                      (getAll store))
  = base.size (dom store ∖ M).
Proof.
  intros Hwf.
  rewrite (filter_length_perm _ _ _ (getAll_perm store)).
  pose proof (filter_values_length
                (fun k => negb (bool_decide (k ∈ M)))
                (map_to_list store)) as E.
  cbv beta in E. rewrite E; clear E.
  2:{ intros [k e] Hin. simpl. apply Hwf.
      apply elem_of_map_to_list. now apply list_elem_of_In. }
  rewrite <- (size_list_to_set (C := gset string)).
  2:{ apply NoDup_ListNoDup. apply NoDup_filter_fst.
      apply NoDup_ListNoDup. apply (NoDup_fst_map_to_list store). }
  f_equal. apply set_eq. intros k.
  rewrite elem_of_list_to_set, list_elem_of_In, in_map_iff,
    elem_of_difference, elem_of_dom.
  split.
  - intros [[k' e] [Hk Hin]]. simpl in Hk. subst k'.
    apply filter_In in Hin as [Hin HP]. simpl in HP.
    apply negb_true_iff, bool_decide_eq_false in HP.
    split; [|exact HP]. exists e.
    apply elem_of_map_to_list. now apply list_elem_of_In.
  - intros [[e He] HM]. exists (k, e). split; [reflexivity|].
    apply filter_In. split.
    + apply list_elem_of_In. now apply elem_of_map_to_list.
    + simpl. now apply negb_true_iff, bool_decide_eq_false.
Qed.

Lemma filter_ext_length {A} (P Q : A -> bool) (l : list A) :
  (forall x, P x = Q x) ->
  length (List.filter P l) = length (List.filter Q l).
Proof.
  intros H. induction l as [|x l IH]; simpl; [reflexivity|].
  rewrite H. destruct (Q x); simpl; congruence.
Qed.

(** X12: [totalEntries] counts keys, not copies.  When the [getAll] of
    an [updateStats] call succeeds (or the store never opened), the
    [totalEntries] it publishes, whenever it resumes, is the number of
    distinct keys that the memory map and the object store held
    together when the call was started: an entry living in both tiers
    is counted once. *)
Theorem totalEntries_counts_distinct_keys f s s' :
  getAllFails f = false ->
  db_wf s ->
  keys_agree (memoryCache s) ->
  List.NoDup (List.map fst (memoryCache s)) ->
  totalEntries (publish (capture f s) s')
  = Z.of_nat (base.size (memory_keys s ∪ durable_keys s)).
Proof.
  intros Hf Hwf Hagree Hnodup. unfold publish, capture.
  cbn [totalEntries memoryEntries dbEntries]. f_equal.
  rewrite length_app, size_union_alt. f_equal.
  - unfold memory_keys, map_values.
    rewrite size_list_to_set by now apply NoDup_ListNoDup.
    now rewrite !length_map.
  - unfold durable_keys. rewrite Hf.
    destruct (db s) as [store|] eqn:Hdb.
    + rewrite <- (count_outside store (memory_keys s))
        by now apply Hwf.
      apply filter_ext_length. intros e. f_equal.
      apply eq_true_iff_eq. rewrite resident_key by assumption.
      rewrite bool_decide_eq_true. unfold memory_keys.
      now rewrite elem_of_list_to_set, list_elem_of_In.
    + simpl. rewrite difference_disjoint_L by set_solver.
      now rewrite size_empty.
Qed.

(** The snapshot can show more memory in use than there is in total:
    when a second [set] has written to the memory map before the
    [updateStats] of the first one resumes, that call publishes the
    [totalSize] of the one entry it saw with the [memoryUsage] of two. *)
Example late_memoryUsage_exceeds_totalSize :
  let s := schedule xs_length
             [Call (OpSet 0 "k" (Some 5%N) 1000 "analysis");
              Call (OpSet 1 "j" (Some 5%N) 1000 "analysis");
              Resume]
             (settle opened) in
  totalSize (statsSubject s) = 7 /\ memoryUsage (statsSubject s) = 14.
Proof. vm_compute. split; reflexivity. Qed.
End Snapshot.

(** * Start-up: what [loadMemoryCache] brings into memory *)

Section Startup.
Context {T : Type}.
Implicit Types (m : MemoryMap T) (e : CacheEntry T) (k : string)
  (s : State T).

Lemma insert_sorted_ext {A} (le le' : A -> A -> bool) x l :
  (forall a b, le a b = le' a b) ->
  insert_sorted le x l = insert_sorted le' x l.
Proof.
  intros H. induction l as [|y r IH]; simpl; [reflexivity|].
  now rewrite H, IH.
Qed.

Lemma stable_sort_ext {A} (le le' : A -> A -> bool) l :
  (forall a b, le a b = le' a b) ->
  stable_sort le l = stable_sort le' l.
Proof.
  intros H. induction l as [|x r IH]; simpl; [reflexivity|].
  rewrite IH. now apply insert_sorted_ext.
Qed.

Lemma by_score_desc_le_by (a b : CacheEntry T) :
  by_score_desc a b = le_by (fun e => - score e) a b.
Proof.
  unfold by_score_desc, le_by, score.
  destruct (Z.leb_spec (accessCount b * lastAccessed b)
                       (accessCount a * lastAccessed a));
    destruct (Z.leb_spec (- (accessCount a * lastAccessed a))
                         (- (accessCount b * lastAccessed b)));
    (reflexivity || lia).
Qed.

Lemma sorted_by_score (l : list (CacheEntry T)) :
  StronglySorted (fun a b => score b <= score a)
                 (stable_sort by_score_desc l).
Proof.
  rewrite (stable_sort_ext _ _ l by_score_desc_le_by).
  pose proof (stable_sort_sorted (fun e : CacheEntry T => - score e) l)
    as H.
  induction H as [|x r Hr IH Hx]; constructor; [exact IH|].
  eapply List.Forall_impl; [|exact Hx].
  intros y Hy. unfold ascending in Hy. simpl in Hy. lia.
Qed.

Lemma sorted_split {A} (R : A -> A -> Prop) (l : list A) :
  StronglySorted R l ->
  forall n a b, In a (firstn n l) -> In b (skipn n l) -> R a b.
Proof.
  induction 1 as [|x r Hr IH Hx]; intros n a b Ha Hb.
  - destruct n; destruct Ha.
  - destruct n as [|n]; [destruct Ha|]. simpl in Ha, Hb.
    destruct Ha as [<-|Ha].
    + rewrite List.Forall_forall in Hx. apply Hx.
      rewrite <- (firstn_skipn n r). apply in_or_app. now right.
    + now apply (IH n).
Qed.

Lemma map_get_fresh k m : ~ In k (List.map fst m) -> map_get k m = None.
Proof.
  induction m as [|[k' e'] r IH]; simpl; [reflexivity|].
  intros H. destruct (String.eqb_spec k' k) as [->|Hne]; [tauto|].
  apply IH. tauto.
Qed.

Lemma fold_map_set_fresh (l : list (CacheEntry T)) m :
  List.NoDup (List.map fst m ++ List.map key l) ->
  fold_left (fun m entry => map_set (key entry) entry m) l m
  = m ++ List.map (fun entry => (key entry, entry)) l.
Proof.
  revert m. induction l as [|a l IH]; intros m H; simpl.
  - now rewrite app_nil_r.
  - rewrite map_set_fresh.
    + rewrite IH.
      * now rewrite <- app_assoc.
      * rewrite map_app, <- app_assoc. exact H.
    + apply map_get_fresh. intros Hin.
      apply List.NoDup_remove_2 in H. apply H.
      apply in_or_app. now left.
Qed.

Lemma NoDup_map_filter {A B} (g : A -> B) (P : A -> bool) (l : list A) :
  List.NoDup (List.map g l) -> List.NoDup (List.map g (List.filter P l)).
Proof.
  induction l as [|p l IH]; simpl; intros H; [constructor|].
  apply List.NoDup_cons_iff in H as [Hp Hl].
  destruct (P p); simpl; [|auto].
  apply List.NoDup_cons_iff. split; [|auto].
  intros Hin. apply Hp. apply in_map_iff in Hin as [q [Hq Hin]].
  apply filter_In in Hin as [Hin _].
  apply in_map_iff. now exists q.
Qed.

Lemma NoDup_firstn {A} n (l : list A) :
  List.NoDup l -> List.NoDup (firstn n l).
Proof.
  intros H. rewrite <- (firstn_skipn n l) in H.
  now apply List.NoDup_app_remove_r in H.
Qed.

Lemma getAll_keys_NoDup (store : ObjectStore T) :
  store_wf store -> List.NoDup (List.map key (getAll store)).
Proof.
  intros Hwf.
  apply (Permutation_NoDup
           (Permutation_sym (Permutation_map key (getAll_perm store)))).
  rewrite List.map_map.
  rewrite (map_ext_in _ fst).
  - apply NoDup_ListNoDup. apply (NoDup_fst_map_to_list store).
  - intros [k e] Hin. simpl. apply Hwf.
    apply elem_of_map_to_list. now apply list_elem_of_In.
Qed.

Lemma top_keys_NoDup now (store : ObjectStore T) :
  store_wf store ->
  List.NoDup
    (List.map key
       (firstn 20 (stable_sort by_score_desc
                               (unexpired_records now store)))).
Proof.
  intros Hwf. rewrite <- firstn_map. apply NoDup_firstn.
  apply (Permutation_NoDup
           (Permutation_sym
              (Permutation_map key (stable_sort_perm_any _ _)))).
  apply NoDup_map_filter. now apply getAll_keys_NoDup.
Qed.

(** The memory map [loadMemoryCache] builds from an empty one. *)
Lemma loaded_memory now (store : ObjectStore T) s :
  store_wf store -> memoryCache s = [] ->
  memoryCache (initializeIndexedDB (Some store) now s)
  = List.map (fun entry => (key entry, entry))
      (firstn 20 (stable_sort by_score_desc
                              (unexpired_records now store))).
Proof.
  intros Hwf Hempty. unfold initializeIndexedDB, loadMemoryCache.
  simpl_state. unfold updateStats. simpl_state. rewrite Hempty.
  rewrite fold_map_set_fresh; [reflexivity|].
  simpl. now apply top_keys_NoDup.
Qed.

(** X13: what a start-up brings into memory.  When [indexedDB.open]
    succeeds and hands back [store], the memory map (empty until then) is
    filled with at most 20 records of the store, as many as there are
    unexpired ones up to 20; every loaded entry is a record of the store
    that is still unexpired, under its own key, and no unexpired record
    left out has a higher [accessCount * lastAccessed] than a loaded one.
    The store itself is left as it was. *)
Theorem startup_loads_the_top_unexpired_records now
    (store : ObjectStore T) s :
  store_wf store -> memoryCache s = [] ->
  let s' := initializeIndexedDB (Some store) now s in
  length (memoryCache s')
  = Nat.min 20 (length (unexpired_records now store))
  /\ (forall k e, In (k, e) (memoryCache s') ->
        store !! k = Some e /\ now < expiration e)
  /\ (forall k e, store !! k = Some e -> now < expiration e ->
        map_get k (memoryCache s') = None ->
        forall k' e', In (k', e') (memoryCache s') -> score e <= score e')
  /\ db s' = Some store.
Proof.
  intros Hwf Hempty s'.
  pose proof (loaded_memory now store s Hwf Hempty) as Hm.
  fold s' in Hm. rewrite Hm.
  set (sorted := stable_sort by_score_desc (unexpired_records now store)).
  assert (Hsorted : forall e, In e sorted <->
                              (exists k, store !! k = Some e)
                              /\ now < expiration e).
  { intros e. unfold sorted. split.
    - intros Hin.
      apply (Permutation_in _ (stable_sort_perm_any _ _)) in Hin.
      apply filter_In in Hin as [Hin Hexp].
      apply getAll_In in Hin. split; [exact Hin | lia].
    - intros [Hin Hexp].
      apply (Permutation_in _ (Permutation_sym
                                 (stable_sort_perm_any _ _))).
      apply filter_In. split; [now apply getAll_In | lia]. }
  assert (Htop : forall e, In e (firstn 20 sorted) -> In e sorted).
  { intros e He. rewrite <- (firstn_skipn 20 sorted).
    apply in_or_app. now left. }
  split; [|split; [|split]].
  - rewrite length_map, length_firstn. f_equal. unfold sorted.
    apply Permutation_length, stable_sort_perm_any.
  - intros k e Hin. apply in_map_iff in Hin as [e0 [[= <- <-] Hin]].
    apply Htop, Hsorted in Hin as [[k Hk] Hexp].
    split; [|exact Hexp]. now rewrite (Hwf _ _ Hk).
  - intros k e Hk Hexp Hnone k' e' Hin.
    apply in_map_iff in Hin as [e0 [[= <- <-] Hin]].
    assert (He : In e sorted) by (apply Hsorted; eauto).
    rewrite <- (firstn_skipn 20 sorted) in He.
    apply in_app_or in He as [He|He].
    + exfalso.
      apply (map_get_None _ _ Hnone (key e, e)).
      * apply in_map_iff. now exists e.
      * simpl. now apply Hwf.
    + apply (sorted_split _ sorted (sorted_by_score _) 20 e0 e Hin He).
  - unfold s', initializeIndexedDB, loadMemoryCache. simpl_state.
    unfold updateStats. now simpl_state.
Qed.
End Startup.

(** * The theorems above at sample states *)

Lemma with_expired_k_db : db with_expired_k = Some k_store.
Proof. vm_compute. reflexivity. Qed.

Lemma k_store_wf : store_wf k_store.
Proof.
  intros k e Hk. unfold k_store in Hk.
  apply lookup_insert_Some in Hk as [[<- <-]|[_ Hk]]; [reflexivity|].
  rewrite lookup_empty in Hk. discriminate.
Qed.

Lemma k_store_sizes k e : k_store !! k = Some e -> 0 <= size (metadata e).
Proof.
  intros Hk. unfold k_store in Hk.
  apply lookup_insert_Some in Hk as [[<- <-]|[_ Hk]]; [vm_compute; discriminate|].
  rewrite lookup_empty in Hk. discriminate.
Qed.

Lemma failed_clear_witness :
  fst (clear clear_fails with_expired_k) = Rejected
  /\ memoryCache (snd (clear clear_fails with_expired_k)) = []
  /\ db (snd (clear clear_fails with_expired_k)) = Some k_store
  /\ hitCount (snd (clear clear_fails with_expired_k))
     = hitCount with_expired_k
  /\ missCount (snd (clear clear_fails with_expired_k))
     = missCount with_expired_k
  /\ statsSubject (snd (clear clear_fails with_expired_k))
     = statsSubject with_expired_k
  /\ forall now k e,
       k_store !! k = Some e -> now < expiration e ->
       fst (get no_faults now k (snd (clear clear_fails with_expired_k)))
       = Resolved (data e).
Proof.
  apply (failed_clear_empties_memory_only clear_fails with_expired_k k_store).
  - vm_compute. reflexivity.
  - reflexivity.
Defined.

Lemma cleanup_keeps_witness :
  memoryCache (snd (cleanup no_faults 20 21 k_and_j))
  = List.filter (fun p => 20 <? expiration (snd p)) (memoryCache k_and_j)
  /\ forall k e,
       db_get k (snd (cleanup no_faults 20 21 k_and_j)) = Some e
       <-> db_get k k_and_j = Some e /\ 21 < expiration e.
Proof.
  apply (cleanup_keeps_exactly_the_unexpired 20 21 k_and_j).
  vm_compute.
  repeat (constructor; [simpl; intuition discriminate|]). constructor.
Defined.

Lemma cleanup_read_witness :
  fst (get no_faults 25 "j" (snd (cleanup no_faults 20 21 k_and_j)))
  = fst (get no_faults 25 "j" k_and_j).
Proof.
  apply (cleanup_changes_no_later_read 20 21 25 "j" k_and_j); [|lia|lia].
  vm_compute.
  repeat (constructor; [simpl; intuition discriminate|]). constructor.
Defined.

Lemma delete_frame_witness :
  map_get "j" (memoryCache (snd (delete no_faults "k" k_and_j)))
  = map_get "j" (memoryCache k_and_j)
  /\ db_get "j" (snd (delete no_faults "k" k_and_j)) = db_get "j" k_and_j
  /\ fst (get no_faults 5 "j" (snd (delete no_faults "k" k_and_j)))
     = fst (get no_faults 5 "j" k_and_j).
Proof.
  apply (delete_leaves_other_keys 5 "k" "j" k_and_j). discriminate.
Defined.

Lemma ceiling_witness :
  calculateMemoryUsage (memoryCache (run xs_length crowding_calls opened))
  <= 50 * 1024 * 1024.
Proof.
  apply (ceiling_kept_by_every_public_call xs_length crowding_calls opened).
  - intros v. unfold xs_length. lia.
  - split; [vm_compute; discriminate|]. split.
    + intros p Hin. vm_compute in Hin. destruct Hin.
    + intros k e He. vm_compute in He. discriminate.
Defined.

Lemma born_expired_witness :
  fst (get no_faults 5 "k"
         (snd (set xs_length no_faults 5 "k" (Some 5%N) 0 "analysis"
                   k_and_j)))
  = Resolved None.
Proof.
  apply (set_with_no_ttl_is_never_read xs_length 5 5 "k" (Some 5%N) 0
                                       "analysis" k_and_j).
  - lia.
  - lia.
  - left. vm_compute. reflexivity.
Defined.

Lemma memory_only_read_back_witness :
  fst (get no_faults 500 "k"
         (snd (set xs_length no_faults 2 "k" (Some 9%N) 1000 "analysis"
                   memory_k_and_j)))
  = Resolved (Some 9%N).
Proof.
  apply (memory_only_set_is_read_back xs_length 2 500 "k" (Some 9%N) 1000
                                      "analysis" memory_k_and_j).
  - reflexivity.
  - vm_compute. reflexivity.
  - vm_compute.
    repeat (constructor; [simpl; intuition discriminate|]). constructor.
  - intros p Hin Hne. vm_compute in Hin.
    destruct Hin as [<-|[<-|[]]]; [now elim Hne | vm_compute; reflexivity].
  - lia.
Defined.

Lemma memory_only_large_witness :
  fst (set xs_length no_faults 2 "big" (Some 1048576%N) 1000 "analysis"
           memory_k_and_j) = Resolved tt
  /\ memoryCache (snd (set xs_length no_faults 2 "big" (Some 1048576%N) 1000
                           "analysis" memory_k_and_j))
     = memoryCache memory_k_and_j
  /\ db (snd (set xs_length no_faults 2 "big" (Some 1048576%N) 1000
                  "analysis" memory_k_and_j)) = None
  /\ forall now k',
       fst (get no_faults now k'
              (snd (set xs_length no_faults 2 "big" (Some 1048576%N) 1000
                        "analysis" memory_k_and_j)))
       = fst (get no_faults now k' memory_k_and_j).
Proof.
  apply (memory_only_large_set_stores_nothing xs_length 2 "big"
           (Some 1048576%N) 1000 "analysis" memory_k_and_j).
  - reflexivity.
  - vm_compute. discriminate.
Defined.

(** The call is started at [with_expired_k] and resumes after a [get]
    that missed, the memory map being what it was. *)
Lemma snapshot_witness :
  let s := with_expired_k in
  let s' := step xs_length (OpGet 5 "absent") with_expired_k in
  oldestEntry (publish (capture no_faults s) s')
  <= newestEntry (publish (capture no_faults s) s')
  /\ (forall k e, In (k, e) (memoryCache s) ->
        oldestEntry (publish (capture no_faults s) s') <= timestamp e
        <= newestEntry (publish (capture no_faults s) s'))
  /\ Z.of_nat (length (memoryCache s))
     <= totalEntries (publish (capture no_faults s) s')
  /\ 0 <= totalSize (publish (capture no_faults s) s')
  /\ 0 <= memoryUsage (publish (capture no_faults s) s')
  /\ memoryUsage (publish (capture no_faults s) s')
     <= totalSize (publish (capture no_faults s) s').
Proof.
  intros s s'.
  destruct (published_snapshot_is_consistent no_faults s s')
    as (H1 & H2 & H3 & H4 & H5 & H6).
  - intros p Hin. vm_compute in Hin. destruct Hin as [<-|[]].
    vm_compute. discriminate.
  - intros k e He. unfold db_get, s in He. rewrite with_expired_k_db in He.
    now apply (k_store_sizes k).
  - intros p Hin. vm_compute in Hin. destruct Hin as [<-|[]].
    vm_compute. discriminate.
  - split; [exact H1|]. split; [exact H2|]. split; [exact H3|].
    split; [exact H4|]. split; [exact H5|].
    apply H6. vm_compute. reflexivity.
Defined.

Lemma totalEntries_witness :
  totalEntries (publish (capture no_faults with_expired_k) k_and_j)
  = Z.of_nat (base.size (memory_keys with_expired_k
                         ∪ durable_keys with_expired_k)).
Proof.
  apply (totalEntries_counts_distinct_keys no_faults with_expired_k).
  - reflexivity.
  - intros store Hs. rewrite with_expired_k_db in Hs.
    injection Hs as <-. exact k_store_wf.
  - intros p Hin. vm_compute in Hin. destruct Hin as [<-|[]]. reflexivity.
  - vm_compute.
    repeat (constructor; [simpl; intuition discriminate|]). constructor.
Defined.

Lemma startup_witness :
  let s' := initializeIndexedDB (Some k_store) 5 (initial : State N) in
  length (memoryCache s')
  = Nat.min 20 (length (unexpired_records 5 k_store))
  /\ (forall k e, In (k, e) (memoryCache s') ->
        k_store !! k = Some e /\ 5 < expiration e)
  /\ (forall k e, k_store !! k = Some e -> 5 < expiration e ->
        map_get k (memoryCache s') = None ->
        forall k' e', In (k', e') (memoryCache s') -> score e <= score e')
  /\ db s' = Some k_store.
Proof.
  apply (startup_loads_the_top_unexpired_records 5 k_store initial).
  - exact k_store_wf.
  - reflexivity.
Defined.

Lemma delete_twice_witness :
  settle (snd (delete no_faults "k" (snd (delete no_faults "k" k_and_j))))
  = settle (snd (delete no_faults "k" k_and_j))
  /\ delete no_faults "k" (snd (delete no_faults "k" memory_k_and_j))
     = (Resolved tt, snd (delete no_faults "k" memory_k_and_j)).
Proof.
  destruct (C9_delete_is_idempotent "k" k_and_j)
    as (_ & _ & _ & _ & _ & _ & Hsettle & _).
  destruct (C9_delete_is_idempotent "k" memory_k_and_j)
    as (_ & _ & _ & _ & _ & _ & _ & Hsame).
  split; [exact Hsettle|]. apply Hsame. reflexivity.
Defined.

Lemma clear_snapshot_witness :
  statsSubject (snd (clear no_faults memory_k_and_j))
  = statsSubject (initial : State N)
  /\ statsSubject (settle (snd (clear no_faults k_and_j)))
     = statsSubject (initial : State N).
Proof.
  destruct (clear_leaves_nothing_to_read memory_k_and_j)
    as (_ & _ & _ & _ & _ & Hnow & _).
  destruct (clear_leaves_nothing_to_read k_and_j)
    as (_ & _ & _ & _ & _ & _ & Hlater & _).
  split; [apply Hnow; reflexivity|].
  apply Hlater. vm_compute. discriminate.
Defined.
